(** * morecpp/framework/viewController.cpp

    A shallow embedding of the view controller of the traffic simulator:
    the zoom-clamped orthographic camera ([processScroll]) and the scene
    projection ([render], [renderRoadSegment], [renderVehicle],
    [renderJunction], [renderTrafficLights]).

    Numbers are what the C++ has: [float] is IEEE-754 binary32 and
    [double] binary64, both through the Standard Library's executable
    specification [SpecFloat] (round to nearest, ties to even); [int] and
    [size_t] are [Z] with their ranges written out.  OpenGL calls are
    replaced by the list of draw commands they issue, each one the model
    matrix (kept as the sequence of glm operations that built it) and the
    colour uploaded before [glDrawArrays]. *)

From Stdlib Require Import ZArith List Bool Lia.
From Stdlib Require Import Floats.SpecFloat.
Import ListNotations.
Local Open Scope Z_scope.

(** ** IEEE-754 formats *)

(** Conversion between formats and from integers: the value is kept when
    it is representable and rounded to nearest otherwise. *)
Definition round_to (prec emax : Z) (x : spec_float) : spec_float :=
  match x with
  | S754_finite s m e => binary_round prec emax s m e
  | _ => x
  end.

(** [float]: binary32. *)
Module F32.
Definition prec : Z := 24.
Definition emax : Z := 128.

Definition of_Z (n : Z) : spec_float := binary_normalize prec emax n 0 false.
Definition opp : spec_float -> spec_float := SFopp.
Definition add : spec_float -> spec_float -> spec_float := SFadd prec emax.
Definition sub : spec_float -> spec_float -> spec_float := SFsub prec emax.
Definition mul : spec_float -> spec_float -> spec_float := SFmul prec emax.
Definition div : spec_float -> spec_float -> spec_float := SFdiv prec emax.
Definition sqrt : spec_float -> spec_float := SFsqrt prec emax.
Definition ltb : spec_float -> spec_float -> bool := SFltb.
Definition leb : spec_float -> spec_float -> bool := SFleb.

  (** A decimal literal [n/d] with [n] and [d] below [2^24]: both are
      exact, so the correctly rounded quotient is the literal's value. *)
Definition lit (n d : Z) : spec_float := div (of_Z n) (of_Z d).

  (** [std::max(a, b)] is [(a < b) ? b : a]; [std::min(a, b)] is
      [(b < a) ? b : a]. *)
Definition max (a b : spec_float) : spec_float := if ltb a b then b else a.
Definition min (a b : spec_float) : spec_float := if ltb b a then b else a.
End F32.

(** [double]: binary64. *)
Module F64.
Definition prec : Z := 53.
Definition emax : Z := 1024.

Definition of_Z (n : Z) : spec_float := binary_normalize prec emax n 0 false.
Definition opp : spec_float -> spec_float := SFopp.
Definition add : spec_float -> spec_float -> spec_float := SFadd prec emax.
Definition mul : spec_float -> spec_float -> spec_float := SFmul prec emax.
Definition div : spec_float -> spec_float -> spec_float := SFdiv prec emax.
Definition ltb : spec_float -> spec_float -> bool := SFltb.
Definition leb : spec_float -> spec_float -> bool := SFleb.

  (** Promotion of a [float] operand in a [double] expression. *)
Definition of_float : spec_float -> spec_float := round_to prec emax.
  (** Conversion on assignment to a [float] variable. *)
Definition to_float : spec_float -> spec_float := round_to F32.prec F32.emax.
End F64.

Definition float : Type := spec_float.
Definition double : Type := spec_float.

(** ** Camera state *)

(** The fields of [ViewController] the scroll handler and the renderer
    read and write. *)
Record ViewController : Type := mkViewController {
  orthographicLeft : float;
  orthographicRight : float;
  orthographicBottom : float;
  orthographicTop : float
}.

(** [float zoomFactor = 1.0f + (-yOffset * zoomSensitivity / 100.0f);]
    [yOffset] is a [double], so the expression is evaluated in [double]
    and rounded once, on assignment. *)
Definition zoomFactorOf (yOffset : double) : float :=
  let zoomSensitivity : float := F32.lit 10 1 in
  F64.to_float
    (F64.add (F64.of_float (F32.lit 1 1))
       (F64.div (F64.mul (F64.opp yOffset) (F64.of_float zoomSensitivity))
          (F64.of_float (F32.lit 100 1)))).

Definition processScroll (yOffset : double) (vc : ViewController) : ViewController :=
  let zoomFactor := zoomFactorOf yOffset in
  let l := F32.mul (orthographicLeft vc) zoomFactor in
  let r := F32.mul (orthographicRight vc) zoomFactor in
  let b := F32.mul (orthographicBottom vc) zoomFactor in
  let t := F32.mul (orthographicTop vc) zoomFactor in
  (* limit zoom *)
  {| orthographicLeft := F32.max l (F32.opp (F32.lit 3200 1));
     orthographicRight := F32.min r (F32.lit 3200 1);
     orthographicBottom := F32.max b (F32.opp (F32.lit 1800 1));
     orthographicTop := F32.min t (F32.lit 1800 1) |}.

(** The scroll callback fires once per event: a sequence of deltas is a
    left-to-right fold of [processScroll]. *)
Definition processScrolls (deltas : list double) (vc : ViewController) : ViewController :=
  fold_left (fun c y => processScroll y c) deltas vc.

Definition getCurrentZoomLevel (vc : ViewController) : float :=
  F32.div (F32.sub (orthographicRight vc) (orthographicLeft vc)) (F32.lit 200 1).

(** ** Machine integers *)

Definition INT_MIN : Z := - 2 ^ 31.
Definition INT_MAX : Z := 2 ^ 31 - 1.

(** An [int] result; signed overflow has no defined behaviour. *)
Definition int_checked (n : Z) : option Z :=
  if (INT_MIN <=? n) && (n <=? INT_MAX) then Some n else None.

(** [static_cast<int>(x)] for a [float] [x]: truncation toward zero,
    defined only when the truncated value is an [int]. *)
Definition float_to_int (x : float) : option Z :=
  match x with
  | S754_zero _ => Some 0
  | S754_finite s m e =>
      let a := match e with
               | Zneg k => Zpos m / 2 ^ Zpos k
               | _ => Zpos m * 2 ^ e
               end in
      int_checked (cond_Zopp s a)
  | _ => None
  end.

(** An [int] compared with a [size_t] is converted to [size_t] first. *)
Definition to_size_t (n : Z) : Z := n mod 2 ^ 64.

(** ** Vectors *)

Module Vector3.
Record t : Type := mk { x : float; y : float; z : float }.

  (** Modelled from the spec: the class [Vector3] is declared outside
      [viewController.cpp]; [operator+], [operator-], [operator*] with a
      scalar and [length] are taken componentwise in [float], as the
      resolver's "raw direction vector end - start", "trim ... along the
      direction" and "adjusted length" read.  [normalized] is left as a
      parameter of the projection. *)
Definition add (a b : t) : t :=
    mk (F32.add (x a) (x b)) (F32.add (y a) (y b)) (F32.add (z a) (z b)).
Definition sub (a b : t) : t :=
    mk (F32.sub (x a) (x b)) (F32.sub (y a) (y b)) (F32.sub (z a) (z b)).
Definition scale (a : t) (k : float) : t :=
    mk (F32.mul (x a) k) (F32.mul (y a) k) (F32.mul (z a) k).
Definition length (a : t) : float :=
    F32.sqrt (F32.add (F32.add (F32.mul (x a) (x a)) (F32.mul (y a) (y a)))
                (F32.mul (z a) (z a))).
End Vector3.

(** The part of glm the renderer uses.  A [mat4] is kept as the sequence
    of operations applied to the identity, in the order of the calls:
    [glm::translate(m, v)] is [m * T(v)], and so on. *)
Module glm.
Record vec3 : Type := mkvec3 { x : float; y : float; z : float }.

Inductive op : Type :=
  | Translate (v : vec3)
  | Rotate (angle : float) (axis : vec3)
  | Scale (v : vec3).

Definition mat4 : Type := list op.
Definition identity : mat4 := [].
Definition translate (m : mat4) (v : vec3) : mat4 := m ++ [Translate v].
Definition rotate (m : mat4) (angle : float) (axis : vec3) : mat4 :=
    m ++ [Rotate angle axis].
Definition scale (m : mat4) (v : vec3) : mat4 := m ++ [Scale v].

  (** [degrees * 0.01745329251994329576923690768489f] *)
Definition radians (degrees : float) : float :=
    F32.mul degrees (S754_finite false 9370165 (-29)).
End glm.

(** One [glDrawArrays] call with the uniforms in force: the model matrix
    and the object colour. *)
Record DrawCommand : Type := mkDraw {
  model : glm.mat4;
  objectColor : glm.vec3
}.

(** ** The simulation model, as the renderer queries it *)

Inductive LightState : Type := GREEN | YELLOW | RED.

(** A connected road as a traffic light knows it: the handle passed back
    to [getEntryPoint] and [getLightState]. *)
Definition RoadRef : Type := nat.

Module TrafficLightJunction.
Record t : Type := mk {
    getConnectedRoads : list RoadRef;
    getEntryPoint : RoadRef -> Vector3.t;
    getLightState : RoadRef -> LightState
  }.
End TrafficLightJunction.

Module Junction.
  (** [asTrafficLight] is the result of
      [dynamic_cast<const TrafficLightJunction*>]. *)
Record t : Type := mk {
    getPosition : Vector3.t;
    getRadius : float;
    asTrafficLight : option TrafficLightJunction.t
  }.
End Junction.

Module Lane.
  (** Only equality of lane types is observed: the tag is the
      enumerator's value. *)
Record t : Type := mk { getType : Z }.
End Lane.

Module Color.
(** Channels are integers from 0 to 255. *)
Record t : Type := mk { r : Z; g : Z; b : Z }.
End Color.

Module Vehicle.
Record t : Type := mk {
    getCurrentLane : Z;
    getDistanceAlongRoad : float;
    getDimensions : Vector3.t;
    getColor : Color.t
  }.
End Vehicle.

Module RoadSegment.
  (** Pointers that may be null are options: the two junctions and the
      entries of the vehicle list. *)
Record t : Type := mk {
    getStartJunction : option Junction.t;
    getEndJunction : option Junction.t;
    getDimensions : Vector3.t;
    getLanes : list Lane.t;
    getLaneCount : Z;
    getVehicles : list (option Vehicle.t);
    getDirection : Vector3.t;
    getLanePositionAlongRoad : Z -> float -> Vector3.t
  }.
End RoadSegment.

Module SimulationModel.
Record t : Type := mk {
    getAllRoadSegments : list RoadSegment.t;
    getAllJunctions : list Junction.t
  }.
End SimulationModel.

(** ** Scene projection *)

Definition vec3_of (a b c : float) : glm.vec3 := glm.mkvec3 a b c.

(** [drawRectangle]: translate, scale, upload, draw. *)
Definition drawRectangle (position scale color : glm.vec3) : list DrawCommand :=
  let m := glm.identity in
  let m := glm.translate m position in
  let m := glm.scale m scale in
  [ mkDraw m color ].

Definition lightColorOf (state : LightState) : glm.vec3 :=
  match state with
  | GREEN => vec3_of (F32.lit 0 1) (F32.lit 1 1) (F32.lit 0 1)
  | YELLOW => vec3_of (F32.lit 1 1) (F32.lit 1 1) (F32.lit 0 1)
  | RED => vec3_of (F32.lit 1 1) (F32.lit 0 1) (F32.lit 0 1)
  end.

(** The body of the loop over the connected roads. *)
Definition renderTrafficLight (junction : TrafficLightJunction.t) (road : RoadRef)
  : list DrawCommand :=
  let entryPoint := TrafficLightJunction.getEntryPoint junction road in
  let state := TrafficLightJunction.getLightState junction road in
  let lightColor := lightColorOf state in
  let lightPos := vec3_of (Vector3.x entryPoint) (F32.lit 5 10) (Vector3.z entryPoint) in
  let lightScale := vec3_of (F32.lit 2 1) (F32.lit 2 1) (F32.lit 2 1) in
  drawRectangle lightPos lightScale lightColor.

Definition renderTrafficLights (junction : TrafficLightJunction.t) : list DrawCommand :=
  flat_map (renderTrafficLight junction) (TrafficLightJunction.getConnectedRoads junction).

Definition renderJunction (junction : Junction.t) : list DrawCommand :=
  let junctionPos := Junction.getPosition junction in
  let radius := Junction.getRadius junction in
  let position := vec3_of (Vector3.x junctionPos) (F32.lit 1 100) (Vector3.z junctionPos) in
  let scale := vec3_of (F32.mul radius (F32.of_Z 2)) (F32.lit 5 10)
                 (F32.mul radius (F32.of_Z 2)) in
  let trafficJunction := Junction.asTrafficLight junction in
  let color :=
    match trafficJunction with
    | Some _ => vec3_of (F32.lit 5 10) (F32.lit 5 10) (F32.lit 6 10)
    | None => vec3_of (F32.lit 4 10) (F32.lit 4 10) (F32.lit 4 10)
    end in
  drawRectangle position scale color
  ++ match trafficJunction with
     | Some tj => renderTrafficLights tj
     | None => []
     end.

Section Projection.

(** [Vector3::normalized] is defined outside this file, and so is what it
    returns for the zero vector. *)
Variable normalized : Vector3.t -> Vector3.t.
(** The [atan2] of the C library, at [float] as its arguments are.  No
    property below depends on the value of an angle. *)
Variable atan2 : float -> float -> float.

(** [atan2(roadDir.z, roadDir.x) * 180.0f / 3.14159f] *)
Definition angleOf (roadDir : Vector3.t) : float :=
  F32.div (F32.mul (atan2 (Vector3.z roadDir) (Vector3.x roadDir)) (F32.lit 180 1))
    (F32.lit 314159 100000).

Definition yAxis : glm.vec3 := vec3_of (F32.lit 0 1) (F32.lit 1 1) (F32.lit 0 1).

Definition renderVehicle (vehicle : Vehicle.t) (road : RoadSegment.t) : list DrawCommand :=
  let lane := Vehicle.getCurrentLane vehicle in
  let distance := Vehicle.getDistanceAlongRoad vehicle in
  let vehiclePos := RoadSegment.getLanePositionAlongRoad road lane distance in
  let vehicleDim := Vehicle.getDimensions vehicle in
  let vehicleColor := Vehicle.getColor vehicle in
  let roadDir := RoadSegment.getDirection road in
  let angle := angleOf roadDir in
  let m := glm.identity in
  let m := glm.translate m
             (vec3_of (Vector3.x vehiclePos) (F32.lit 2 100) (Vector3.z vehiclePos)) in
  let m := glm.rotate m (glm.radians angle) yAxis in
  let m := glm.scale m (vec3_of (Vector3.x vehicleDim) (F32.lit 1 1) (Vector3.z vehicleDim)) in
  let vehColor :=
    vec3_of (F32.div (F32.of_Z (Color.r vehicleColor)) (F32.lit 255 1))
            (F32.div (F32.of_Z (Color.g vehicleColor)) (F32.lit 255 1))
            (F32.div (F32.of_Z (Color.b vehicleColor)) (F32.lit 255 1)) in
  [ mkDraw m vehColor ].

(** The loop over [road.getVehicles()]: a null entry is passed over. *)
Fixpoint renderVehicles (vehicles : list (option Vehicle.t)) (road : RoadSegment.t)
  : list DrawCommand :=
  match vehicles with
  | [] => []
  | Some vehicle :: rest => renderVehicle vehicle road ++ renderVehicles rest road
  | None :: rest => renderVehicles rest road
  end.

(** The locals of [renderRoadSegment] that its later statements and
    loops read. *)
Record RoadFrame : Type := mkFrame {
  roadDir : Vector3.t;
  adjustedStartPos : Vector3.t;
  adjustedEndPos : Vector3.t;
  adjustedLength : float;
  roadCenter : glm.vec3;
  roadWidth : float;
  angle : float;
  laneWidth : float;
  minLineThickness : float;
  minLineWidth : float
}.

Definition lineColor : glm.vec3 := vec3_of (F32.lit 1 1) (F32.lit 1 1) (F32.lit 1 1).

(** solid white (shoulder) *)
Definition solidMarking (f : RoadFrame) (lanePosition : float) : DrawCommand :=
  let m := glm.identity in
  let m := glm.translate m (roadCenter f) in
  let m := glm.rotate m (glm.radians (angle f)) yAxis in
  let m := glm.translate m (vec3_of (F32.lit 0 1) (F32.lit 5 100) lanePosition) in
  let m := glm.scale m
             (vec3_of (adjustedLength f)
                (F32.max (F32.lit 2 10) (minLineThickness f))
                (F32.max (F32.lit 2 10) (minLineWidth f))) in
  mkDraw m lineColor.

Definition dashLength : float := F32.lit 3 1.
Definition gapLength : float := F32.lit 7 1.
Definition spacing : float := F32.add dashLength gapLength.

(** [-adjustedLength / 2 + dashIdx * spacing + dashLength / 2] *)
Definition dashOffsetOf (adjustedLength : float) (dashIdx : Z) : float :=
  F32.add
    (F32.add (F32.div (F32.opp adjustedLength) (F32.of_Z 2))
       (F32.mul (F32.of_Z dashIdx) spacing))
    (F32.div dashLength (F32.of_Z 2)).

(** One dash of a dotted white (regular) line. *)
Definition dashMarking (f : RoadFrame) (lanePosition : float) (dashIdx : Z) : DrawCommand :=
  let dashOffset := dashOffsetOf (adjustedLength f) dashIdx in
  let m := glm.identity in
  let m := glm.translate m (roadCenter f) in
  let m := glm.rotate m (glm.radians (angle f)) yAxis in
  let m := glm.translate m (vec3_of dashOffset (F32.lit 5 100) lanePosition) in
  let m := glm.scale m
             (vec3_of dashLength
                (F32.max (F32.lit 1 10) (minLineThickness f))
                (F32.max (F32.lit 5 10) (minLineWidth f))) in
  mkDraw m lineColor.

(** [static_cast<int>(adjustedLength / spacing) + 1] *)
Definition dashCountOf (adjustedLength : float) : option Z :=
  match float_to_int (F32.div adjustedLength spacing) with
  | Some n => int_checked (n + 1)
  | None => None
  end.

(** The values [dashIdx] takes in [for (dashIdx = 0; dashIdx < dashCount; dashIdx++)]. *)
Definition dashIndices (dashCount : Z) : list Z :=
  map Z.of_nat (seq 0 (Z.to_nat dashCount)).

Definition dashedMarking (f : RoadFrame) (lanePosition : float) : option (list DrawCommand) :=
  match dashCountOf (adjustedLength f) with
  | Some dashCount => Some (map (dashMarking f lanePosition) (dashIndices dashCount))
  | None => None
  end.

(** [-roadWidth / 2.0f + i * laneWidth], with [i] a [size_t]. *)
Definition lanePositionOf (f : RoadFrame) (i : Z) : float :=
  F32.add (F32.div (F32.opp (roadWidth f)) (F32.lit 2 1))
    (F32.mul (F32.of_Z i) (laneWidth f)).

(** The body of the loop over the lane boundaries, at index [i], with
    [lanes[i - 1]] and [lanes[i]]. *)
Definition laneBoundary (f : RoadFrame) (i : Z) (prev cur : Lane.t)
  : option (list DrawCommand) :=
  let isShoulderBoundary := negb (Lane.getType prev =? Lane.getType cur) in
  let lanePosition := lanePositionOf f i in
  if isShoulderBoundary then Some [ solidMarking f lanePosition ]
  else dashedMarking f lanePosition.

(** [for (size_t i = 1; i < laneCount; i++)], with [lanesFrom] the lanes
    from index [i - 1] on.  Reading [lanes[i]] past the end of the vector
    has no defined behaviour: [None]. *)
Fixpoint laneMarkings (f : RoadFrame) (bound i : Z) (lanesFrom : list Lane.t)
  : option (list DrawCommand) :=
  if i <? bound then
    match lanesFrom with
    | prev :: rest =>
        match rest with
        | cur :: _ =>
            match laneBoundary f i prev cur, laneMarkings f bound (i + 1) rest with
            | Some cmds, Some more => Some (cmds ++ more)
            | _, _ => None
            end
        | [] => None
        end
    | [] => None
    end
  else Some [].

Definition roadColor : glm.vec3 := vec3_of (F32.lit 3 10) (F32.lit 3 10) (F32.lit 3 10).

(** The straight-line computations of [renderRoadSegment] once both
    junctions are there.  ([fullLength] is computed and never read; it is
    left out.) *)
Definition roadFrame (vc : ViewController) (road : RoadSegment.t)
  (startJunction endJunction : Junction.t) : RoadFrame :=
  let zoomFactor :=
    F32.div (F32.sub (orthographicRight vc) (orthographicLeft vc)) (F32.lit 240 1) in
  let minLineThickness := F32.mul (F32.lit 2 10) zoomFactor in
  let minLineWidth := F32.mul (F32.lit 5 10) zoomFactor in
  (* get start/end positions *)
  let startPos := Junction.getPosition startJunction in
  let endPos := Junction.getPosition endJunction in
  let junctionRadius := Junction.getRadius startJunction in
  (* get direction and length *)
  let roadDir := normalized (Vector3.sub endPos startPos) in
  let adjustedStartPos := Vector3.add startPos (Vector3.scale roadDir junctionRadius) in
  let adjustedEndPos := Vector3.sub endPos (Vector3.scale roadDir junctionRadius) in
  let adjustedRoadDir := Vector3.sub adjustedEndPos adjustedStartPos in
  let adjustedLength := Vector3.length adjustedRoadDir in
  (* get center of road *)
  let roadCenter :=
    vec3_of
      (F32.div (F32.add (Vector3.x adjustedStartPos) (Vector3.x adjustedEndPos))
         (F32.lit 2 1))
      (F32.lit 1 100)
      (F32.div (F32.add (Vector3.z adjustedStartPos) (Vector3.z adjustedEndPos))
         (F32.lit 2 1)) in
  (* get road width *)
  let roadWidth := Vector3.z (RoadSegment.getDimensions road) in
  (* get orientation *)
  let angle := angleOf roadDir in
  let laneCount := RoadSegment.getLaneCount road in
  let laneWidth := F32.div roadWidth (F32.of_Z laneCount) in
  mkFrame roadDir adjustedStartPos adjustedEndPos adjustedLength roadCenter roadWidth
    angle laneWidth minLineThickness minLineWidth.

(** draw road *)
Definition roadBody (f : RoadFrame) : DrawCommand :=
  let m := glm.identity in
  let m := glm.translate m (roadCenter f) in
  let m := glm.rotate m (glm.radians (angle f)) yAxis in
  let m := glm.scale m (vec3_of (adjustedLength f) (F32.lit 1 1) (roadWidth f)) in
  mkDraw m roadColor.

(** The result is the list of draw commands issued, in order, or [None]
    where the C++ has no defined behaviour. *)
Definition renderRoadSegment (vc : ViewController) (road : RoadSegment.t)
  : option (list DrawCommand) :=
  match RoadSegment.getStartJunction road, RoadSegment.getEndJunction road with
  | Some startJunction, Some endJunction =>
      let f := roadFrame vc road startJunction endJunction in
      if F32.leb (adjustedLength f) (F32.lit 1 1000) then Some []
      else
        (* draw lane markings *)
        let lanes := RoadSegment.getLanes road in
        let laneCount := RoadSegment.getLaneCount road in
        match laneMarkings f (to_size_t laneCount) 1 lanes with
        | Some markings =>
            (* Draw vehicles *)
            Some (roadBody f :: markings
                    ++ renderVehicles (RoadSegment.getVehicles road) road)
        | None => None
        end
  (* return if no start or end junction *)
  | _, _ => Some []
  end.

Fixpoint renderRoadSegments (vc : ViewController) (roads : list RoadSegment.t)
  : option (list DrawCommand) :=
  match roads with
  | [] => Some []
  | road :: rest =>
      match renderRoadSegment vc road, renderRoadSegments vc rest with
      | Some cmds, Some more => Some (cmds ++ more)
      | _, _ => None
      end
  end.

(** The draw calls of one frame: roads (with their markings and
    vehicles), then junctions (with their lights).  Without a model
    nothing is drawn.  The view and the projection that are uploaded
    before the first draw call are [renderUniforms] below. *)
Definition render (vc : ViewController) (simulationModel : option SimulationModel.t)
  : option (list DrawCommand) :=
  match simulationModel with
  | None => Some []
  | Some sim =>
      match renderRoadSegments vc (SimulationModel.getAllRoadSegments sim) with
      | Some roadCmds =>
          Some (roadCmds ++ flat_map renderJunction (SimulationModel.getAllJunctions sim))
      | None => None
      end
  end.

End Projection.

(** ** Reading floats and draw commands *)

Definition is_finite (x : float) : bool :=
  match x with
  | S754_zero _ | S754_finite _ _ _ => true
  | _ => false
  end.

Definition is_zero (x : float) : bool :=
  match x with
  | S754_zero _ => true
  | _ => false
  end.

(** Zero, a positive number or plus infinity. *)
Definition nonneg (x : float) : Prop :=
  match x with
  | S754_zero _ | S754_finite false _ _ | S754_infinity false => True
  | _ => False
  end.

(** Zero, a negative number or minus infinity. *)
Definition nonpos (x : float) : Prop :=
  match x with
  | S754_zero _ | S754_finite true _ _ | S754_infinity true => True
  | _ => False
  end.


(** Order of two positive floats of one format by exponent, then
    mantissa: [(m, e)] is at least [(mc, ec)]. *)
Definition ge_mant (mc : positive) (ec : Z) (m : positive) (e : Z) : Prop :=
  ec < e \/ (ec = e /\ (mc <= m)%positive).

(** [mc * 2^ec <= mx * 2^ex], over a common exponent [k]. *)
Definition val_le (mc ec mx ex : Z) : Prop :=
  exists k, k <= ec /\ k <= ex /\ mc * 2 ^ (ec - k) <= mx * 2 ^ (ex - k).

(** Plus infinity, or a float of the format that is at least [(mc, ec)]. *)
Definition at_least (prec emax : Z) (mc : positive) (ec : Z) (x : spec_float) : Prop :=
  x = S754_infinity false \/
  exists m e, x = S754_finite false m e /\
    canonical_mantissa prec emax m e = true /\ ge_mant mc ec m e.

(** The mantissa of one in a format of [prec] bits; its exponent is
    [1 - prec]. *)
Definition one_mantissa (prec : Z) : positive := Pos.iter xO xH (Z.to_pos (prec - 1)).



Definition is_translate (o : glm.op) : bool :=
  match o with
  | glm.Translate _ => true
  | _ => false
  end.

(** The translation of a model matrix [T(v) * M] where [M] holds no
    translation (rotations and scales leave the last column alone). *)
Definition translationOf (c : DrawCommand) : option glm.vec3 :=
  match model c with
  | glm.Translate v :: rest => if existsb is_translate rest then None else Some v
  | _ => None
  end.


Definition scaleOf (c : DrawCommand) : option glm.vec3 :=
  match rev (model c) with
  | glm.Scale v :: _ => Some v
  | _ => None
  end.

(** The non-null entries of a vehicle list, in order. *)
Fixpoint presentVehicles (vehicles : list (option Vehicle.t)) : list Vehicle.t :=
  match vehicles with
  | [] => []
  | Some v :: rest => v :: presentVehicles rest
  | None :: rest => presentVehicles rest
  end.

(** ** Camera invariants *)

(** The view box holds the origin: [left <= 0 <= right] and
    [bottom <= 0 <= top]. *)
Definition straddles (vc : ViewController) : Prop :=
  F32.leb (orthographicLeft vc) (F32.of_Z 0) = true /\
  F32.leb (F32.of_Z 0) (orthographicRight vc) = true /\
  F32.leb (orthographicBottom vc) (F32.of_Z 0) = true /\
  F32.leb (F32.of_Z 0) (orthographicTop vc) = true.

(** No bound is beyond its clamp limit. *)
Definition withinLimits (vc : ViewController) : Prop :=
  F32.leb (F32.opp (F32.lit 3200 1)) (orthographicLeft vc) = true /\
  F32.leb (orthographicRight vc) (F32.lit 3200 1) = true /\
  F32.leb (F32.opp (F32.lit 1800 1)) (orthographicBottom vc) = true /\
  F32.leb (orthographicTop vc) (F32.lit 1800 1) = true.

(** The same, as the clamp writes it: never [left < -3200], and so on.
    A NaN bound passes. *)
Definition notBeyondLimits (vc : ViewController) : Prop :=
  F32.ltb (orthographicLeft vc) (F32.opp (F32.lit 3200 1)) = false /\
  F32.ltb (F32.lit 3200 1) (orthographicRight vc) = false /\
  F32.ltb (orthographicBottom vc) (F32.opp (F32.lit 1800 1)) = false /\
  F32.ltb (F32.lit 1800 1) (orthographicTop vc) = false.

(** A delta whose zoom factor is a positive finite number. *)
Definition properZoom (yOffset : double) : Prop :=
  F32.ltb (F32.of_Z 0) (zoomFactorOf yOffset) = true /\
  is_finite (zoomFactorOf yOffset) = true.

(** A zoom-out delta. *)
Definition zoomOut (yOffset : double) : Prop := F64.leb yOffset (F64.of_Z 0) = true.

(** ** Updates of the model used to compare two renderings *)

Definition withRadius (r : float) (j : Junction.t) : Junction.t :=
  Junction.mk (Junction.getPosition j) r (Junction.asTrafficLight j).

Definition withEndRadius (r : float) (road : RoadSegment.t) : RoadSegment.t :=
  RoadSegment.mk
    (RoadSegment.getStartJunction road)
    (option_map (withRadius r) (RoadSegment.getEndJunction road))
    (RoadSegment.getDimensions road) (RoadSegment.getLanes road)
    (RoadSegment.getLaneCount road) (RoadSegment.getVehicles road)
    (RoadSegment.getDirection road) (RoadSegment.getLanePositionAlongRoad road).

Definition withVehicles (vehicles : list (option Vehicle.t)) (road : RoadSegment.t)
  : RoadSegment.t :=
  RoadSegment.mk
    (RoadSegment.getStartJunction road) (RoadSegment.getEndJunction road)
    (RoadSegment.getDimensions road) (RoadSegment.getLanes road)
    (RoadSegment.getLaneCount road) vehicles
    (RoadSegment.getDirection road) (RoadSegment.getLanePositionAlongRoad road).

(** ** Sample scenes *)

Definition vector3_of_Z (a b c : Z) : Vector3.t :=
  Vector3.mk (F32.of_Z a) (F32.of_Z b) (F32.of_Z c).

(** A normalisation that leaves a vector of length zero as it is. *)
Definition normalized_guarded (v : Vector3.t) : Vector3.t :=
  let len := Vector3.length v in
  if F32.ltb (F32.of_Z 0) len
  then Vector3.mk (F32.div (Vector3.x v) len) (F32.div (Vector3.y v) len)
         (F32.div (Vector3.z v) len)
  else v.

(** A normalisation that divides by the length whatever it is. *)
Definition normalized_unguarded (v : Vector3.t) : Vector3.t :=
  let len := Vector3.length v in
  Vector3.mk (F32.div (Vector3.x v) len) (F32.div (Vector3.y v) len)
    (F32.div (Vector3.z v) len).

(** [atan2] on the positive x axis, where the sample roads lie. *)
Definition atan2_east (z x : float) : float := S754_zero false.

Definition viewDefault : ViewController :=
  mkViewController (F32.of_Z (-120)) (F32.of_Z 120) (F32.of_Z (-68)) (F32.of_Z 68).

(** The bounds at the clamp limits. *)
Definition viewPinned : ViewController :=
  mkViewController (F32.opp (F32.lit 3200 1)) (F32.lit 3200 1)
    (F32.opp (F32.lit 1800 1)) (F32.lit 1800 1).

Definition viewSmall : ViewController :=
  mkViewController (F32.of_Z (-100)) (F32.of_Z 100) (F32.of_Z (-50)) (F32.of_Z 50).

(** Bounds that start outside the clamp limits. *)
Definition viewWide : ViewController :=
  mkViewController (F32.of_Z 5000) (F32.of_Z 6000) (F32.of_Z (-50)) (F32.of_Z 50).

(** Bounds one step away from zero: the smallest subnormal numbers. *)
Definition viewTiny : ViewController :=
  mkViewController (S754_finite true 1 (-149)) (S754_finite false 1 (-149))
    (S754_finite true 1 (-149)) (S754_finite false 1 (-149)).

(** Zoom in by one notch, out by three, in by six. *)
Definition sampleDeltas : list double := [F64.of_Z 1; F64.of_Z (-3); F64.of_Z 6].

Definition junctionWest : Junction.t :=
  Junction.mk (vector3_of_Z 0 0 0) (F32.of_Z 0) None.
Definition junctionEast : Junction.t :=
  Junction.mk (vector3_of_Z 103 0 0) (F32.of_Z 5) None.

Definition car : Z := 0.
Definition bike : Z := 1.

Definition sampleVehicle : Vehicle.t :=
  Vehicle.mk 0 (F32.of_Z 50) (vector3_of_Z 4 1 2) (Color.mk 255 0 0).

(** A road of adjusted length 103 with lanes car, car, bike, a null
    vehicle entry and one vehicle in lane 0 at distance 50, placed by the
    road at (12, 0, 34). *)
Definition sampleRoad : RoadSegment.t :=
  RoadSegment.mk (Some junctionWest) (Some junctionEast) (vector3_of_Z 103 0 9)
    [Lane.mk car; Lane.mk car; Lane.mk bike] 3
    [None; Some sampleVehicle] (vector3_of_Z 1 0 0)
    (fun _ _ => vector3_of_Z 12 0 34).

(** Both ends on one junction position. *)
Definition pointRoad : RoadSegment.t :=
  RoadSegment.mk (Some junctionEast) (Some junctionEast) (vector3_of_Z 0 0 9)
    [Lane.mk car; Lane.mk car] 2 [Some sampleVehicle] (vector3_of_Z 1 0 0)
    (fun _ _ => vector3_of_Z 12 0 34).

Definition danglingRoad : RoadSegment.t :=
  RoadSegment.mk None (Some junctionEast) (vector3_of_Z 103 0 9)
    [Lane.mk car; Lane.mk car] 2 [Some sampleVehicle] (vector3_of_Z 1 0 0)
    (fun _ _ => vector3_of_Z 12 0 34).









(** The locals of [renderRoadSegment] on [sampleRoad], with a guarded
    normalisation and the default view. *)
Definition sampleFrame : RoadFrame :=
  roadFrame normalized_guarded atan2_east viewDefault sampleRoad junctionWest junctionEast.

Definition sampleLights : TrafficLightJunction.t :=
  TrafficLightJunction.mk [7%nat] (fun _ => vector3_of_Z 98 0 0) (fun _ => RED).

Definition junctionLit : Junction.t :=
  Junction.mk (vector3_of_Z 103 0 0) (F32.of_Z 5) (Some sampleLights).

Definition sampleScene : SimulationModel.t :=
  SimulationModel.mk [sampleRoad] [junctionWest; junctionLit].

(** ** The camera vectors and the input handlers *)

(** The object as the input handlers see it: the orthographic bounds
    (above), the three camera vectors, and whether the object has asked
    its window to close ([glfwSetWindowShouldClose(window, true)]; the
    flag GLFW keeps for the window can also be set from outside this
    file). *)
Record Viewer : Type := mkViewer {
  ortho : ViewController;
  cameraPos : glm.vec3;
  cameraTarget : glm.vec3;
  cameraUp : glm.vec3;
  windowShouldClose : bool
}.

(** set up camera: the last three statements of the constructor.  The
    bounds get their first values where the class is declared, outside
    this file. *)
Definition setUpCamera (initialBounds : ViewController) : Viewer :=
  mkViewer initialBounds
    (vec3_of (F32.lit 0 1) (F32.lit 100 1) (F32.lit 0 1))
    (vec3_of (F32.lit 0 1) (F32.lit 0 1) (F32.lit 0 1))
    (vec3_of (F32.lit 0 1) (F32.lit 0 1) (F32.opp (F32.lit 1 1)))
    false.

(** Assignment to one component of a [glm::vec3]. *)
Definition set_x (v : glm.vec3) (a : float) : glm.vec3 := glm.mkvec3 a (glm.y v) (glm.z v).
Definition set_y (v : glm.vec3) (a : float) : glm.vec3 := glm.mkvec3 (glm.x v) a (glm.z v).
Definition set_z (v : glm.vec3) (a : float) : glm.vec3 := glm.mkvec3 (glm.x v) (glm.y v) a.

(** [cameraTarget.x = cameraPos.x; cameraTarget.z = cameraPos.z;
    cameraTarget.y = 0.0f;] *)
Definition lockTarget (pos target : glm.vec3) : glm.vec3 :=
  let target := set_x target (glm.x pos) in
  let target := set_z target (glm.z pos) in
  set_y target (F32.lit 0 1).

(** What [glfwGetKey(window, key) == GLFW_PRESS] gives, after
    [glfwPollEvents], for the five keys that are read. *)
Record Keys : Type := mkKeys {
  keyEscape : bool;
  keyW : bool;
  keyA : bool;
  keyS : bool;
  keyD : bool
}.

(** One [if (glfwGetKey(...) == GLFW_PRESS) { cameraPos.c op= cameraSpeed;
    cameraTarget.c op= cameraSpeed; }] *)
Definition whenPressed (pressed : bool) (update : glm.vec3 -> glm.vec3)
  (camera : glm.vec3 * glm.vec3) : glm.vec3 * glm.vec3 :=
  if pressed then (update (fst camera), update (snd camera)) else camera.

(** [scrollCallBack] reaches the object through the static
    [currentInstance], which may be null; [xOffset] is not read. *)
Definition scrollCallBack (currentInstance : option Viewer) (xOffset yOffset : double)
  : option Viewer :=
  match currentInstance with
  | Some v =>
      Some (mkViewer (processScroll yOffset (ortho v)) (cameraPos v) (cameraTarget v)
              (cameraUp v) (windowShouldClose v))
  | None => None
  end.

(** [glfwPollEvents()], as far as this file takes part in it.  The only
    callback the constructor registers is [scrollCallBack], and GLFW runs
    it inside this call, once for each scroll event waiting in its queue,
    in their order; an event is its pair of offsets.  The object is the
    current instance, as its constructor leaves it. *)
Definition glfwPollEvents (pending : list (double * double)) (v : Viewer) : Viewer :=
  fold_left
    (fun v event =>
       match scrollCallBack (Some v) (fst event) (snd event) with
       | Some v' => v'
       | None => v
       end)
    pending v.

(** The result of the call and the object after it.  [pending] is the
    queue that [glfwPollEvents] empties first; [keys] is what the keyboard
    reads after it. *)
Definition processEvents (pending : list (double * double)) (keys : Keys) (v : Viewer)
  : bool * Viewer :=
  let v := glfwPollEvents pending v in
  if keyEscape keys then
    (false, mkViewer (ortho v) (cameraPos v) (cameraTarget v) (cameraUp v) true)
  else
    let baseCameraSpeed := F32.lit 1 1 in
    let zoomLevel := getCurrentZoomLevel (ortho v) in
    let cameraSpeed := F32.mul baseCameraSpeed zoomLevel in
    let camera := (cameraPos v, cameraTarget v) in
    let camera :=
      whenPressed (keyW keys) (fun p => set_z p (F32.sub (glm.z p) cameraSpeed)) camera in
    let camera :=
      whenPressed (keyA keys) (fun p => set_x p (F32.sub (glm.x p) cameraSpeed)) camera in
    let camera :=
      whenPressed (keyS keys) (fun p => set_z p (F32.add (glm.z p) cameraSpeed)) camera in
    let camera :=
      whenPressed (keyD keys) (fun p => set_x p (F32.add (glm.x p) cameraSpeed)) camera in
    (true,
     mkViewer (ortho v) (fst camera) (lockTarget (fst camera) (snd camera)) (cameraUp v)
       (windowShouldClose v)).

Definition moveCamera (deltaX deltaY : float) (v : Viewer) : Viewer :=
  let zoomLevel := getCurrentZoomLevel (ortho v) in
  let pos := cameraPos v in
  let pos := set_x pos (F32.add (glm.x pos) (F32.mul deltaX zoomLevel)) in
  let pos := set_z pos (F32.add (glm.z pos) (F32.mul deltaY zoomLevel)) in
  mkViewer (ortho v) pos (lockTarget pos (cameraTarget v)) (cameraUp v)
    (windowShouldClose v).

(** The calls that reach a constructed object from outside: a scroll
    event handed to the callback on its own (by an event poll made
    elsewhere in the program), a pan, and [processEvents] with the scroll
    events waiting when it polls and the keys it then reads. *)
Inductive Call : Type :=
  | Scrolled (xOffset yOffset : double)
  | MoveCamera (deltaX deltaY : float)
  | ProcessEvents (pending : list (double * double)) (keys : Keys).

Definition call (v : Viewer) (c : Call) : Viewer :=
  match c with
  | Scrolled xOffset yOffset =>
      match scrollCallBack (Some v) xOffset yOffset with
      | Some v' => v'
      | None => v
      end
  | MoveCamera deltaX deltaY => moveCamera deltaX deltaY v
  | ProcessEvents pending keys => snd (processEvents pending keys v)
  end.

Definition calls (cs : list Call) (v : Viewer) : Viewer := fold_left call cs v.

(** The vertical deltas of the scroll events of a run of calls, in the
    order the callback gets them: those handed over on their own and those
    dispatched inside the polls of [processEvents]. *)
Definition scrollDeltas (cs : list Call) : list double :=
  flat_map (fun c =>
              match c with
              | Scrolled _ yOffset => [yOffset]
              | MoveCamera _ _ => []
              | ProcessEvents pending _ => map snd pending
              end) cs.

(** A scroll event handed to the callback on its own. *)
Definition isScrolled (c : Call) : bool :=
  match c with
  | Scrolled _ _ => true
  | _ => false
  end.

(** A call of [processEvents] that saw Escape held. *)
Definition escapePolled (c : Call) : bool :=
  match c with
  | ProcessEvents _ keys => keyEscape keys
  | _ => false
  end.

(** The camera looks straight down from where it is. *)
Definition lookingDown (v : Viewer) : Prop :=
  cameraTarget v
  = vec3_of (glm.x (cameraPos v)) (F32.lit 0 1) (glm.z (cameraPos v)) /\
  cameraUp v = vec3_of (F32.lit 0 1) (F32.lit 0 1) (F32.opp (F32.lit 1 1)).

(** ** The view and projection of a frame *)







(** ** More camera predicates *)

(** A coordinate that is a finite number of the format. *)
Definition steady (a : float) : Prop :=
  valid_binary F32.prec F32.emax a = true /\ is_finite a = true.

(** Every bound is a number of the format, an infinity or a NaN as the
    hardware has them. *)
Definition validView (vc : ViewController) : Prop :=
  valid_binary F32.prec F32.emax (orthographicLeft vc) = true /\
  valid_binary F32.prec F32.emax (orthographicRight vc) = true /\
  valid_binary F32.prec F32.emax (orthographicBottom vc) = true /\
  valid_binary F32.prec F32.emax (orthographicTop vc) = true.

(** The origin is inside the view box: [left < 0 < right] and
    [bottom < 0 < top]. *)
Definition strictlyStraddles (vc : ViewController) : Prop :=
  F32.ltb (orthographicLeft vc) (F32.of_Z 0) = true /\
  F32.ltb (F32.of_Z 0) (orthographicRight vc) = true /\
  F32.ltb (orthographicBottom vc) (F32.of_Z 0) = true /\
  F32.ltb (F32.of_Z 0) (orthographicTop vc) = true.

(** The view box is centred on the origin. *)
Definition centred (vc : ViewController) : Prop :=
  orthographicLeft vc = F32.opp (orthographicRight vc) /\
  orthographicBottom vc = F32.opp (orthographicTop vc).

(** All four bounds NaN. *)
Definition viewNaN : ViewController :=
  mkViewController S754_nan S754_nan S754_nan S754_nan.

(** A zoom-in delta. *)
Definition zoomIn (yOffset : double) : Prop := F64.leb (F64.of_Z 0) yOffset = true.

(** The second view box is inside the first, edge by edge. *)
Definition encloses (outer inner : ViewController) : Prop :=
  F32.leb (orthographicLeft outer) (orthographicLeft inner) = true /\
  F32.leb (orthographicRight inner) (orthographicRight outer) = true /\
  F32.leb (orthographicBottom outer) (orthographicBottom inner) = true /\
  F32.leb (orthographicTop inner) (orthographicTop outer) = true.

(** A number that is not positive, or a positive float of the format that
    is at most [(mc, ec)]. *)
Definition at_most (prec emax : Z) (mc : positive) (ec : Z) (x : spec_float) : Prop :=
  nonpos x \/
  exists m e, x = S754_finite false m e /\
    canonical_mantissa prec emax m e = true /\ ge_mant m e mc ec.

(** ** Reading a frame *)

(** The road's own part of a model matrix: its first two operations. *)
Definition placementOf (c : DrawCommand) : list glm.op := firstn 2 (model c).



Definition withRoads (roads : list RoadSegment.t) (sim : SimulationModel.t)
  : SimulationModel.t :=
  SimulationModel.mk roads (SimulationModel.getAllJunctions sim).

Definition withLanes (lanes : list Lane.t) (road : RoadSegment.t) : RoadSegment.t :=
  RoadSegment.mk
    (RoadSegment.getStartJunction road) (RoadSegment.getEndJunction road)
    (RoadSegment.getDimensions road) lanes
    (RoadSegment.getLaneCount road) (RoadSegment.getVehicles road)
    (RoadSegment.getDirection road) (RoadSegment.getLanePositionAlongRoad road).

(** The colour channels from 0 to 255. *)
Definition channels : list Z := map Z.of_nat (seq 0 256).

(** [channel / 255.0f] *)
Definition channelOf (channel : Z) : float := F32.div (F32.of_Z channel) (F32.lit 255 1).

(** Each channel with its float. *)
Definition channelTable : list (Z * float) := map (fun c => (c, channelOf c)) channels.

(** Every float of the table is between 0 and 1, and a larger channel
    has a larger float. *)
Definition channelsOrdered : bool :=
  forallb (fun p =>
             F32.leb (F32.of_Z 0) (snd p) && F32.leb (snd p) (F32.of_Z 1)
             && forallb (fun q => negb (fst p <? fst q) || F32.ltb (snd p) (snd q))
                  channelTable)
    channelTable.

(** ** More samples *)

(** Escape held down together with W and D. *)
Definition keysEscapeWD : Keys := mkKeys true true false false true.

(** W held alone. *)
Definition keysW : Keys := mkKeys false true false false false.

(** W and A held. *)
Definition keysWA : Keys := mkKeys false true true false false.

(** Two scroll events waiting at a poll: a zoom by delta 20, whose zoom
    factor is -1, then one by delta -1. *)
Definition sampleQueue : list (double * double) :=
  [(F64.of_Z 0, F64.of_Z 20); (F64.of_Z 0, F64.of_Z (-1))].

(** One scroll event waiting at a poll, zooming out by delta -1. *)
Definition zoomOutQueue : list (double * double) := [(F64.of_Z 0, F64.of_Z (-1))].


(** A road that says it has four lanes and holds two. *)
Definition shortLanesRoad : RoadSegment.t :=
  RoadSegment.mk (Some junctionWest) (Some junctionEast) (vector3_of_Z 103 0 9)
    [Lane.mk car; Lane.mk car] 4 [Some sampleVehicle] (vector3_of_Z 1 0 0)
    (fun _ _ => vector3_of_Z 12 0 34).

(** A road of one lane. *)
Definition oneLaneRoad : RoadSegment.t :=
  RoadSegment.mk (Some junctionWest) (Some junctionEast) (vector3_of_Z 103 0 3)
    [Lane.mk car] 1 [None; Some sampleVehicle] (vector3_of_Z 1 0 0)
    (fun _ _ => vector3_of_Z 12 0 34).

(** * Properties *)

(** ** Rounding to nearest in [SpecFloat] *)

Lemma digits2_pos_size p : digits2_pos p = Pos.size p.
Proof. induction p; simpl; congruence. Qed.

Lemma Zdigits2_pos_bounds p :
  2 ^ (Zpos (digits2_pos p) - 1) <= Zpos p < 2 ^ Zpos (digits2_pos p).
Proof.
  rewrite digits2_pos_size.
  pose proof (Pos.size_gt p) as Hgt. pose proof (Pos.size_le p) as Hle.
  apply Pos2Z.pos_lt_pos in Hgt. apply Pos2Z.pos_le_pos in Hle.
  rewrite Pos2Z.inj_pow in Hgt, Hle.
  replace (Zpos (Pos.size p)) with (1 + (Zpos (Pos.size p) - 1)) in Hle at 1 by lia.
  rewrite Z.pow_add_r in Hle by lia.
  change (2 ^ 1) with 2 in Hle. lia.
Qed.

Lemma Zdigits2_nonneg m : 0 <= m -> 0 <= Zdigits2 m.
Proof. destruct m; simpl; lia. Qed.

Lemma Zdigits2_bounds m :
  0 < m -> 2 ^ (Zdigits2 m - 1) <= m < 2 ^ Zdigits2 m.
Proof. destruct m as [|p|p]; try lia. intros _. apply Zdigits2_pos_bounds. Qed.

Lemma Zdigits2_unique m k :
  2 ^ (k - 1) <= m < 2 ^ k -> 0 < k -> Zdigits2 m = k.
Proof.
  intros [Hlo Hhi] Hk.
  assert (0 < m) by (pose proof (Z.pow_pos_nonneg 2 (k - 1)); lia).
  destruct (Zdigits2_bounds m H) as [Dlo Dhi].
  assert (0 < Zdigits2 m) by (destruct m; simpl in *; lia).
  destruct (Z.lt_trichotomy (Zdigits2 m) k) as [Hlt | [Heq | Hgt]]; [ | exact Heq | ].
  - assert (2 ^ Zdigits2 m <= 2 ^ (k - 1)) by (apply Z.pow_le_mono_r; lia). lia.
  - assert (2 ^ k <= 2 ^ (Zdigits2 m - 1)) by (apply Z.pow_le_mono_r; lia). lia.
Qed.

Lemma iter_pos_nat {A} (f : A -> A) p x :
  iter_pos f p x = Nat.iter (Pos.to_nat p) f x.
Proof.
  revert x. induction p as [p IH | p IH | ]; intros x; cbn [iter_pos].
  - rewrite !IH, Pos2Nat.inj_xI.
    replace (S (2 * Pos.to_nat p)) with (S (Pos.to_nat p + Pos.to_nat p)) by lia.
    rewrite Nat.iter_succ_r, Nat.iter_add. reflexivity.
  - rewrite !IH, Pos2Nat.inj_xO.
    replace (2 * Pos.to_nat p)%nat with (Pos.to_nat p + Pos.to_nat p)%nat by lia.
    rewrite Nat.iter_add. reflexivity.
  - reflexivity.
Qed.

Lemma shr_1_m mrs : 0 <= shr_m mrs -> shr_m (shr_1 mrs) = shr_m mrs / 2.
Proof.
  destruct mrs as [m r s]. simpl. intros Hm. rewrite <- Z.div2_div.
  destruct m as [| [p | p | ] | p]; simpl; try reflexivity. lia.
Qed.

Lemma shr_nat_m n mrs :
  0 <= shr_m mrs -> shr_m (Nat.iter n shr_1 mrs) = shr_m mrs / 2 ^ Z.of_nat n.
Proof.
  intros Hm. induction n as [| n IH].
  - simpl. rewrite Z.div_1_r. reflexivity.
  - rewrite Nat.iter_succ, shr_1_m, IH.
    + rewrite Nat2Z.inj_succ, Z.pow_succ_r by lia.
      rewrite Z.div_div by (try apply Z.pow_pos_nonneg; lia).
      f_equal. lia.
    + rewrite IH. apply Z.div_pos; [lia | apply Z.pow_pos_nonneg; lia].
Qed.

Lemma shr_spec mrs e n :
  0 <= shr_m mrs ->
  shr_m (fst (shr mrs e n)) = shr_m mrs / 2 ^ Z.max 0 n /\
  snd (shr mrs e n) = e + Z.max 0 n.
Proof.
  intros Hm. destruct n as [| p | p]; simpl.
  - rewrite Z.div_1_r. split; [reflexivity | lia].
  - rewrite iter_pos_nat, shr_nat_m, positive_nat_Z by assumption. split; reflexivity.
  - rewrite Z.div_1_r. split; [reflexivity | lia].
Qed.

Lemma shr_record_of_loc_m m l : shr_m (shr_record_of_loc m l) = m.
Proof. destruct l as [| []]; reflexivity. Qed.

Lemma round_nearest_even_bounds m l :
  m <= round_nearest_even m l <= m + 1.
Proof. destruct l as [| []]; simpl; try lia. destruct (Z.even m); lia. Qed.

(** The format: [prec] bits of mantissa, exponents below [emax]. *)
Section Format.
Variables prec emax : Z.
Hypothesis prec_pos : 0 < prec.

Lemma fexp_ge_emin e : emin prec emax <= fexp prec emax e.
Proof. unfold fexp. lia. Qed.

Lemma fexp_mono e1 e2 : e1 <= e2 -> fexp prec emax e1 <= fexp prec emax e2.
Proof. unfold fexp. lia. Qed.

Lemma shr_fexp_spec m e l :
  0 <= m ->
  let n := Z.max 0 (fexp prec emax (Zdigits2 m + e) - e) in
  shr_m (fst (shr_fexp prec emax m e l)) = m / 2 ^ n /\
  snd (shr_fexp prec emax m e l) = e + n.
Proof.
  intros Hm n. unfold shr_fexp.
  pose proof (shr_spec (shr_record_of_loc m l) e (fexp prec emax (Zdigits2 m + e) - e)) as H.
  rewrite shr_record_of_loc_m in H. apply H. exact Hm.
Qed.

(** Sign and shape of a rounded non-negative mantissa. *)
Lemma binary_round_aux_sign s mx ex lx :
  0 <= mx ->
  match binary_round_aux prec emax s mx ex lx with
  | S754_zero s' | S754_infinity s' | S754_finite s' _ _ => s' = s
  | S754_nan => False
  end.
Proof.
  intros Hm. unfold binary_round_aux.
  destruct (shr_fexp prec emax mx ex lx) as [mrs1 e1] eqn:H1.
  pose proof (shr_fexp_spec mx ex lx Hm) as [Hm1 _]. rewrite H1 in Hm1. simpl in Hm1.
  set (m2 := round_nearest_even (shr_m mrs1) (loc_of_shr_record mrs1)).
  assert (0 <= m2) as Hm2.
  { pose proof (round_nearest_even_bounds (shr_m mrs1) (loc_of_shr_record mrs1)).
    assert (0 <= shr_m mrs1) by (rewrite Hm1; apply Z.div_pos; [lia | apply Z.pow_pos_nonneg; lia]).
    subst m2. lia. }
  destruct (shr_fexp prec emax m2 e1 loc_Exact) as [mrs3 e3] eqn:H3.
  pose proof (shr_fexp_spec m2 e1 loc_Exact Hm2) as [Hm3 _]. rewrite H3 in Hm3. simpl in Hm3.
  assert (0 <= shr_m mrs3) by (rewrite Hm3; apply Z.div_pos; [lia | apply Z.pow_pos_nonneg; lia]).
  destruct (shr_m mrs3); try reflexivity; try lia.
  destruct (e3 <=? emax - prec); reflexivity.
Qed.


Lemma pow2_pos k : 0 <= k -> 0 < 2 ^ k.
Proof. intros. apply Z.pow_pos_nonneg; lia. Qed.

(** A larger value has at least as many digits. *)
Lemma val_le_digits (mc : positive) ec mx ex :
  0 < mx -> val_le (Zpos mc) ec mx ex ->
  Zpos (digits2_pos mc) + ec <= Zdigits2 mx + ex.
Proof.
  intros Hmx (lo & Hlo1 & Hlo2 & Hle).
  destruct (Zdigits2_pos_bounds mc) as [Hclo _].
  destruct (Zdigits2_bounds mx Hmx) as [_ Hxhi].
  assert (0 < Zdigits2 mx) as HD by (destruct mx; simpl in *; lia).
  set (Dc := Zpos (digits2_pos mc)) in *. set (D := Zdigits2 mx) in *.
  destruct (Z_le_gt_dec (Dc + ec) (D + ex)) as [Hok | Hbad]; [exact Hok | exfalso].
  assert (0 <= ec - lo /\ 0 <= ex - lo) as [Hec Hex] by lia.
  assert (mx * 2 ^ (ex - lo) < 2 ^ D * 2 ^ (ex - lo)) as H1.
  { apply Z.mul_lt_mono_pos_r; [apply pow2_pos; lia | lia]. }
  rewrite <- Z.pow_add_r in H1 by lia.
  assert (2 ^ (Dc - 1) * 2 ^ (ec - lo) <= Zpos mc * 2 ^ (ec - lo)) as H2.
  { apply Z.mul_le_mono_nonneg_r; [pose proof (pow2_pos (ec - lo)); lia | lia]. }
  rewrite <- Z.pow_add_r in H2 by (subst Dc; lia).
  assert (2 ^ (D + (ex - lo)) <= 2 ^ (Dc - 1 + (ec - lo))) as H3.
  { apply Z.pow_le_mono_r; lia. }
  lia.
Qed.

Lemma round_result_lower s m3 e3 (mc : positive) ec :
  0 < m3 ->
  fexp prec emax (Zdigits2 m3 + e3) = e3 ->
  ec < e3 \/ (ec = e3 /\ Zpos mc <= m3) ->
  match m3 with
  | 0 => S754_zero s
  | Zpos m => if e3 <=? emax - prec then S754_finite s m e3 else S754_infinity s
  | Zneg _ => S754_nan
  end = S754_infinity s \/
  exists m e,
    match m3 with
    | 0 => S754_zero s
    | Zpos m => if e3 <=? emax - prec then S754_finite s m e3 else S754_infinity s
    | Zneg _ => S754_nan
    end = S754_finite s m e /\
    canonical_mantissa prec emax m e = true /\ ge_mant mc ec m e.
Proof.
  intros Hpos Hcan Hge. destruct m3 as [| p | p]; try lia.
  destruct (e3 <=? emax - prec); [right | left; reflexivity].
  exists p, e3. split; [reflexivity | split].
  - unfold canonical_mantissa. apply Z.eqb_eq. exact Hcan.
  - unfold ge_mant. destruct Hge as [H | [H1 H2]]; [left; exact H | right].
    split; [exact H1 | ]. apply Pos2Z.pos_le_pos. exact H2.
Qed.

Lemma binary_round_aux_lower s mx ex lx (mc : positive) ec :
  0 < mx ->
  0 <= fexp prec emax (Zdigits2 mx + ex) - ex ->
  canonical_mantissa prec emax mc ec = true ->
  val_le (Zpos mc) ec mx ex ->
  binary_round_aux prec emax s mx ex lx = S754_infinity s \/
  exists m e, binary_round_aux prec emax s mx ex lx = S754_finite s m e /\
    canonical_mantissa prec emax m e = true /\ ge_mant mc ec m e.
Proof.
  intros Hmx Hn Hc Hle.
  pose proof (val_le_digits mc ec mx ex Hmx Hle) as Hdig.
  unfold canonical_mantissa in Hc. apply Z.eqb_eq in Hc.
  pose proof (fexp_mono _ _ Hdig) as HE. rewrite Hc in HE.
  pose proof (fexp_ge_emin (Zpos (digits2_pos mc) + ec)) as Hecmin. rewrite Hc in Hecmin.
  destruct (Zdigits2_bounds mx Hmx) as [Hxlo Hxhi].
  assert (0 < Zdigits2 mx) as HD by (destruct mx; simpl in *; lia).
  unfold binary_round_aux.
  destruct (shr_fexp prec emax mx ex lx) as [mrs1 e1] eqn:H1.
  pose proof (shr_fexp_spec mx ex lx (Z.lt_le_incl _ _ Hmx)) as [Hm1 He1].
  rewrite H1 in Hm1, He1. simpl in Hm1, He1.
  rewrite Z.max_r in Hm1, He1 by lia.
  set (D := Zdigits2 mx) in *. set (E := fexp prec emax (D + ex)) in *.
  replace (ex + (E - ex)) with E in He1 by lia. subst e1.
  set (m1 := shr_m mrs1) in *.
  set (m2 := round_nearest_even m1 (loc_of_shr_record mrs1)).
  pose proof (round_nearest_even_bounds m1 (loc_of_shr_record mrs1)) as Hm2. fold m2 in Hm2.
  (* the truncated mantissa dominates the constant's when exponents agree *)
  assert (E = ec -> Zpos mc <= m1) as Hdom.
  { intros HEq. rewrite Hm1. apply Z.div_le_lower_bound; [apply pow2_pos; lia |].
    destruct Hle as (k & Hk1 & Hk2 & Hle). subst ec.
    replace (E - k) with (E - ex + (ex - k)) in Hle by lia.
    rewrite Z.pow_add_r, Z.mul_assoc in Hle by lia.
    apply Z.mul_le_mono_pos_r in Hle; [lia | apply pow2_pos; lia]. }
  assert (0 <= m1) as Hm1pos.
  { rewrite Hm1. apply Z.div_pos; [lia | apply pow2_pos; lia]. }
  destruct (shr_fexp prec emax m2 E loc_Exact) as [mrs3 e3] eqn:H3.
  assert (0 <= m2) as Hm2pos by lia.
  pose proof (shr_fexp_spec m2 E loc_Exact Hm2pos) as [Hm3 He3].
  rewrite H3 in Hm3, He3. simpl in Hm3, He3.
  pose proof (fexp_ge_emin (D + ex)) as HEmin. fold E in HEmin.
  destruct (Z_le_gt_dec (emin prec emax) (D + ex - prec)) as [Hnorm | Hsub].
  - (* normal range: the truncated mantissa has [prec] digits *)
    assert (E = D + ex - prec) as HEq by (subst E; unfold fexp; lia).
    assert (2 ^ (prec - 1) <= m1 < 2 ^ prec) as [Hlo Hhi].
    { rewrite Hm1. split.
      - apply Z.div_le_lower_bound; [apply pow2_pos; lia |].
        rewrite <- Z.pow_add_r by lia.
        replace (E - ex + (prec - 1)) with (D - 1) by lia. exact Hxlo.
      - apply Z.div_lt_upper_bound; [apply pow2_pos; lia |].
        rewrite <- Z.pow_add_r by lia.
        replace (E - ex + prec) with D by lia. exact Hxhi. }
    destruct (Z_lt_le_dec m2 (2 ^ prec)) as [Hfit | Hcarry].
    + assert (Zdigits2 m2 = prec) as Hd2 by (apply Zdigits2_unique; lia).
      rewrite Hd2 in Hm3, He3.
      assert (fexp prec emax (prec + E) - E = 0) as Hz by (unfold fexp; lia).
      rewrite Hz in Hm3, He3. simpl in Hm3, He3.
      rewrite Z.div_1_r in Hm3. rewrite Z.add_0_r in He3.
      rewrite Hm3, He3. apply round_result_lower.
      * lia.
      * rewrite Hd2. unfold fexp. lia.
      * destruct (Z.eq_dec E ec) as [HEec | HEec]; [right | left; lia].
        split; [lia | specialize (Hdom HEec); lia].
    + assert (m2 = 2 ^ prec) as Hm2eq by lia.
      assert (Zdigits2 m2 = prec + 1) as Hd2.
      { apply Zdigits2_unique; [| lia]. rewrite Hm2eq.
        replace (prec + 1 - 1) with prec by lia. split; [lia |].
        apply Z.pow_lt_mono_r; lia. }
      rewrite Hd2 in Hm3, He3.
      assert (fexp prec emax (prec + 1 + E) - E = 1) as Hz by (unfold fexp; lia).
      rewrite Hz in Hm3, He3. simpl Z.max in Hm3, He3.
      assert (shr_m mrs3 = 2 ^ (prec - 1)) as Hm3eq.
      { rewrite Hm3, Hm2eq.
        replace prec with (1 + (prec - 1)) at 1 by lia.
        rewrite Z.pow_add_r by lia. rewrite Z.mul_comm.
        apply Z.div_mul. change (2 ^ 1) with 2. lia. }
      rewrite Hm3eq, He3. apply round_result_lower.
      * apply pow2_pos. lia.
      * assert (Zdigits2 (2 ^ (prec - 1)) = prec) as Hd3.
        { apply Zdigits2_unique; [| lia]. split; [lia |].
          apply Z.pow_lt_mono_r; lia. }
        rewrite Hd3. unfold fexp. lia.
      * left. lia.
  - (* subnormal range: the exponent is [emin] *)
    assert (E = emin prec emax) as HEq by (subst E; unfold fexp; lia).
    assert (ec = E) as Hec by lia.
    specialize (Hdom (eq_sym Hec)).
    assert (m1 < 2 ^ (prec - 1)) as Hhi.
    { rewrite Hm1. apply Z.div_lt_upper_bound; [apply pow2_pos; lia |].
      rewrite <- Z.pow_add_r by lia.
      apply Z.lt_le_trans with (1 := Hxhi). apply Z.pow_le_mono_r; lia. }
    assert (0 < m2) as Hm2p by lia.
    destruct (Zdigits2_bounds m2 Hm2p) as [Hd2lo _].
    assert (0 < Zdigits2 m2) as Hd2p by (destruct m2; simpl in *; lia).
    assert (Zdigits2 m2 <= prec) as Hd2.
    { destruct (Z_le_gt_dec (Zdigits2 m2) prec) as [Hok | Hbad]; [exact Hok | exfalso].
      assert (2 ^ prec <= 2 ^ (Zdigits2 m2 - 1)) by (apply Z.pow_le_mono_r; lia).
      assert (2 ^ (prec - 1) < 2 ^ prec) by (apply Z.pow_lt_mono_r; lia).
      lia. }
    assert (fexp prec emax (Zdigits2 m2 + E) = E) as Hz by (unfold fexp; lia).
    rewrite Hz in Hm3, He3. rewrite Z.sub_diag in Hm3, He3. simpl in Hm3, He3.
    rewrite Z.div_1_r in Hm3. rewrite Z.add_0_r in He3.
    rewrite Hm3, He3. apply round_result_lower.
    + exact Hm2p.
    + exact Hz.
    + right. split; [exact Hec | lia].
Qed.

Lemma iter_xO m d : Zpos (Pos.iter xO m d) = Zpos m * 2 ^ Zpos d.
Proof.
  induction d as [| d IH] using Pos.peano_ind.
  - simpl. lia.
  - rewrite Pos.iter_succ, Pos2Z.inj_xO, IH, Pos2Z.inj_succ, Z.pow_succ_r by lia. lia.
Qed.

Lemma shl_align_spec mx ex ex' :
  snd (shl_align mx ex ex') = Z.min ex ex' /\
  Zpos (fst (shl_align mx ex ex')) = Zpos mx * 2 ^ (ex - Z.min ex ex').
Proof.
  unfold shl_align. destruct (ex' - ex) as [| d | d] eqn:Hd; cbn [fst snd].
  - rewrite Z.min_l by lia. rewrite Z.sub_diag, Z.pow_0_r. lia.
  - rewrite Z.min_l by lia. rewrite Z.sub_diag, Z.pow_0_r. lia.
  - rewrite Z.min_r by lia. split; [reflexivity |].
    rewrite iter_xO. replace (ex - ex') with (Zpos d) by lia. reflexivity.
Qed.

Lemma Zdigits2_shift m d :
  0 < m -> 0 <= d -> Zdigits2 (m * 2 ^ d) = Zdigits2 m + d.
Proof.
  intros Hm Hd. destruct (Zdigits2_bounds m Hm) as [Hlo Hhi].
  assert (0 < Zdigits2 m) by (destruct m; simpl in *; lia).
  apply Zdigits2_unique; [| lia]. split.
  - replace (Zdigits2 m + d - 1) with (Zdigits2 m - 1 + d) by lia.
    rewrite Z.pow_add_r by lia.
    apply Z.mul_le_mono_nonneg_r; [pose proof (pow2_pos d); lia | lia].
  - rewrite Z.pow_add_r by lia.
    apply Z.mul_lt_mono_pos_r; [apply pow2_pos; lia | lia].
Qed.

Lemma scaled_le_weaken a ea b eb k k' :
  k' <= k -> k <= ea -> k <= eb ->
  a * 2 ^ (ea - k) <= b * 2 ^ (eb - k) ->
  a * 2 ^ (ea - k') <= b * 2 ^ (eb - k').
Proof.
  intros Hk Ha Hb Hle.
  replace (ea - k') with (ea - k + (k - k')) by lia.
  replace (eb - k') with (eb - k + (k - k')) by lia.
  rewrite !Z.pow_add_r, !Z.mul_assoc by lia.
  apply Z.mul_le_mono_nonneg_r; [pose proof (pow2_pos (k - k')); lia | exact Hle].
Qed.

Lemma binary_round_lower s m e (mc : positive) ec :
  canonical_mantissa prec emax mc ec = true ->
  val_le (Zpos mc) ec (Zpos m) e ->
  binary_round prec emax s m e = S754_infinity s \/
  exists m' e', binary_round prec emax s m e = S754_finite s m' e' /\
    canonical_mantissa prec emax m' e' = true /\ ge_mant mc ec m' e'.
Proof.
  intros Hc (k & Hk1 & Hk2 & Hle). unfold binary_round.
  pose proof (shl_align_spec m e (fexp prec emax (Zpos (digits2_pos m) + e))) as [Hez Hmz].
  destruct (shl_align m e (fexp prec emax (Zpos (digits2_pos m) + e))) as [mz ez].
  cbn [fst snd] in Hez, Hmz.
  assert (Zdigits2 (Zpos mz) + ez = Zpos (digits2_pos m) + e) as Hdig.
  { rewrite Hmz, Zdigits2_shift by lia. cbn [Zdigits2]. lia. }
  apply binary_round_aux_lower.
  - lia.
  - rewrite Hdig. lia.
  - exact Hc.
  - exists (Z.min k ez). split; [lia | split; [lia |]].
    rewrite Hmz, <- Z.mul_assoc, <- Z.pow_add_r by lia.
    replace (e - Z.min e (fexp prec emax (Zpos (digits2_pos m) + e)) + (ez - Z.min k ez))
      with (e - Z.min k ez) by lia.
    apply scaled_le_weaken with (k := k); lia.
Qed.


(** ** Signs and lower bounds of the operations *)


Lemma nonneg_of_sign x :
  match x with
  | S754_zero s' | S754_infinity s' | S754_finite s' _ _ => s' = false
  | S754_nan => False
  end -> nonneg x.
Proof. destruct x as [s | s | | s m e]; simpl; intros H; subst; exact I || contradiction. Qed.

Lemma nonpos_of_sign x :
  match x with
  | S754_zero s' | S754_infinity s' | S754_finite s' _ _ => s' = true
  | S754_nan => False
  end -> nonpos x.
Proof. destruct x as [s | s | | s m e]; simpl; intros H; subst; exact I || contradiction. Qed.

Lemma SFmul_nonneg x m e :
  nonneg x -> nonneg (SFmul prec emax x (S754_finite false m e)).
Proof.
  destruct x as [s | [] | | [] mx ex]; simpl; intros H; try contradiction; try exact I.
  apply nonneg_of_sign. apply binary_round_aux_sign. lia.
Qed.

Lemma SFmul_nonpos x m e :
  nonpos x -> nonpos (SFmul prec emax x (S754_finite false m e)).
Proof.
  destruct x as [s | [] | | [] mx ex]; simpl; intros H; try contradiction; try exact I.
  apply nonpos_of_sign. apply binary_round_aux_sign. lia.
Qed.

Lemma SFdiv_core_binary_nonneg m1 e1 m2 e2 :
  0 <= fst (fst (SFdiv_core_binary prec emax (Zpos m1) e1 (Zpos m2) e2)).
Proof.
  unfold SFdiv_core_binary.
  set (s := Z.sub _ _).
  set (m' := match s with Z0 => Zpos m1 | Zpos _ => Z.shiftl (Zpos m1) s | Zneg _ => 0 end).
  assert (0 <= m') as Hm'.
  { subst m'. destruct s; try lia. apply Z.shiftl_nonneg. lia. }
  pose proof (Z_div_mod m' (Zpos m2) eq_refl) as H.
  destruct (Z.div_eucl m' (Zpos m2)) as [q r]. cbn [fst].
  destruct H as [Heq Hr]. nia.
Qed.

Lemma SFdiv_nonneg x m e :
  nonneg x -> nonneg (SFdiv prec emax x (S754_finite false m e)).
Proof.
  destruct x as [s | [] | | [] mx ex]; simpl; intros H; try contradiction; try exact I.
  pose proof (SFdiv_core_binary_nonneg mx ex m e) as Hq.
  destruct (SFdiv_core_binary prec emax (Zpos mx) ex (Zpos m) e) as [[mz ez] lz].
  cbn [fst] in Hq.
  apply nonneg_of_sign. apply binary_round_aux_sign. exact Hq.
Qed.

Lemma ge_mant_refl m e : ge_mant m e m e.
Proof. right. split; [reflexivity | apply Pos.le_refl]. Qed.

(** Adding a non-negative number to a positive constant does not go
    below the constant. *)
Lemma SFadd_at_least mc ec y :
  canonical_mantissa prec emax mc ec = true ->
  nonneg y ->
  at_least prec emax mc ec (SFadd prec emax (S754_finite false mc ec) y).
Proof.
  intros Hc Hy. destruct y as [s | [] | | [] my ey]; simpl in Hy; try contradiction.
  - right. exists mc, ec. cbn. repeat split; [exact Hc | apply ge_mant_refl].
  - left. reflexivity.
  - cbn [SFadd cond_Zopp].
    pose proof (shl_align_spec mc ec (Z.min ec ey)) as [_ Ha].
    set (a := fst (shl_align mc ec (Z.min ec ey))) in *.
    set (b := fst (shl_align my ey (Z.min ec ey))).
    change (Zpos a + Zpos b) with (Zpos (a + b)). cbn [binary_normalize].
    destruct (binary_round_lower false (a + b) (Z.min ec ey) mc ec Hc)
      as [Hinf | (m & e & Heq & Hcan & Hge)].
    + exists (Z.min ec ey). split; [lia | split; [lia |]].
      rewrite Z.sub_diag, Z.pow_0_r, Z.mul_1_r, Pos2Z.inj_add.
      replace (Z.min ec (Z.min ec ey)) with (Z.min ec ey) in Ha by lia. lia.
    + left. exact Hinf.
    + right. exists m, e. repeat split; assumption.
Qed.

Lemma val_le_trans a ea b eb c ec :
  val_le a ea b eb -> val_le b eb c ec -> val_le a ea c ec.
Proof.
  intros (k1 & Ha1 & Hb1 & H1) (k2 & Hb2 & Hc2 & H2).
  exists (Z.min k1 k2). split; [lia | split; [lia |]].
  apply Z.le_trans with (b * 2 ^ (eb - Z.min k1 k2)).
  - apply scaled_le_weaken with (k := k1); lia.
  - apply scaled_le_weaken with (k := k2); lia.
Qed.

(** The order by exponent and mantissa is the order of the values. *)
Lemma ge_mant_val_le mc ec m e :
  canonical_mantissa prec emax mc ec = true ->
  canonical_mantissa prec emax m e = true ->
  ge_mant mc ec m e -> val_le (Zpos mc) ec (Zpos m) e.
Proof.
  unfold canonical_mantissa. intros Hc Hm Hge.
  apply Z.eqb_eq in Hc. apply Z.eqb_eq in Hm.
  destruct Hge as [Hlt | [Heq Hle]].
  - exists ec. split; [lia | split; [lia |]].
    rewrite Z.sub_diag, Z.pow_0_r, Z.mul_1_r.
    destruct (Zdigits2_pos_bounds mc) as [_ Hchi].
    destruct (Zdigits2_pos_bounds m) as [Hmlo _].
    unfold fexp in Hc, Hm.
    assert (Zpos (digits2_pos m) = prec) as HD by lia.
    assert (Zpos (digits2_pos mc) <= prec) as HDc by lia.
    rewrite HD in Hmlo.
    assert (2 ^ Zpos (digits2_pos mc) <= 2 ^ prec) by (apply Z.pow_le_mono_r; lia).
    assert (2 ^ 1 <= 2 ^ (e - ec)) as Hp by (apply Z.pow_le_mono_r; lia).
    change (2 ^ 1) with 2 in Hp.
    assert (2 ^ prec = 2 ^ (prec - 1) * 2) as Hsplit.
    { replace prec with (prec - 1 + 1) at 1 by lia. rewrite Z.pow_add_r by lia. reflexivity. }
    pose proof (pow2_pos (prec - 1)).
    nia.
  - exists e. subst ec. split; [lia | split; [lia |]].
    rewrite Z.sub_diag, Z.pow_0_r, !Z.mul_1_r. apply Pos2Z.pos_le_pos. exact Hle.
Qed.

Lemma Zdigits2_mul_lower (a b : positive) :
  Zpos (digits2_pos a) + Zpos (digits2_pos b) - 1 <= Zpos (digits2_pos (a * b)).
Proof.
  destruct (Zdigits2_pos_bounds a) as [Ha _]. destruct (Zdigits2_pos_bounds b) as [Hb _].
  destruct (Zdigits2_pos_bounds (a * b)) as [_ Hab].
  set (da := Zpos (digits2_pos a)) in *. set (db := Zpos (digits2_pos b)) in *.
  set (dab := Zpos (digits2_pos (a * b))) in *.
  destruct (Z_le_gt_dec (da + db - 1) dab) as [Hok | Hbad]; [exact Hok | exfalso].
  assert (2 ^ dab <= 2 ^ (da - 1 + (db - 1))) as H by (apply Z.pow_le_mono_r; subst da db dab; lia).
  rewrite Z.pow_add_r in H by (subst da db; lia).
  rewrite Pos2Z.inj_mul in Hab.
  pose proof (pow2_pos (da - 1)). pose proof (pow2_pos (db - 1)).
  assert (2 ^ (da - 1) * 2 ^ (db - 1) <= Zpos a * Zpos b) by (apply Z.mul_le_mono_nonneg; subst da db; lia).
  lia.
Qed.

(** Multiplying a normal number by a factor of at least one does not
    bring it closer to zero. *)
Lemma SFmul_at_least_one sx mx ex y :
  1 < prec ->
  canonical_mantissa prec emax mx ex = true ->
  Zpos (digits2_pos mx) = prec ->
  canonical_mantissa prec emax (one_mantissa prec) (1 - prec) = true ->
  at_least prec emax (one_mantissa prec) (1 - prec) y ->
  SFmul prec emax (S754_finite sx mx ex) y = S754_infinity sx \/
  exists m e, SFmul prec emax (S754_finite sx mx ex) y = S754_finite sx m e /\
    canonical_mantissa prec emax m e = true /\ ge_mant mx ex m e.
Proof.
  intros Hprec Hc Hdx Hone [Hinf | (my & ey & Hy & Hcy & Hge)]; subst y.
  - left. cbn. rewrite xorb_false_r. reflexivity.
  - cbn [SFmul]. rewrite xorb_false_r.
    pose proof (ge_mant_val_le _ _ _ _ Hone Hcy Hge) as (k & Hk1 & Hk2 & Hle).
    assert (Zpos (one_mantissa prec) = 2 ^ (prec - 1)) as Hval.
    { unfold one_mantissa. rewrite iter_xO, Z2Pos.id by lia. lia. }
    rewrite Hval, <- Z.pow_add_r in Hle by lia.
    replace (prec - 1 + (1 - prec - k)) with (- k) in Hle by lia.
    apply binary_round_aux_lower.
    + lia.
    + pose proof (Zdigits2_mul_lower mx my) as Hd.
      cbn [Zdigits2]. unfold fexp. lia.
    + exact Hc.
    + exists (ex + k). split; [lia | split; [lia |]].
      replace (ex - (ex + k)) with (- k) by lia.
      replace (ex + ey - (ex + k)) with (ey - k) by lia.
      rewrite Pos2Z.inj_mul, <- Z.mul_assoc.
      apply Z.mul_le_mono_nonneg_l; [lia | exact Hle].
Qed.

End Format.

Section Upper.
Variables prec emax : Z.
Hypothesis prec_pos : 0 < prec.

(** A value below a bound has at most as many digits. *)
Lemma val_le_digits_upper mx ex (mc : positive) ec :
  0 <= mx -> val_le (mx + 1) ex (Zpos mc) ec ->
  Zdigits2 mx + ex <= Zpos (digits2_pos mc) + ec.
Proof.
  intros Hmx (k & Hk1 & Hk2 & Hle).
  destruct (Zdigits2_pos_bounds mc) as [_ Hchi].
  set (Dc := Zpos (digits2_pos mc)) in *.
  destruct (Z_le_gt_dec (Zdigits2 mx + ex) (Dc + ec)) as [Hok | Hbad]; [exact Hok | exfalso].
  assert (Zpos mc * 2 ^ (ec - k) < 2 ^ Dc * 2 ^ (ec - k)) as H1.
  { apply Z.mul_lt_mono_pos_r; [apply pow2_pos; lia | lia]. }
  rewrite <- Z.pow_add_r in H1 by (subst Dc; lia).
  assert (2 ^ (Zdigits2 mx - 1) * 2 ^ (ex - k) <= (mx + 1) * 2 ^ (ex - k)) as H2.
  { apply Z.mul_le_mono_nonneg_r; [pose proof (pow2_pos (ex - k)); lia |].
    destruct (Z.eq_dec mx 0) as [-> | Hnz].
    - cbn. lia.
    - destruct (Zdigits2_bounds mx ltac:(lia)). lia. }
  destruct (Z.eq_dec mx 0) as [-> | Hnz].
  - cbn [Zdigits2] in *.
    assert (2 ^ (Dc + (ec - k)) <= 2 ^ (ex - k)) by (apply Z.pow_le_mono_r; lia).
    lia.
  - assert (0 < Zdigits2 mx) by (destruct mx; simpl in *; lia).
    rewrite <- Z.pow_add_r in H2 by lia.
    assert (2 ^ (Dc + (ec - k)) <= 2 ^ (Zdigits2 mx - 1 + (ex - k)))
      by (apply Z.pow_le_mono_r; lia).
    lia.
Qed.

Lemma round_result_upper s m3 e3 (mc : positive) ec :
  0 <= m3 ->
  fexp prec emax (Zdigits2 m3 + e3) = e3 ->
  e3 <= emax - prec ->
  e3 < ec \/ (e3 = ec /\ m3 <= Zpos mc) ->
  match m3 with
  | 0 => S754_zero s
  | Zpos m => if e3 <=? emax - prec then S754_finite s m e3 else S754_infinity s
  | Zneg _ => S754_nan
  end = S754_zero s \/
  exists m e,
    match m3 with
    | 0 => S754_zero s
    | Zpos m => if e3 <=? emax - prec then S754_finite s m e3 else S754_infinity s
    | Zneg _ => S754_nan
    end = S754_finite s m e /\
    canonical_mantissa prec emax m e = true /\ ge_mant m e mc ec.
Proof.
  intros Hpos Hcan Hfit Hle. destruct m3 as [| p | p]; try lia.
  - left. reflexivity.
  - right. rewrite (proj2 (Z.leb_le _ _) Hfit).
    exists p, e3. split; [reflexivity | split].
    + unfold canonical_mantissa. apply Z.eqb_eq. exact Hcan.
    + unfold ge_mant. destruct Hle as [H | [H1 H2]]; [left; exact H | right].
      split; [exact H1 | ]. apply Pos2Z.pos_le_pos. exact H2.
Qed.

(** Rounding a value that is at most a number of the format gives at
    most that number. *)
Lemma binary_round_aux_upper s mx ex lx (mc : positive) ec :
  0 <= mx ->
  0 <= fexp prec emax (Zdigits2 mx + ex) - ex ->
  canonical_mantissa prec emax mc ec = true ->
  ec <= emax - prec ->
  val_le (mx + 1) ex (Zpos mc) ec ->
  binary_round_aux prec emax s mx ex lx = S754_zero s \/
  exists m e, binary_round_aux prec emax s mx ex lx = S754_finite s m e /\
    canonical_mantissa prec emax m e = true /\ ge_mant m e mc ec.
Proof.
  intros Hmx Hn Hc Hfit Hle.
  pose proof (val_le_digits_upper mx ex mc ec Hmx Hle) as Hdig.
  unfold canonical_mantissa in Hc. apply Z.eqb_eq in Hc.
  pose proof (fexp_mono prec emax _ _ Hdig) as HE. rewrite Hc in HE.
  destruct (Zdigits2_pos_bounds mc) as [Hclo Hchi].
  pose proof (Zdigits2_nonneg mx Hmx) as HD.
  unfold binary_round_aux.
  destruct (shr_fexp prec emax mx ex lx) as [mrs1 e1] eqn:H1.
  pose proof (shr_fexp_spec prec emax mx ex lx Hmx) as [Hm1 He1].
  rewrite H1 in Hm1, He1. simpl in Hm1, He1.
  rewrite Z.max_r in Hm1, He1 by lia.
  set (D := Zdigits2 mx) in *. set (E := fexp prec emax (D + ex)) in *.
  replace (ex + (E - ex)) with E in He1 by lia. subst e1.
  set (m1 := shr_m mrs1) in *.
  set (m2 := round_nearest_even m1 (loc_of_shr_record mrs1)).
  pose proof (round_nearest_even_bounds m1 (loc_of_shr_record mrs1)) as Hm2. fold m2 in Hm2.
  assert (0 <= m1) as Hm1pos.
  { rewrite Hm1. apply Z.div_pos; [lia | apply pow2_pos; lia]. }
  (* the truncated mantissa is below the bound's when exponents agree *)
  assert (E = ec -> m1 + 1 <= Zpos mc) as Hdom.
  { intros HEq. rewrite Hm1.
    destruct Hle as (k & Hk1 & Hk2 & Hle). subst ec.
    replace (E - k) with (E - ex + (ex - k)) in Hle by lia.
    rewrite Z.pow_add_r, Z.mul_assoc in Hle by lia.
    apply Z.mul_le_mono_pos_r in Hle; [| apply pow2_pos; lia].
    assert (mx / 2 ^ (E - ex) < Zpos mc); [| lia].
    apply Z.div_lt_upper_bound; [apply pow2_pos; lia | lia]. }
  destruct (shr_fexp prec emax m2 E loc_Exact) as [mrs3 e3] eqn:H3.
  assert (0 <= m2) as Hm2pos by lia.
  pose proof (shr_fexp_spec prec emax m2 E loc_Exact Hm2pos) as [Hm3 He3].
  rewrite H3 in Hm3, He3. simpl in Hm3, He3.
  pose proof (fexp_ge_emin prec emax (D + ex)) as HEmin. fold E in HEmin.
  assert (Zpos (digits2_pos mc) <= prec) as HDc by (unfold fexp in Hc; lia).
  destruct (Z_le_gt_dec (emin prec emax) (D + ex - prec)) as [Hnorm | Hsub].
  - (* normal range *)
    assert (E = D + ex - prec) as HEq by (subst E; unfold fexp; lia).
    assert (0 < mx) as Hmxpos.
    { destruct (Z.eq_dec mx 0) as [H0 | H0]; [| lia].
      exfalso. subst D. rewrite H0 in *. cbn [Zdigits2] in *. lia. }
    destruct (Zdigits2_bounds mx Hmxpos) as [Hxlo Hxhi]. fold D in Hxlo, Hxhi.
    assert (2 ^ (prec - 1) <= m1 < 2 ^ prec) as [Hlo Hhi].
    { rewrite Hm1. split.
      - apply Z.div_le_lower_bound; [apply pow2_pos; lia |].
        rewrite <- Z.pow_add_r by lia.
        replace (E - ex + (prec - 1)) with (D - 1) by lia. exact Hxlo.
      - apply Z.div_lt_upper_bound; [apply pow2_pos; lia |].
        rewrite <- Z.pow_add_r by lia.
        replace (E - ex + prec) with D by lia. exact Hxhi. }
    destruct (Z_lt_le_dec m2 (2 ^ prec)) as [Hfit2 | Hcarry].
    + assert (Zdigits2 m2 = prec) as Hd2 by (apply Zdigits2_unique; lia).
      rewrite Hd2 in Hm3, He3.
      assert (fexp prec emax (prec + E) - E = 0) as Hz by (unfold fexp; lia).
      rewrite Hz in Hm3, He3. simpl in Hm3, He3.
      rewrite Z.div_1_r in Hm3. rewrite Z.add_0_r in He3.
      rewrite Hm3, He3. apply round_result_upper.
      * lia.
      * rewrite Hd2. unfold fexp. lia.
      * lia.
      * destruct (Z.eq_dec E ec) as [HEec | HEec]; [right | left; lia].
        split; [exact HEec | specialize (Hdom HEec); lia].
    + assert (m2 = 2 ^ prec) as Hm2eq by lia.
      assert (E < ec) as HEec.
      { destruct (Z.eq_dec E ec) as [HEec | HEec]; [| lia].
        specialize (Hdom HEec).
        assert (2 ^ Zpos (digits2_pos mc) <= 2 ^ prec) by (apply Z.pow_le_mono_r; lia).
        lia. }
      assert (Zdigits2 m2 = prec + 1) as Hd2.
      { apply Zdigits2_unique; [| lia]. rewrite Hm2eq.
        replace (prec + 1 - 1) with prec by lia. split; [lia |].
        apply Z.pow_lt_mono_r; lia. }
      rewrite Hd2 in Hm3, He3.
      assert (fexp prec emax (prec + 1 + E) - E = 1) as Hz by (unfold fexp; lia).
      rewrite Hz in Hm3, He3. simpl Z.max in Hm3, He3.
      assert (shr_m mrs3 = 2 ^ (prec - 1)) as Hm3eq.
      { rewrite Hm3, Hm2eq.
        replace prec with (1 + (prec - 1)) at 1 by lia.
        rewrite Z.pow_add_r by lia. rewrite Z.mul_comm.
        apply Z.div_mul. change (2 ^ 1) with 2. lia. }
      rewrite Hm3eq, He3. apply round_result_upper.
      * pose proof (pow2_pos (prec - 1)). lia.
      * assert (Zdigits2 (2 ^ (prec - 1)) = prec) as Hd3.
        { apply Zdigits2_unique; [| lia]. split; [lia |].
          apply Z.pow_lt_mono_r; lia. }
        rewrite Hd3. unfold fexp. lia.
      * lia.
      * destruct (Z.eq_dec (E + 1) ec) as [Heq1 | Hne1]; [right | left; lia].
        split; [exact Heq1 |].
        (* the bound is a normal number: its mantissa has [prec] digits *)
        assert (Zpos (digits2_pos mc) = prec) as HDcEq by (unfold fexp in Hc; lia).
        rewrite HDcEq in Hclo. exact Hclo.
  - (* subnormal range *)
    assert (E = emin prec emax) as HEq by (subst E; unfold fexp; lia).
    assert (m1 < 2 ^ (prec - 1)) as Hhi.
    { destruct (Z.eq_dec mx 0) as [H0 | H0].
      - rewrite Hm1, H0, Z.div_0_l by (pose proof (pow2_pos (E - ex)); lia).
        apply pow2_pos. lia.
      - destruct (Zdigits2_bounds mx ltac:(lia)) as [_ Hxhi]. fold D in Hxhi.
        rewrite Hm1. apply Z.div_lt_upper_bound; [apply pow2_pos; lia |].
        rewrite <- Z.pow_add_r by lia.
        apply Z.lt_le_trans with (1 := Hxhi). apply Z.pow_le_mono_r; lia. }
    assert (Zdigits2 m2 <= prec) as Hd2.
    { destruct (Z.eq_dec m2 0) as [H0 | H0]; [rewrite H0; cbn; lia |].
      destruct (Zdigits2_bounds m2 ltac:(lia)) as [Hd2lo _].
      destruct (Z_le_gt_dec (Zdigits2 m2) prec) as [Hok | Hbad]; [exact Hok | exfalso].
      assert (2 ^ prec <= 2 ^ (Zdigits2 m2 - 1)) by (apply Z.pow_le_mono_r; lia).
      assert (2 ^ (prec - 1) < 2 ^ prec) by (apply Z.pow_lt_mono_r; lia).
      lia. }
    pose proof (Zdigits2_nonneg m2 Hm2pos) as Hd2pos.
    assert (fexp prec emax (Zdigits2 m2 + E) = E) as Hz by (unfold fexp; lia).
    rewrite Hz in Hm3, He3. rewrite Z.sub_diag in Hm3, He3. simpl in Hm3, He3.
    rewrite Z.div_1_r in Hm3. rewrite Z.add_0_r in He3.
    rewrite Hm3, He3. apply round_result_upper.
    + exact Hm2pos.
    + exact Hz.
    + lia.
    + destruct (Z.eq_dec E ec) as [HEec | HEec]; [right | left; lia].
      split; [exact HEec | specialize (Hdom HEec); lia].
Qed.

End Upper.

Section Division.
Variables prec emax : Z.
Hypothesis prec_pos : 0 < prec.

(** The integer quotient that [SFdiv] rounds: it brackets the exact
    quotient and has digits enough for the rounding to start from. *)
Lemma SFdiv_core_binary_spec m1 e1 m2 e2 :
  let q := fst (fst (SFdiv_core_binary prec emax (Zpos m1) e1 (Zpos m2) e2)) in
  let e' := snd (fst (SFdiv_core_binary prec emax (Zpos m1) e1 (Zpos m2) e2)) in
  e' <= e1 - e2 /\
  e' <= fexp prec emax (Zpos (digits2_pos m1) + e1 - (Zpos (digits2_pos m2) + e2)) /\
  q * Zpos m2 <= Zpos m1 * 2 ^ (e1 - e2 - e') < (q + 1) * Zpos m2 /\
  0 <= fexp prec emax (Zdigits2 q + e') - e'.
Proof.
  unfold SFdiv_core_binary. cbn [Zdigits2].
  set (d1 := Zpos (digits2_pos m1)). set (d2 := Zpos (digits2_pos m2)).
  set (F := fexp prec emax (d1 + e1 - (d2 + e2))).
  set (e' := Z.min F (e1 - e2)).
  set (s := e1 - e2 - e').
  assert (0 <= s) as Hs by (subst s e'; lia).
  set (m' := match s with Z0 => Zpos m1 | Zpos _ => Z.shiftl (Zpos m1) s | Zneg _ => 0 end).
  assert (m' = Zpos m1 * 2 ^ s) as Hm'.
  { subst m'. destruct s as [| p | p] eqn:Hsv.
    - rewrite Z.pow_0_r. lia.
    - apply Z.shiftl_mul_pow2. lia.
    - lia. }
  pose proof (Z_div_mod m' (Zpos m2) eq_refl) as Hdiv.
  destruct (Z.div_eucl m' (Zpos m2)) as [q r]. cbn [fst snd].
  destruct Hdiv as [Heq Hr]. rewrite Hm' in Heq.
  fold s.
  split; [subst e'; lia | split; [subst e'; lia | split; [nia |]]].
  assert (0 <= q) as Hq by nia.
  pose proof (fexp_ge_emin prec emax (Zdigits2 q + e')) as Hmin.
  destruct (Z_le_gt_dec e' (emin prec emax)) as [Hlow | Hhigh]; [lia |].
  assert (F = d1 + e1 - (d2 + e2) - prec) as HF by (subst F e'; unfold fexp in *; lia).
  assert (prec - d1 + d2 <= s) as Hsl by (subst s e'; lia).
  destruct (Zdigits2_pos_bounds m1) as [H1lo _]. fold d1 in H1lo.
  destruct (Zdigits2_pos_bounds m2) as [_ H2hi]. fold d2 in H2hi.
  assert (2 ^ (prec - 1) <= q) as Hqlo.
  { destruct (Z_le_gt_dec (2 ^ (prec - 1)) q) as [Hok | Hbad]; [exact Hok | exfalso].
    assert (2 ^ (d1 - 1) * 2 ^ s <= Zpos m1 * 2 ^ s) as Ha.
    { apply Z.mul_le_mono_nonneg_r; [pose proof (pow2_pos s); lia | lia]. }
    rewrite <- Z.pow_add_r in Ha by (subst d1; lia).
    assert (2 ^ (prec - 1 + d2) <= 2 ^ (d1 - 1 + s)) as Hb
      by (apply Z.pow_le_mono_r; lia).
    rewrite Z.pow_add_r in Hb by (subst d2; lia).
    pose proof (pow2_pos (prec - 1)).
    assert ((q + 1) * Zpos m2 <= 2 ^ (prec - 1) * Zpos m2) by nia.
    assert (2 ^ (prec - 1) * Zpos m2 < 2 ^ (prec - 1) * 2 ^ d2) by nia.
    lia. }
  assert (prec <= Zdigits2 q) as Hdq.
  { destruct (Zdigits2_bounds q) as [_ Hqhi]; [pose proof (pow2_pos (prec - 1)); lia |].
    destruct (Z_le_gt_dec prec (Zdigits2 q)) as [Hok | Hbad]; [exact Hok | exfalso].
    assert (2 ^ Zdigits2 q <= 2 ^ (prec - 1)) by (apply Z.pow_le_mono_r; lia).
    lia. }
  unfold fexp. lia.
Qed.

End Division.

(** ** The dash count is defined on roads of ordinary length *)


Lemma canonical_digits m e :
  canonical_mantissa F32.prec F32.emax m e = true -> Zpos m < 2 ^ 24.
Proof.
  unfold canonical_mantissa. intros H. apply Z.eqb_eq in H.
  destruct (Zdigits2_pos_bounds m) as [_ Hhi].
  assert (Zpos (digits2_pos m) <= 24) by (unfold fexp, F32.prec in H; lia).
  assert (2 ^ Zpos (digits2_pos m) <= 2 ^ 24) by (apply Z.pow_le_mono_r; lia).
  lia.
Qed.


Lemma leb_finite_pos m e mc ec :
  F32.leb (S754_finite false m e) (S754_finite false mc ec) = true ->
  e < ec \/ (e = ec /\ (m <= mc)%positive).
Proof.
  unfold F32.leb, SFleb. cbn [SFcompare].
  change (Pos.compare_cont Eq m mc) with (Pos.compare m mc).
  destruct (Z.compare_spec e ec) as [Heq | Hlt | Hgt]; intros H.
  - right. split; [exact Heq |].
    destruct (Pos.compare_spec m mc) as [Hm | Hm | Hm]; [lia | lia | discriminate H].
  - left. exact Hlt.
  - discriminate H.
Qed.



(** Rounding into another format keeps a lower bound that the target
    format holds. *)
Lemma round_to_at_least p1 x1 p2 x2 mc1 ec1 mc2 ec2 x :
  0 < p1 -> 0 < p2 ->
  canonical_mantissa p1 x1 mc1 ec1 = true ->
  canonical_mantissa p2 x2 mc2 ec2 = true ->
  val_le (Zpos mc2) ec2 (Zpos mc1) ec1 ->
  at_least p1 x1 mc1 ec1 x ->
  at_least p2 x2 mc2 ec2 (round_to p2 x2 x).
Proof.
  intros Hp1 Hp2 Hc1 Hc2 Hle [Hinf | (m & e & Hx & Hcx & Hge)]; subst x.
  - left. reflexivity.
  - cbn [round_to].
    pose proof (ge_mant_val_le p1 x1 Hp1 _ _ _ _ Hc1 Hcx Hge) as Hv.
    destruct (binary_round_lower p2 x2 Hp2 false m e mc2 ec2 Hc2
                (val_le_trans _ _ _ _ _ _ Hle Hv))
      as [H | (m' & e' & Heq & Hcan & Hge')].
    + left. exact H.
    + right. exists m', e'. repeat split; assumption.
Qed.

(** ** The camera *)

Lemma leb_zero_nonpos y : SFleb y (S754_zero false) = true -> nonpos y.
Proof.
  destruct y as [s | [] | | [] m e]; cbn; intros H; try exact I; discriminate.
Qed.

Lemma SFopp_nonneg y : nonpos y -> nonneg (SFopp y).
Proof. destruct y as [s | [] | | [] m e]; cbn; intros H; try exact I; contradiction. Qed.

(** A zoom-out delta gives a zoom factor of at least one. *)
Lemma zoomFactorOf_zoom_out y :
  zoomOut y ->
  at_least F32.prec F32.emax (one_mantissa F32.prec) (1 - F32.prec) (zoomFactorOf y).
Proof.
  unfold zoomOut. intros Hy. apply leb_zero_nonpos in Hy. apply SFopp_nonneg in Hy.
  unfold zoomFactorOf, F64.to_float, F64.add, F64.div, F64.mul, F64.opp.
  change (F64.of_float (F32.lit 10 1)) with (S754_finite false 5629499534213120 (-49)).
  change (F64.of_float (F32.lit 100 1)) with (S754_finite false 7036874417766400 (-46)).
  change (F64.of_float (F32.lit 1 1)) with (S754_finite false 4503599627370496 (-52)).
  apply round_to_at_least
    with (p1 := F64.prec) (x1 := F64.emax) (mc1 := 4503599627370496%positive) (ec1 := -52).
  - reflexivity.
  - reflexivity.
  - reflexivity.
  - reflexivity.
  - exists (-52). vm_compute. repeat split; discriminate.
  - apply SFadd_at_least; [reflexivity | reflexivity |].
    apply SFdiv_nonneg. apply SFmul_nonneg. exact Hy.
Qed.

Lemma max_at_limit m e mc ec :
  ge_mant mc ec m e ->
  F32.max (S754_finite true m e) (S754_finite true mc ec) = S754_finite true mc ec.
Proof.
  intros [Hlt | [Heq Hle]]; unfold F32.max, F32.ltb, SFltb; cbn [SFcompare].
  - rewrite (proj2 (Z.compare_gt_iff e ec)) by lia. reflexivity.
  - subst e. rewrite Z.compare_refl.
    change (Pos.compare_cont Eq m mc) with (Pos.compare m mc).
    destruct (Pos.compare_spec m mc) as [Heq | Hlt | Hgt]; cbn.
    + subst. reflexivity.
    + lia.
    + reflexivity.
Qed.

Lemma min_at_limit m e mc ec :
  ge_mant mc ec m e ->
  F32.min (S754_finite false m e) (S754_finite false mc ec) = S754_finite false mc ec.
Proof.
  intros [Hlt | [Heq Hle]]; unfold F32.min, F32.ltb, SFltb; cbn [SFcompare].
  - rewrite (proj2 (Z.compare_lt_iff ec e)) by lia. reflexivity.
  - subst e. rewrite Z.compare_refl.
    change (Pos.compare_cont Eq mc m) with (Pos.compare mc m).
    destruct (Pos.compare_spec mc m) as [Heq | Hlt | Hgt]; cbn.
    + subst. reflexivity.
    + reflexivity.
    + lia.
Qed.

(** A bound at its limit, scaled by a factor of at least one and clamped,
    is at its limit again. *)
Lemma scaled_max_at_limit mc ec zf :
  canonical_mantissa F32.prec F32.emax mc ec = true ->
  Zpos (digits2_pos mc) = F32.prec ->
  at_least F32.prec F32.emax (one_mantissa F32.prec) (1 - F32.prec) zf ->
  F32.max (F32.mul (S754_finite true mc ec) zf) (S754_finite true mc ec)
  = S754_finite true mc ec.
Proof.
  intros Hc Hd Hzf. unfold F32.mul.
  destruct (SFmul_at_least_one F32.prec F32.emax eq_refl true mc ec zf eq_refl Hc Hd eq_refl Hzf)
    as [Hinf | (m & e & Heq & _ & Hge)].
  - rewrite Hinf. reflexivity.
  - rewrite Heq. apply max_at_limit. exact Hge.
Qed.

Lemma scaled_min_at_limit mc ec zf :
  canonical_mantissa F32.prec F32.emax mc ec = true ->
  Zpos (digits2_pos mc) = F32.prec ->
  at_least F32.prec F32.emax (one_mantissa F32.prec) (1 - F32.prec) zf ->
  F32.min (F32.mul (S754_finite false mc ec) zf) (S754_finite false mc ec)
  = S754_finite false mc ec.
Proof.
  intros Hc Hd Hzf. unfold F32.mul.
  destruct (SFmul_at_least_one F32.prec F32.emax eq_refl false mc ec zf eq_refl Hc Hd eq_refl Hzf)
    as [Hinf | (m & e & Heq & _ & Hge)].
  - rewrite Hinf. reflexivity.
  - rewrite Heq. apply min_at_limit. exact Hge.
Qed.

Lemma processScroll_pinned y : zoomOut y -> processScroll y viewPinned = viewPinned.
Proof.
  intros Hy. pose proof (zoomFactorOf_zoom_out y Hy) as Hzf.
  unfold processScroll, viewPinned.
  cbn [orthographicLeft orthographicRight orthographicBottom orthographicTop].
  change (F32.opp (F32.lit 3200 1)) with (S754_finite true 13107200 (-12)).
  change (F32.lit 3200 1) with (S754_finite false 13107200 (-12)).
  change (F32.opp (F32.lit 1800 1)) with (S754_finite true 14745600 (-13)).
  change (F32.lit 1800 1) with (S754_finite false 14745600 (-13)).
  rewrite !scaled_max_at_limit, !scaled_min_at_limit by (reflexivity || exact Hzf).
  reflexivity.
Qed.

(** C9. Once the four bounds sit at the clamp limits (-3200, 3200, -1800,
    1800), any run of scroll events with delta at most zero leaves all
    four of them where they are. *)
Theorem processScrolls_pinned_zoom_out (deltas : list double) :
  Forall zoomOut deltas -> processScrolls deltas viewPinned = viewPinned.
Proof.
  unfold processScrolls. induction 1 as [| y deltas Hy _ IH]; cbn [fold_left].
  - reflexivity.
  - rewrite processScroll_pinned by exact Hy. exact IH.
Qed.

Lemma processScrolls_pinned_zoom_out_witness :
  Forall zoomOut [F64.of_Z (-1); F64.of_Z 0; S754_infinity true] /\
  processScrolls [F64.of_Z (-1); F64.of_Z 0; S754_infinity true] viewPinned = viewPinned.
Proof.
  assert (Forall zoomOut [F64.of_Z (-1); F64.of_Z 0; S754_infinity true]) as H.
  { repeat constructor. }
  split; [exact H | exact (processScrolls_pinned_zoom_out _ H)].
Defined.

Lemma SFcompare_antisym a b : SFcompare b a = option_map CompOpp (SFcompare a b).
Proof.
  destruct a as [sa | sa | | sa ma ea], b as [sb | sb | | sb mb eb];
    try destruct sa; try destruct sb; cbn; try reflexivity;
    change (Pos.compare_cont Eq mb ma) with (Pos.compare mb ma);
    change (Pos.compare_cont Eq ma mb) with (Pos.compare ma mb);
    rewrite (Z.compare_antisym ea eb), (Pos.compare_antisym ma mb);
    destruct (ea ?= eb); destruct (Pos.compare ma mb); reflexivity.
Qed.

(** Of two numbers, when the first is not below the second, the second
    is at most the first. *)
Lemma not_ltb_leb a c :
  SFcompare a c <> None -> SFltb a c = false -> SFleb c a = true.
Proof.
  unfold SFltb, SFleb. rewrite (SFcompare_antisym a c).
  destruct (SFcompare a c) as [[] |]; cbn; congruence.
Qed.

Lemma nonpos_leb_zero x : nonpos x -> F32.leb x (F32.of_Z 0) = true.
Proof. destruct x as [s | [] | | [] m e]; cbn; intros H; try reflexivity; contradiction. Qed.

Lemma nonneg_zero_leb x : nonneg x -> F32.leb (F32.of_Z 0) x = true.
Proof. destruct x as [s | [] | | [] m e]; cbn; intros H; try reflexivity; contradiction. Qed.

Lemma zero_leb_nonneg x : F32.leb (F32.of_Z 0) x = true -> nonneg x.
Proof. destruct x as [s | [] | | [] m e]; cbn; intros H; try exact I; discriminate. Qed.

Lemma nonpos_compare x s m e : nonpos x -> SFcompare x (S754_finite s m e) <> None.
Proof. destruct x as [sx | [] | | [] mx ex]; cbn; intros H; try contradiction; discriminate. Qed.

Lemma nonneg_compare x s m e : nonneg x -> SFcompare (S754_finite s m e) x <> None.
Proof. destruct x as [sx | [] | | [] mx ex]; cbn; intros H; try contradiction; discriminate. Qed.

(** What [std::max] against a negative limit keeps. *)
Lemma max_limit_spec x m e (c := S754_finite true m e) :
  F32.ltb c c = false ->
  F32.ltb (F32.max x c) c = false /\
  (nonpos x -> nonpos (F32.max x c) /\ F32.leb c (F32.max x c) = true).
Proof.
  intros Hirr. unfold F32.max. destruct (F32.ltb x c) eqn:Hlt.
  - split; [exact Hirr |]. intros _. split; [exact I |].
    apply not_ltb_leb; [discriminate | exact Hirr].
  - split; [exact Hlt |]. intros Hx. split; [exact Hx |].
    apply not_ltb_leb; [apply nonpos_compare; exact Hx | exact Hlt].
Qed.

(** What [std::min] against a positive limit keeps. *)
Lemma min_limit_spec x m e (c := S754_finite false m e) :
  F32.ltb c c = false ->
  F32.ltb c (F32.min x c) = false /\
  (nonneg x -> nonneg (F32.min x c) /\ F32.leb (F32.min x c) c = true).
Proof.
  intros Hirr. unfold F32.min. destruct (F32.ltb c x) eqn:Hlt.
  - split; [exact Hirr |]. intros _. split; [exact I |].
    apply not_ltb_leb; [discriminate | exact Hirr].
  - split; [exact Hlt |]. intros Hx. split; [exact Hx |].
    apply not_ltb_leb; [apply nonneg_compare; exact Hx | exact Hlt].
Qed.

(** Whatever the delta and the state, the clamp holds the outward side
    of each bound. *)
Lemma processScroll_notBeyondLimits y vc : notBeyondLimits (processScroll y vc).
Proof.
  unfold notBeyondLimits, processScroll.
  cbn [orthographicLeft orthographicRight orthographicBottom orthographicTop].
  change (F32.opp (F32.lit 3200 1)) with (S754_finite true 13107200 (-12)).
  change (F32.lit 3200 1) with (S754_finite false 13107200 (-12)).
  change (F32.opp (F32.lit 1800 1)) with (S754_finite true 14745600 (-13)).
  change (F32.lit 1800 1) with (S754_finite false 14745600 (-13)).
  repeat split.
  - apply (proj1 (max_limit_spec _ 13107200 (-12) eq_refl)).
  - apply (proj1 (min_limit_spec _ 13107200 (-12) eq_refl)).
  - apply (proj1 (max_limit_spec _ 14745600 (-13) eq_refl)).
  - apply (proj1 (min_limit_spec _ 14745600 (-13) eq_refl)).
Qed.

Lemma properZoom_shape y :
  properZoom y -> exists m e, zoomFactorOf y = S754_finite false m e.
Proof.
  unfold properZoom. intros [Hpos Hfin].
  destruct (zoomFactorOf y) as [s | s | | [] m e]; cbn in *; try discriminate.
  exists m, e. reflexivity.
Qed.

(** A positive finite zoom factor keeps the origin in the box, and the
    clamp then holds all four bounds within the limits. *)
Lemma processScroll_straddles y vc :
  straddles vc -> properZoom y ->
  straddles (processScroll y vc) /\ withinLimits (processScroll y vc).
Proof.
  intros (Hl & Hr & Hb & Ht) Hy.
  destruct (properZoom_shape y Hy) as (m & e & Hzf).
  apply leb_zero_nonpos in Hl, Hb. apply zero_leb_nonneg in Hr, Ht.
  unfold straddles, withinLimits, processScroll. rewrite Hzf.
  cbn [orthographicLeft orthographicRight orthographicBottom orthographicTop].
  change (F32.opp (F32.lit 3200 1)) with (S754_finite true 13107200 (-12)).
  change (F32.lit 3200 1) with (S754_finite false 13107200 (-12)).
  change (F32.opp (F32.lit 1800 1)) with (S754_finite true 14745600 (-13)).
  change (F32.lit 1800 1) with (S754_finite false 14745600 (-13)).
  pose proof (SFmul_nonpos F32.prec F32.emax _ m e Hl) as Hl'.
  pose proof (SFmul_nonneg F32.prec F32.emax _ m e Hr) as Hr'.
  pose proof (SFmul_nonpos F32.prec F32.emax _ m e Hb) as Hb'.
  pose proof (SFmul_nonneg F32.prec F32.emax _ m e Ht) as Ht'.
  destruct (proj2 (max_limit_spec _ 13107200 (-12) eq_refl) Hl') as [? ?].
  destruct (proj2 (min_limit_spec _ 13107200 (-12) eq_refl) Hr') as [? ?].
  destruct (proj2 (max_limit_spec _ 14745600 (-13) eq_refl) Hb') as [? ?].
  destruct (proj2 (min_limit_spec _ 14745600 (-13) eq_refl) Ht') as [? ?].
  repeat split;
    first [ assumption | apply nonpos_leb_zero; assumption | apply nonneg_zero_leb; assumption ].
Qed.

Lemma processScrolls_app ds y vc :
  processScrolls (ds ++ [y]) vc = processScroll y (processScrolls ds vc).
Proof. unfold processScrolls. rewrite fold_left_app. reflexivity. Qed.

Lemma processScrolls_straddles deltas vc :
  straddles vc -> Forall properZoom deltas -> straddles (processScrolls deltas vc).
Proof.
  intros Hvc Hds. revert vc Hvc. unfold processScrolls.
  induction Hds as [| y deltas Hy _ IH]; intros vc Hvc; cbn [fold_left].
  - exact Hvc.
  - apply IH. apply processScroll_straddles; assumption.
Qed.

(** C1, as the code has it.  After every call of a run of scroll events,
    whatever the deltas and the starting bounds, no bound is beyond the
    limit the clamp gives it: never left < -3200, right > 3200,
    bottom < -1800 or top > 1800.  When moreover the run starts from
    left <= 0 <= right and bottom <= 0 <= top and every zoom factor is a
    positive finite number, then after every call
    -3200 <= left <= 0 <= right <= 3200 and
    -1800 <= bottom <= 0 <= top <= 1800. *)
Theorem processScrolls_bounds (deltas : list double) (vc : ViewController) :
  deltas <> [] ->
  notBeyondLimits (processScrolls deltas vc) /\
  (straddles vc -> Forall properZoom deltas ->
   straddles (processScrolls deltas vc) /\ withinLimits (processScrolls deltas vc)).
Proof.
  intros Hne. destruct (exists_last Hne) as (ds & y & ->).
  rewrite processScrolls_app. split.
  - apply processScroll_notBeyondLimits.
  - intros Hvc Hall. apply Forall_app in Hall. destruct Hall as [Hds Hy].
    apply processScroll_straddles.
    + apply processScrolls_straddles; assumption.
    + inversion Hy; assumption.
Qed.

Lemma processScrolls_bounds_witness :
  sampleDeltas <> [] /\ straddles viewDefault /\ Forall properZoom sampleDeltas /\
  notBeyondLimits (processScrolls sampleDeltas viewDefault) /\
  straddles (processScrolls sampleDeltas viewDefault) /\
  withinLimits (processScrolls sampleDeltas viewDefault).
Proof.
  assert (sampleDeltas <> []) as Hne by discriminate.
  assert (straddles viewDefault) as Hvc by (repeat split).
  assert (Forall properZoom sampleDeltas) as Hall by (repeat constructor).
  destruct (processScrolls_bounds sampleDeltas viewDefault Hne) as [Hout Hin].
  destruct (Hin Hvc Hall) as [Hs Hw].
  repeat split; assumption.
Defined.

(** C1 as stated fails.  A delta of 20 gives a zoom factor of -1, which
    swaps the sides: from left = -100 < right = 100 and
    bottom = -50 < top = 50 one call leaves left = 100, right = -100,
    bottom = 50, top = -50.  And with a delta of 0, bounds that start
    beyond the extent stay there: left = 5000 < right = 6000 becomes
    left = 5000, right = 3200. *)
Lemma processScroll_order_broken :
  (F32.ltb (orthographicLeft viewSmall) (orthographicRight viewSmall) = true /\
   F32.ltb (orthographicBottom viewSmall) (orthographicTop viewSmall) = true /\
   processScroll (F64.of_Z 20) viewSmall
   = mkViewController (F32.of_Z 100) (F32.of_Z (-100)) (F32.of_Z 50) (F32.of_Z (-50)) /\
   F32.ltb (orthographicLeft (processScroll (F64.of_Z 20) viewSmall))
     (orthographicRight (processScroll (F64.of_Z 20) viewSmall)) = false /\
   F32.ltb (orthographicBottom (processScroll (F64.of_Z 20) viewSmall))
     (orthographicTop (processScroll (F64.of_Z 20) viewSmall)) = false) /\
  (F32.ltb (orthographicLeft viewWide) (orthographicRight viewWide) = true /\
   F32.ltb (orthographicBottom viewWide) (orthographicTop viewWide) = true /\
   orthographicLeft (processScroll (F64.of_Z 0) viewWide) = F32.of_Z 5000 /\
   orthographicRight (processScroll (F64.of_Z 0) viewWide) = F32.of_Z 3200 /\
   F32.ltb (orthographicLeft (processScroll (F64.of_Z 0) viewWide))
     (orthographicRight (processScroll (F64.of_Z 0) viewWide)) = false /\
   F32.leb (orthographicLeft (processScroll (F64.of_Z 0) viewWide)) (F32.lit 3200 1) = false).
Proof. vm_compute. repeat split. Qed.

(** The orderings of C1 cannot be strict, even for a positive zoom
    factor: a delta of 6 (zoom factor 0.4) takes bounds of the smallest
    magnitude to -0 and +0, which are equal. *)
Remark zoom_in_underflow :
  F32.ltb (orthographicLeft viewTiny) (orthographicRight viewTiny) = true /\
  properZoom (F64.of_Z 6) /\
  processScroll (F64.of_Z 6) viewTiny
  = mkViewController (S754_zero true) (S754_zero false) (S754_zero true) (S754_zero false) /\
  F32.ltb (orthographicLeft (processScroll (F64.of_Z 6) viewTiny))
    (orthographicRight (processScroll (F64.of_Z 6) viewTiny)) = false.
Proof. vm_compute. repeat split. Qed.

(** ** The scene projection *)

Section ProjectionFacts.
Variable normalized : Vector3.t -> Vector3.t.
Variable atan2 : float -> float -> float.

(** [renderVehicle] reads the road only through its direction and its
    lane-position query. *)
Lemma renderVehicle_ext v road road' :
  RoadSegment.getDirection road' = RoadSegment.getDirection road ->
  RoadSegment.getLanePositionAlongRoad road' = RoadSegment.getLanePositionAlongRoad road ->
  renderVehicle atan2 v road' = renderVehicle atan2 v road.
Proof. intros Hd Hp. unfold renderVehicle. rewrite Hd, Hp. reflexivity. Qed.

Lemma renderVehicles_ext vs road road' :
  RoadSegment.getDirection road' = RoadSegment.getDirection road ->
  RoadSegment.getLanePositionAlongRoad road' = RoadSegment.getLanePositionAlongRoad road ->
  renderVehicles atan2 vs road' = renderVehicles atan2 vs road.
Proof.
  intros Hd Hp. induction vs as [| [v |] vs IH]; cbn [renderVehicles].
  - reflexivity.
  - rewrite IH, (renderVehicle_ext v road road' Hd Hp). reflexivity.
  - exact IH.
Qed.

Lemma renderVehicles_present vs road :
  renderVehicles atan2 vs road
  = flat_map (fun v => renderVehicle atan2 v road) (presentVehicles vs).
Proof.
  induction vs as [| [v |] vs IH]; cbn [renderVehicles presentVehicles flat_map].
  - reflexivity.
  - rewrite IH. reflexivity.
  - exact IH.
Qed.

Lemma presentVehicles_In v vs : In (Some v) vs <-> In v (presentVehicles vs).
Proof.
  induction vs as [| [w |] vs IH]; cbn [presentVehicles In].
  - tauto.
  - split; intros [H | H]; [left; congruence | right; tauto | left; congruence | right; tauto].
  - split; [intros [H | H]; [discriminate | tauto] | intros H; right; tauto].
Qed.

Lemma presentVehicles_map_Some vs : presentVehicles (map Some vs) = vs.
Proof. induction vs as [| v vs IH]; cbn; [reflexivity | rewrite IH; reflexivity]. Qed.

(** The three ways out of [renderRoadSegment] that draw nothing or
    everything. *)
Lemma renderRoadSegment_rendered vc road sj ej markings :
  RoadSegment.getStartJunction road = Some sj ->
  RoadSegment.getEndJunction road = Some ej ->
  F32.leb (adjustedLength (roadFrame normalized atan2 vc road sj ej)) (F32.lit 1 1000) = false ->
  laneMarkings (roadFrame normalized atan2 vc road sj ej)
    (to_size_t (RoadSegment.getLaneCount road)) 1 (RoadSegment.getLanes road) = Some markings ->
  renderRoadSegment normalized atan2 vc road
  = Some (roadBody (roadFrame normalized atan2 vc road sj ej) :: markings
            ++ renderVehicles atan2 (RoadSegment.getVehicles road) road).
Proof.
  intros Hs He Hlen Hm. unfold renderRoadSegment. rewrite Hs, He.
  cbv zeta. rewrite Hlen, Hm. reflexivity.
Qed.

Lemma renderRoadSegment_nonempty vc road cmds :
  renderRoadSegment normalized atan2 vc road = Some cmds -> cmds <> [] ->
  exists sj ej markings,
    RoadSegment.getStartJunction road = Some sj /\
    RoadSegment.getEndJunction road = Some ej /\
    F32.leb (adjustedLength (roadFrame normalized atan2 vc road sj ej)) (F32.lit 1 1000) = false /\
    laneMarkings (roadFrame normalized atan2 vc road sj ej)
      (to_size_t (RoadSegment.getLaneCount road)) 1 (RoadSegment.getLanes road) = Some markings /\
    cmds = roadBody (roadFrame normalized atan2 vc road sj ej) :: markings
             ++ renderVehicles atan2 (RoadSegment.getVehicles road) road.
Proof.
  unfold renderRoadSegment. intros H Hne.
  destruct (RoadSegment.getStartJunction road) as [sj |]; [| congruence].
  destruct (RoadSegment.getEndJunction road) as [ej |]; [| congruence].
  cbv zeta in H.
  destruct (F32.leb _ _) eqn:Hlen; [congruence |].
  destruct (laneMarkings _ _ _ _) as [markings |] eqn:Hm; [| discriminate].
  exists sj, ej, markings. injection H as <-. repeat split; assumption || reflexivity.
Qed.

(** C6. A road whose start junction or end junction is missing is passed
    over: rendering it returns normally and issues no draw command. *)
Theorem renderRoadSegment_missing_junction (vc : ViewController) (road : RoadSegment.t) :
  RoadSegment.getStartJunction road = None \/ RoadSegment.getEndJunction road = None ->
  renderRoadSegment normalized atan2 vc road = Some [].
Proof.
  unfold renderRoadSegment. intros [H | H]; rewrite H.
  - reflexivity.
  - destruct (RoadSegment.getStartJunction road); reflexivity.
Qed.

(** C10. Null entries of a road's vehicle list are passed over: the
    vehicle commands are those of [renderVehicle] on the non-null
    entries, one each and in order, and rendering the road with the null
    entries is rendering it with them taken out, failure included. *)
Theorem null_vehicles_skipped (vc : ViewController) (road : RoadSegment.t)
  (vehicles : list (option Vehicle.t)) :
  renderVehicles atan2 vehicles road
  = flat_map (fun v => renderVehicle atan2 v road) (presentVehicles vehicles) /\
  length (renderVehicles atan2 vehicles road) = length (presentVehicles vehicles) /\
  renderRoadSegment normalized atan2 vc (withVehicles vehicles road)
  = renderRoadSegment normalized atan2 vc
      (withVehicles (map Some (presentVehicles vehicles)) road).
Proof.
  split; [apply renderVehicles_present | split].
  - rewrite renderVehicles_present.
    induction (presentVehicles vehicles) as [| v vs IH]; cbn; [reflexivity | rewrite IH; reflexivity].
  - unfold renderRoadSegment, withVehicles. cbn [RoadSegment.getStartJunction
      RoadSegment.getEndJunction RoadSegment.getLanes RoadSegment.getLaneCount
      RoadSegment.getVehicles].
    destruct (RoadSegment.getStartJunction road) as [sj |]; [| reflexivity].
    destruct (RoadSegment.getEndJunction road) as [ej |]; [| reflexivity].
    cbv zeta. unfold roadFrame. cbn [RoadSegment.getDimensions RoadSegment.getLaneCount].
    destruct (F32.leb _ _); [reflexivity |].
    destruct (laneMarkings _ _ _ _); [| reflexivity].
    do 3 f_equal.
    rewrite !renderVehicles_present, presentVehicles_map_Some.
    apply flat_map_ext. intros v. apply renderVehicle_ext; reflexivity.
Qed.


(** C7. On a road that is drawn, every vehicle of the list has its draw
    command in the road's commands, and the translation of that command
    is (p.x, 0.02, p.z) for p the road's lane position at the vehicle's
    lane and distance. *)
Theorem vehicle_translation (vc : ViewController) (road : RoadSegment.t)
  (cmds : list DrawCommand) (vehicle : Vehicle.t) :
  renderRoadSegment normalized atan2 vc road = Some cmds ->
  cmds <> [] ->
  In (Some vehicle) (RoadSegment.getVehicles road) ->
  let p := RoadSegment.getLanePositionAlongRoad road
             (Vehicle.getCurrentLane vehicle) (Vehicle.getDistanceAlongRoad vehicle) in
  exists cmd,
    renderVehicle atan2 vehicle road = [cmd] /\ In cmd cmds /\
    translationOf cmd = Some (vec3_of (Vector3.x p) (F32.lit 2 100) (Vector3.z p)).
Proof.
  intros Hr Hne Hin p.
  destruct (renderRoadSegment_nonempty vc road cmds Hr Hne)
    as (sj & ej & markings & _ & _ & _ & _ & ->).
  eexists. split; [reflexivity | split].
  - right. apply in_or_app. right. rewrite renderVehicles_present.
    apply in_flat_map. exists vehicle. split.
    + apply presentVehicles_In. exact Hin.
    + left. reflexivity.
  - reflexivity.
Qed.

(** C4. Both ends are trimmed by the radius of the start junction:
    adjustedStart = start + dir * r_s and adjustedEnd = end - dir * r_s
    with dir = normalized (end - start); and the radius of the end
    junction has no part in what is drawn. *)
Theorem trim_uses_start_radius (vc : ViewController) (road : RoadSegment.t)
  (startJunction endJunction : Junction.t) (r : float) :
  RoadSegment.getStartJunction road = Some startJunction ->
  RoadSegment.getEndJunction road = Some endJunction ->
  let startPos := Junction.getPosition startJunction in
  let endPos := Junction.getPosition endJunction in
  let dir := normalized (Vector3.sub endPos startPos) in
  let f := roadFrame normalized atan2 vc road startJunction endJunction in
  adjustedStartPos f
  = Vector3.add startPos (Vector3.scale dir (Junction.getRadius startJunction)) /\
  adjustedEndPos f
  = Vector3.sub endPos (Vector3.scale dir (Junction.getRadius startJunction)) /\
  adjustedLength f = Vector3.length (Vector3.sub (adjustedEndPos f) (adjustedStartPos f)) /\
  roadFrame normalized atan2 vc (withEndRadius r road) startJunction (withRadius r endJunction)
  = f /\
  renderRoadSegment normalized atan2 vc (withEndRadius r road)
  = renderRoadSegment normalized atan2 vc road.
Proof.
  intros Hs He startPos endPos dir f.
  split; [reflexivity | split; [reflexivity | split; [reflexivity | split; [reflexivity |]]]].
  unfold renderRoadSegment, withEndRadius.
  cbn [RoadSegment.getStartJunction RoadSegment.getEndJunction RoadSegment.getLanes
       RoadSegment.getLaneCount RoadSegment.getVehicles].
  rewrite Hs, He. cbn [option_map]. cbv zeta.
  change (roadFrame normalized atan2 vc _ startJunction (withRadius r endJunction)) with f.
  destruct (F32.leb _ _); [reflexivity |].
  destruct (laneMarkings _ _ _ _); [| reflexivity].
  do 3 f_equal. apply renderVehicles_ext; reflexivity.
Qed.

End ProjectionFacts.

Lemma drawRectangle_reading position scale color :
  exists cmd, drawRectangle position scale color = [cmd] /\
    translationOf cmd = Some position /\ scaleOf cmd = Some scale /\
    objectColor cmd = color.
Proof. eexists. split; [reflexivity |]. repeat split. Qed.

(** C8. A traffic-light junction with one connected road whose light is
    RED issues two commands: its body, at (x, 0.01, z) with scale
    (2r, 0.5, 2r) in the traffic-light grey, and one marker of colour
    (1, 0, 0) at (entry.x, 0.5, entry.z), entry being the junction's entry
    point for that road.  In a frame they come together, in this order. *)
Theorem red_light_junction (junction : Junction.t) (lights : TrafficLightJunction.t)
  (road : RoadRef) :
  Junction.asTrafficLight junction = Some lights ->
  TrafficLightJunction.getConnectedRoads lights = [road] ->
  TrafficLightJunction.getLightState lights road = RED ->
  let pos := Junction.getPosition junction in
  let radius := Junction.getRadius junction in
  let entry := TrafficLightJunction.getEntryPoint lights road in
  exists body marker,
    renderJunction junction = [body; marker] /\
    translationOf body = Some (vec3_of (Vector3.x pos) (F32.lit 1 100) (Vector3.z pos)) /\
    scaleOf body
    = Some (vec3_of (F32.mul radius (F32.of_Z 2)) (F32.lit 5 10) (F32.mul radius (F32.of_Z 2))) /\
    objectColor body = vec3_of (F32.lit 5 10) (F32.lit 5 10) (F32.lit 6 10) /\
    translationOf marker
    = Some (vec3_of (Vector3.x entry) (F32.lit 5 10) (Vector3.z entry)) /\
    objectColor marker = vec3_of (F32.of_Z 1) (F32.of_Z 0) (F32.of_Z 0) /\
    forall normalized atan2 vc sim cmds,
      render normalized atan2 vc (Some sim) = Some cmds ->
      In junction (SimulationModel.getAllJunctions sim) ->
      exists before after, cmds = before ++ [body; marker] ++ after.
Proof.
  intros Hl Hroads Hred pos radius entry.
  eexists. eexists. split.
  - unfold renderJunction, renderTrafficLights, renderTrafficLight.
    rewrite Hl, Hroads. cbn [flat_map]. rewrite Hred. reflexivity.
  - repeat split.
    intros normalized atan2 vc sim cmds Hr Hin.
    unfold render in Hr.
    destruct (renderRoadSegments _ _ _ _) as [roadCmds |]; [| discriminate].
    injection Hr as <-.
    apply in_split in Hin. destruct Hin as (js1 & js2 & ->).
    rewrite flat_map_app. cbn [flat_map].
    exists (roadCmds ++ flat_map renderJunction js1), (flat_map renderJunction js2).
    rewrite <- !app_assoc. do 2 f_equal.
    unfold renderJunction at 1, renderTrafficLights, renderTrafficLight.
    rewrite Hl, Hroads. cbn [flat_map]. rewrite Hred. reflexivity.
Qed.

(** ** Lane markings *)


Lemma laneMarkings_step f bound i a b rest :
  i < bound ->
  laneMarkings f bound i (a :: b :: rest)
  = match laneBoundary f i a b, laneMarkings f bound (i + 1) (b :: rest) with
    | Some cmds, Some more => Some (cmds ++ more)
    | _, _ => None
    end.
Proof.
  intros Hlt.
  change (laneMarkings f bound i (a :: b :: rest))
    with (if i <? bound
          then match laneBoundary f i a b, laneMarkings f bound (i + 1) (b :: rest) with
               | Some cmds, Some more => Some (cmds ++ more)
               | _, _ => None
               end
          else Some []).
  rewrite (proj2 (Z.ltb_lt _ _) Hlt). reflexivity.
Qed.















(** ** Degenerate roads *)





Lemma trimmed_infinite s q :
  F32.sub (F32.sub (S754_infinity s) q) (F32.add (S754_infinity s) q) = S754_nan.
Proof. destruct q as [sq | sq | | sq m e], s; try destruct sq; reflexivity. Qed.

Lemma length_nan_x y z : Vector3.length (Vector3.mk S754_nan y z) = S754_nan.
Proof.
  unfold Vector3.length. cbn [Vector3.x Vector3.y Vector3.z].
  generalize (F32.mul y y) (F32.mul z z). intros a b.
  destruct a as [sa | sa | | sa ma ea], b as [sb | sb | | sb mb eb]; reflexivity.
Qed.

Section Degenerate.
Variable normalized : Vector3.t -> Vector3.t.
Variable atan2 : float -> float -> float.


(** The finiteness of the position is needed whatever [normalized] is:
    when the shared position is infinite along x, both trimmed ends are
    infinite or NaN there, their difference is a NaN, the adjusted length
    is a NaN, the test [adjustedLength <= 0.001f] fails and the road is
    not passed over. *)
Remark coincident_junctions_infinite (vc : ViewController) (road : RoadSegment.t)
  (startJunction endJunction : Junction.t) (s : bool) :
  RoadSegment.getStartJunction road = Some startJunction ->
  RoadSegment.getEndJunction road = Some endJunction ->
  Junction.getPosition startJunction = Junction.getPosition endJunction ->
  Vector3.x (Junction.getPosition startJunction) = S754_infinity s ->
  adjustedLength (roadFrame normalized atan2 vc road startJunction endJunction) = S754_nan /\
  renderRoadSegment normalized atan2 vc road <> Some [].
Proof.
  intros Hs He Hpos Hx.
  assert (adjustedLength (roadFrame normalized atan2 vc road startJunction endJunction)
          = S754_nan) as Hlen.
  { unfold roadFrame. cbn [adjustedLength]. rewrite <- Hpos.
    destruct (Junction.getPosition startJunction) as [px py pz].
    cbn [Vector3.x] in Hx. subst px.
    destruct (normalized _) as [dx dy dz].
    unfold Vector3.sub at 1, Vector3.add, Vector3.scale.
    unfold Vector3.sub. cbn [Vector3.x Vector3.y Vector3.z].
    rewrite trimmed_infinite. apply length_nan_x. }
  split; [exact Hlen |].
  unfold renderRoadSegment. rewrite Hs, He. cbv zeta. rewrite Hlen.
  change (F32.leb S754_nan (F32.lit 1 1000)) with false. cbv iota.
  destruct (laneMarkings _ _ _ _); discriminate.
Qed.

End Degenerate.



(** When the normalisation divides by a length of zero, the direction is
    NaN, the adjusted length is NaN, the test [adjustedLength <= 0.001f]
    fails and the road is not passed over: the body is drawn and the dash
    count is the conversion of a NaN to [int]. *)
Remark coincident_junctions_unguarded :
  F32.leb
    (adjustedLength
       (roadFrame normalized_unguarded atan2_east viewDefault pointRoad junctionEast
          junctionEast))
    (F32.lit 1 1000) = false /\
  renderRoadSegment normalized_unguarded atan2_east viewDefault pointRoad = None.
Proof. vm_compute. split; reflexivity. Qed.

(** ** The sample scene *)

Lemma renderRoadSegment_missing_junction_witness :
  RoadSegment.getStartJunction danglingRoad = None /\
  renderRoadSegment normalized_guarded atan2_east viewDefault danglingRoad = Some [].
Proof.
  split; [reflexivity |].
  apply renderRoadSegment_missing_junction. left. reflexivity.
Defined.

Lemma vehicle_translation_witness :
  RoadSegment.getLanePositionAlongRoad sampleRoad 0 (F32.of_Z 50) = vector3_of_Z 12 0 34 /\
  exists cmds cmd,
    renderRoadSegment normalized_guarded atan2_east viewDefault sampleRoad = Some cmds /\
    renderVehicle atan2_east sampleVehicle sampleRoad = [cmd] /\ In cmd cmds /\
    translationOf cmd = Some (vec3_of (F32.of_Z 12) (F32.lit 2 100) (F32.of_Z 34)).
Proof.
  split; [reflexivity |].
  destruct (renderRoadSegment normalized_guarded atan2_east viewDefault sampleRoad)
    as [cmds |] eqn:Hr; [| vm_compute in Hr; discriminate].
  assert (cmds <> []) as Hne.
  { intros ->. vm_compute in Hr. discriminate. }
  assert (In (Some sampleVehicle) (RoadSegment.getVehicles sampleRoad)) as Hin
    by (right; left; reflexivity).
  destruct (vehicle_translation normalized_guarded atan2_east viewDefault sampleRoad cmds
              sampleVehicle Hr Hne Hin) as (cmd & Hcmd & Hc & Ht).
  exists cmds, cmd. repeat split; assumption.
Defined.

Lemma trim_uses_start_radius_witness :
  Junction.getRadius junctionWest = F32.of_Z 0 /\
  Junction.getRadius junctionEast = F32.of_Z 5 /\
  adjustedLength sampleFrame = F32.of_Z 103 /\
  renderRoadSegment normalized_guarded atan2_east viewDefault
    (withEndRadius (F32.of_Z 40) sampleRoad)
  = renderRoadSegment normalized_guarded atan2_east viewDefault sampleRoad.
Proof.
  split; [reflexivity | split; [reflexivity | split; [vm_compute; reflexivity |]]].
  apply (trim_uses_start_radius normalized_guarded atan2_east viewDefault sampleRoad
           junctionWest junctionEast (F32.of_Z 40) eq_refl eq_refl).
Defined.



Lemma red_light_junction_witness :
  exists body marker,
    renderJunction junctionLit = [body; marker] /\
    translationOf marker = Some (vec3_of (F32.of_Z 98) (F32.lit 5 10) (F32.of_Z 0)) /\
    objectColor marker = vec3_of (F32.of_Z 1) (F32.of_Z 0) (F32.of_Z 0) /\
    exists frame before after,
      render normalized_guarded atan2_east viewDefault (Some sampleScene) = Some frame /\
      frame = before ++ [body; marker] ++ after.
Proof.
  destruct (red_light_junction junctionLit sampleLights 7%nat eq_refl eq_refl eq_refl)
    as (body & marker & Hj & _ & _ & _ & Ht & Hc & Hframe).
  exists body, marker. split; [exact Hj | split; [exact Ht | split; [exact Hc |]]].
  destruct (render normalized_guarded atan2_east viewDefault (Some sampleScene))
    as [frame |] eqn:Hr; [| vm_compute in Hr; discriminate].
  destruct (Hframe normalized_guarded atan2_east viewDefault sampleScene frame Hr)
    as (before & after & Heq).
  - right. left. reflexivity.
  - exists frame, before, after. split; [reflexivity | exact Heq].
Defined.

(** The frame of the sample scene: the road body, eleven dashes, one
    solid line and one vehicle, then the body of each junction and the
    red marker. *)
Example sampleScene_frame :
  option_map (@length _) (render normalized_guarded atan2_east viewDefault (Some sampleScene))
  = Some 17%nat /\
  render normalized_guarded atan2_east viewDefault None = Some [].
Proof. vm_compute. split; reflexivity. Qed.


(** * Further properties *)

(** ** The input handlers *)

Lemma whenPressed_fst_y pressed update camera :
  (forall p, glm.y (update p) = glm.y p) ->
  glm.y (fst (whenPressed pressed update camera)) = glm.y (fst camera).
Proof. intros H. unfold whenPressed. destruct pressed; cbn [fst]; [apply H | reflexivity]. Qed.

Lemma glfwPollEvents_fields pending : forall v,
  ortho (glfwPollEvents pending v) = processScrolls (map snd pending) (ortho v) /\
  cameraPos (glfwPollEvents pending v) = cameraPos v /\
  cameraTarget (glfwPollEvents pending v) = cameraTarget v /\
  cameraUp (glfwPollEvents pending v) = cameraUp v /\
  windowShouldClose (glfwPollEvents pending v) = windowShouldClose v.
Proof.
  unfold glfwPollEvents, processScrolls.
  induction pending as [| event pending IH]; intros v; cbn [fold_left map].
  - repeat split.
  - cbn [scrollCallBack].
    destruct (IH (mkViewer (processScroll (snd event) (ortho v)) (cameraPos v) (cameraTarget v)
                    (cameraUp v) (windowShouldClose v))) as (Ho & Hp & Ht & Hu & Hw).
    cbn [ortho cameraPos cameraTarget cameraUp windowShouldClose] in Ho, Hp, Ht, Hu, Hw.
    repeat split; assumption.
Qed.

Lemma processEvents_polled pending keys v :
  processEvents pending keys v = processEvents [] keys (glfwPollEvents pending v).
Proof. reflexivity. Qed.

Lemma processEvents_fields pending keys v :
  ortho (snd (processEvents pending keys v)) = processScrolls (map snd pending) (ortho v) /\
  cameraUp (snd (processEvents pending keys v)) = cameraUp v /\
  glm.y (cameraPos (snd (processEvents pending keys v))) = glm.y (cameraPos v) /\
  windowShouldClose (snd (processEvents pending keys v)) = windowShouldClose v || keyEscape keys.
Proof.
  destruct (glfwPollEvents_fields pending v) as (Ho & Hp & _ & Hu & Hw).
  rewrite <- Ho, <- Hu, <- Hp, <- Hw.
  unfold processEvents. cbv zeta.
  destruct (keyEscape keys); cbn [snd ortho cameraUp cameraPos windowShouldClose].
  - rewrite orb_true_r. repeat split.
  - rewrite orb_false_r. repeat split.
    rewrite !whenPressed_fst_y by reflexivity. reflexivity.
Qed.

Lemma processEvents_target pending keys v :
  keyEscape keys = false ->
  cameraTarget (snd (processEvents pending keys v))
  = vec3_of (glm.x (cameraPos (snd (processEvents pending keys v)))) (F32.lit 0 1)
      (glm.z (cameraPos (snd (processEvents pending keys v)))).
Proof. intros H. unfold processEvents. cbv zeta. rewrite H. reflexivity. Qed.

Lemma processEvents_escape pending keys v :
  keyEscape keys = true ->
  snd (processEvents pending keys v)
  = mkViewer (processScrolls (map snd pending) (ortho v)) (cameraPos v) (cameraTarget v)
      (cameraUp v) true.
Proof.
  intros H. destruct (glfwPollEvents_fields pending v) as (Ho & Hp & Ht & Hu & _).
  unfold processEvents. cbv zeta. rewrite H. cbn [snd]. rewrite Ho, Hp, Ht, Hu. reflexivity.
Qed.

Lemma call_lookingDown v c :
  lookingDown v ->
  lookingDown (call v c) /\ glm.y (cameraPos (call v c)) = glm.y (cameraPos v).
Proof.
  intros [Ht Hu]. destruct c as [xOffset yOffset | deltaX deltaY | pending keys]; cbn [call].
  - split; [split |]; assumption || reflexivity.
  - split; [split |]; [reflexivity | exact Hu | reflexivity].
  - destruct (processEvents_fields pending keys v) as (_ & Hup & Hy & _).
    split; [split |]; [| rewrite Hup; exact Hu | exact Hy].
    destruct (keyEscape keys) eqn:Hesc.
    + rewrite (processEvents_escape pending keys v Hesc). exact Ht.
    + apply processEvents_target. exact Hesc.
Qed.

(** X1. From the camera the constructor sets up, whatever calls follow
    (scroll events, pans, key polls, in any number and order), the camera
    stays at height 100 and looks straight down: its target is the point
    (pos.x, 0, pos.z) below it and its up vector is (0, 0, -1). *)
Theorem camera_stays_top_down (initialBounds : ViewController) (cs : list Call) :
  lookingDown (calls cs (setUpCamera initialBounds)) /\
  glm.y (cameraPos (calls cs (setUpCamera initialBounds))) = F32.lit 100 1.
Proof.
  assert (forall v, lookingDown v ->
            lookingDown (calls cs v) /\
            glm.y (cameraPos (calls cs v)) = glm.y (cameraPos v)) as H.
  { unfold calls. induction cs as [| c cs IH]; intros v Hv; cbn [fold_left].
    - split; [exact Hv | reflexivity].
    - destruct (call_lookingDown v c Hv) as [Hd Hy].
      destruct (IH (call v c) Hd) as [Hd' Hy'].
      split; [exact Hd' | congruence]. }
  destruct (H (setUpCamera initialBounds)) as [Hd Hy].
  - split; reflexivity.
  - split; [exact Hd | rewrite Hy; reflexivity].
Qed.

Lemma call_ortho v c :
  ortho (call v c)
  = match c with
    | Scrolled _ yOffset => processScroll yOffset (ortho v)
    | MoveCamera _ _ => ortho v
    | ProcessEvents pending _ => processScrolls (map snd pending) (ortho v)
    end.
Proof.
  destruct c as [xOffset yOffset | deltaX deltaY | pending keys]; cbn [call];
    [reflexivity | reflexivity | apply processEvents_fields].
Qed.

Lemma calls_scrolled_camera cs : forall v,
  forallb isScrolled cs = true ->
  cameraPos (calls cs v) = cameraPos v /\ cameraTarget (calls cs v) = cameraTarget v.
Proof.
  unfold calls. induction cs as [| c cs IH]; intros v Hall; cbn [fold_left].
  - split; reflexivity.
  - cbn [forallb] in Hall. apply andb_prop in Hall. destruct Hall as [Hc Hall].
    destruct c as [xOffset yOffset | deltaX deltaY | pending keys]; try discriminate Hc.
    exact (IH _ Hall).
Qed.

(** X2. The bounds belong to the scroll events: after any run of calls
    they are what [processScroll] gives on the vertical deltas of the
    run's scroll events, in the order the callback got them, whether an
    event was handed over on its own or dispatched by the
    [glfwPollEvents] that opens [processEvents]; so one call of
    [processEvents] leaves the bounds its waiting scroll events give, and
    moves them only by these.  Pans and the reading of the keys never
    touch the bounds: a run in which no scroll event is dispatched leaves
    the bounds, and with them the zoom level, as they are.  And a run of
    scroll events alone leaves the camera where it was. *)
Theorem bounds_follow_scrolls (cs : list Call) (v : Viewer)
  (pending : list (double * double)) (keys : Keys) :
  ortho (calls cs v) = processScrolls (scrollDeltas cs) (ortho v) /\
  ortho (snd (processEvents pending keys v)) = processScrolls (map snd pending) (ortho v) /\
  (scrollDeltas cs = [] ->
   ortho (calls cs v) = ortho v /\
   getCurrentZoomLevel (ortho (calls cs v)) = getCurrentZoomLevel (ortho v)) /\
  (forallb isScrolled cs = true ->
   cameraPos (calls cs v) = cameraPos v /\ cameraTarget (calls cs v) = cameraTarget v).
Proof.
  assert (ortho (calls cs v) = processScrolls (scrollDeltas cs) (ortho v)) as H.
  { unfold calls, processScrolls. revert v.
    induction cs as [| c cs IH]; intros v; cbn [fold_left scrollDeltas flat_map].
    - reflexivity.
    - rewrite IH, call_ortho, fold_left_app.
      destruct c; reflexivity. }
  split; [exact H | split; [apply processEvents_fields | split]].
  - intros Hnone. rewrite H, Hnone. split; reflexivity.
  - apply calls_scrolled_camera.
Qed.

Lemma bounds_follow_scrolls_witness :
  scrollDeltas [MoveCamera (F32.of_Z 2) (F32.of_Z (-1)); ProcessEvents [] keysEscapeWD] = [] /\
  ortho (calls [MoveCamera (F32.of_Z 2) (F32.of_Z (-1)); ProcessEvents [] keysEscapeWD]
           (setUpCamera viewDefault))
  = ortho (setUpCamera viewDefault) /\
  ortho (snd (processEvents sampleQueue keysW (setUpCamera viewDefault)))
  = processScrolls [F64.of_Z 20; F64.of_Z (-1)] viewDefault.
Proof.
  split; [reflexivity |].
  destruct (bounds_follow_scrolls
              [MoveCamera (F32.of_Z 2) (F32.of_Z (-1)); ProcessEvents [] keysEscapeWD]
              (setUpCamera viewDefault) sampleQueue keysW) as (_ & Hpoll & Hnone & _).
  split; [exact (proj1 (Hnone eq_refl)) | exact Hpoll].
Defined.

(** X3. [processEvents] answers false exactly when Escape is held after
    its poll, and then the camera does not move, whatever other keys are
    held: the object is left as the poll's scroll events leave it (they
    move the bounds only), with the window asked to close.  And this
    request, once made, is never taken back by the object: after a run of
    calls it stands exactly when it stood before or some [processEvents]
    of the run saw Escape. *)
Theorem escape_closes (pending : list (double * double)) (keys : Keys) (cs : list Call)
  (v : Viewer) :
  fst (processEvents pending keys v) = negb (keyEscape keys) /\
  (keyEscape keys = true ->
   snd (processEvents pending keys v)
   = mkViewer (processScrolls (map snd pending) (ortho v)) (cameraPos v) (cameraTarget v)
       (cameraUp v) true) /\
  windowShouldClose (calls cs v) = windowShouldClose v || existsb escapePolled cs.
Proof.
  split; [| split].
  - unfold processEvents. cbv zeta. destruct (keyEscape keys); reflexivity.
  - apply processEvents_escape.
  - unfold calls. revert v. induction cs as [| c cs IH]; intros v; cbn [fold_left existsb].
    + rewrite orb_false_r. reflexivity.
    + rewrite IH, orb_assoc. f_equal.
      destruct c as [xOffset yOffset | deltaX deltaY | pending' keys']; cbn [call escapePolled].
      * rewrite orb_false_r. reflexivity.
      * rewrite orb_false_r. reflexivity.
      * apply processEvents_fields.
Qed.

Lemma escape_closes_witness :
  keyEscape keysEscapeWD = true /\
  snd (processEvents sampleQueue keysEscapeWD (setUpCamera viewDefault))
  = mkViewer (processScrolls [F64.of_Z 20; F64.of_Z (-1)] viewDefault)
      (cameraPos (setUpCamera viewDefault))
      (cameraTarget (setUpCamera viewDefault)) (cameraUp (setUpCamera viewDefault)) true.
Proof.
  split; [reflexivity |].
  exact (proj1 (proj2 (escape_closes sampleQueue keysEscapeWD [] (setUpCamera viewDefault)))
           eq_refl).
Defined.

(** ** Frames *)

Section FrameFacts.
Variable normalized : Vector3.t -> Vector3.t.
Variable atan2 : float -> float -> float.

Lemma renderRoadSegments_spec vc roads cmds :
  renderRoadSegments normalized atan2 vc roads = Some cmds <->
  exists perRoad,
    Forall2 (fun road c => renderRoadSegment normalized atan2 vc road = Some c) roads perRoad /\
    cmds = concat perRoad.
Proof.
  revert cmds. induction roads as [| road rest IH]; intros cmds; cbn [renderRoadSegments].
  - split.
    + intros H. injection H as <-. exists []. split; [constructor | reflexivity].
    + intros (perRoad & HF & ->). inversion HF. reflexivity.
  - split.
    + intros H.
      destruct (renderRoadSegment normalized atan2 vc road) as [c |] eqn:Hc; [| discriminate].
      destruct (renderRoadSegments normalized atan2 vc rest) as [more |] eqn:Hm; [| discriminate].
      injection H as <-.
      destruct (proj1 (IH more) eq_refl) as (perRoad & HF & ->).
      exists (c :: perRoad). split; [constructor; assumption | reflexivity].
    + intros (perRoad & HF & ->). inversion HF as [| r c rs cs Hc Hrest]; subst.
      rewrite Hc, (proj2 (IH (concat cs))) by (exists cs; split; [assumption | reflexivity]).
      reflexivity.
Qed.

Lemma renderRoadSegments_app vc roads1 roads2 :
  renderRoadSegments normalized atan2 vc (roads1 ++ roads2)
  = match renderRoadSegments normalized atan2 vc roads1,
          renderRoadSegments normalized atan2 vc roads2 with
    | Some c1, Some c2 => Some (c1 ++ c2)
    | _, _ => None
    end.
Proof.
  induction roads1 as [| road rest IH]; cbn [app renderRoadSegments].
  - destruct (renderRoadSegments normalized atan2 vc roads2); reflexivity.
  - rewrite IH.
    destruct (renderRoadSegment normalized atan2 vc road) as [c |]; [| reflexivity].
    destruct (renderRoadSegments normalized atan2 vc rest) as [c1 |]; [| reflexivity].
    destruct (renderRoadSegments normalized atan2 vc roads2) as [c2 |]; [| reflexivity].
    rewrite app_assoc. reflexivity.
Qed.

(** X4. A frame is the commands of each road, in the order of the road
    list, followed by the commands of each junction, in the order of the
    junction list; and it is defined exactly when every road's rendering
    is. *)
Theorem render_frame (vc : ViewController) (sim : SimulationModel.t)
  (cmds : list DrawCommand) :
  render normalized atan2 vc (Some sim) = Some cmds <->
  exists perRoad,
    Forall2 (fun road c => renderRoadSegment normalized atan2 vc road = Some c)
      (SimulationModel.getAllRoadSegments sim) perRoad /\
    cmds = concat perRoad
           ++ concat (map renderJunction (SimulationModel.getAllJunctions sim)).
Proof.
  unfold render. rewrite flat_map_concat_map. split.
  - intros H.
    destruct (renderRoadSegments normalized atan2 vc (SimulationModel.getAllRoadSegments sim))
      as [roadCmds |] eqn:Hr; [| discriminate].
    injection H as <-.
    destruct (proj1 (renderRoadSegments_spec vc _ roadCmds) Hr) as (perRoad & HF & ->).
    exists perRoad. split; [exact HF | reflexivity].
  - intros (perRoad & HF & ->).
    rewrite (proj2 (renderRoadSegments_spec vc _ (concat perRoad)))
      by (exists perRoad; split; [exact HF | reflexivity]).
    reflexivity.
Qed.

(** X5. A road is passed over without a command exactly when one of its
    junctions is missing or its adjusted length is at most 0.001: any
    other road whose rendering is defined issues at least its body. *)
Theorem renderRoadSegment_skipped_iff (vc : ViewController) (road : RoadSegment.t) :
  renderRoadSegment normalized atan2 vc road = Some [] <->
  RoadSegment.getStartJunction road = None \/
  RoadSegment.getEndJunction road = None \/
  exists startJunction endJunction,
    RoadSegment.getStartJunction road = Some startJunction /\
    RoadSegment.getEndJunction road = Some endJunction /\
    F32.leb (adjustedLength (roadFrame normalized atan2 vc road startJunction endJunction))
      (F32.lit 1 1000) = true.
Proof.
  unfold renderRoadSegment.
  destruct (RoadSegment.getStartJunction road) as [sj |]; [| split; [left; reflexivity | reflexivity]].
  destruct (RoadSegment.getEndJunction road) as [ej |];
    [| split; [right; left; reflexivity | reflexivity]].
  cbv zeta.
  destruct (F32.leb (adjustedLength (roadFrame normalized atan2 vc road sj ej)) (F32.lit 1 1000))
    eqn:Hlen.
  - split; [| reflexivity]. intros _. right. right. exists sj, ej. repeat split. exact Hlen.
  - split.
    + intros H. destruct (laneMarkings _ _ _ _); discriminate H.
    + intros [H | [H | (sj' & ej' & Hs & He & Hl)]]; try discriminate H.
      injection Hs as <-. injection He as <-. rewrite Hlen in Hl. discriminate Hl.
Qed.

(** X6. A road that is passed over has no part in the frame: taking it
    out of the road list, wherever it stands, gives the same frame,
    failure included. *)
Theorem skipped_road_leaves_frame (vc : ViewController) (sim : SimulationModel.t)
  (before after : list RoadSegment.t) (road : RoadSegment.t) :
  renderRoadSegment normalized atan2 vc road = Some [] ->
  render normalized atan2 vc (Some (withRoads (before ++ road :: after) sim))
  = render normalized atan2 vc (Some (withRoads (before ++ after) sim)).
Proof.
  intros Hskip. unfold render, withRoads.
  cbn [SimulationModel.getAllRoadSegments SimulationModel.getAllJunctions].
  rewrite !renderRoadSegments_app. cbn [renderRoadSegments]. rewrite Hskip.
  destruct (renderRoadSegments normalized atan2 vc before) as [c1 |]; [| reflexivity].
  destruct (renderRoadSegments normalized atan2 vc after) as [c2 |]; reflexivity.
Qed.






Lemma laneMarkings_Forall (P : DrawCommand -> Prop) f bound :
  (forall p, P (solidMarking f p)) ->
  (forall p k, P (dashMarking f p k)) ->
  forall lanesFrom i markings,
    laneMarkings f bound i lanesFrom = Some markings -> Forall P markings.
Proof.
  intros Hsolid Hdash. induction lanesFrom as [| a rest IH]; intros i markings H.
  - cbn [laneMarkings] in H. destruct (i <? bound); [discriminate H |].
    injection H as <-. constructor.
  - destruct rest as [| b rest].
    + cbn [laneMarkings] in H. destruct (i <? bound); [discriminate H |].
      injection H as <-. constructor.
    + destruct (Z.ltb_spec i bound) as [Hlt | Hge].
      * rewrite laneMarkings_step in H by exact Hlt.
        destruct (laneBoundary f i a b) as [cmds |] eqn:Hb; [| discriminate H].
        destruct (laneMarkings f bound (i + 1) (b :: rest)) as [more |] eqn:Hm;
          [| discriminate H].
        injection H as <-. apply Forall_app. split; [| exact (IH _ _ Hm)].
        unfold laneBoundary in Hb.
        destruct (negb (Lane.getType a =? Lane.getType b)).
        -- injection Hb as <-. constructor; [apply Hsolid | constructor].
        -- unfold dashedMarking in Hb.
           destruct (dashCountOf (adjustedLength f)) as [n |]; [| discriminate Hb].
           injection Hb as <-. apply Forall_forall. intros c Hin.
           apply in_map_iff in Hin. destruct Hin as (k & <- & _). apply Hdash.
      * change (laneMarkings f bound i (a :: b :: rest))
          with (if i <? bound
                then match laneBoundary f i a b, laneMarkings f bound (i + 1) (b :: rest) with
                     | Some cmds, Some more => Some (cmds ++ more)
                     | _, _ => None
                     end
                else Some []) in H.
        rewrite (proj2 (Z.ltb_ge _ _) Hge) in H. injection H as <-. constructor.
Qed.

(** X8. On a drawn road the first command is the body, a rectangle of
    the adjusted length by the road's width centred between the trimmed
    ends at height 0.01, and every lane marking is white and laid in the
    body's frame: its model matrix begins with the body's translation and
    rotation. *)
Theorem markings_in_road_frame (vc : ViewController) (road : RoadSegment.t)
  (cmds : list DrawCommand) :
  renderRoadSegment normalized atan2 vc road = Some cmds ->
  cmds <> [] ->
  exists startJunction endJunction body markings,
    RoadSegment.getStartJunction road = Some startJunction /\
    RoadSegment.getEndJunction road = Some endJunction /\
    let f := roadFrame normalized atan2 vc road startJunction endJunction in
    cmds = body :: markings ++ renderVehicles atan2 (RoadSegment.getVehicles road) road /\
    translationOf body
    = Some (vec3_of
              (F32.div (F32.add (Vector3.x (adjustedStartPos f)) (Vector3.x (adjustedEndPos f)))
                 (F32.lit 2 1))
              (F32.lit 1 100)
              (F32.div (F32.add (Vector3.z (adjustedStartPos f)) (Vector3.z (adjustedEndPos f)))
                 (F32.lit 2 1))) /\
    scaleOf body
    = Some (vec3_of (adjustedLength f) (F32.lit 1 1)
              (Vector3.z (RoadSegment.getDimensions road))) /\
    objectColor body = vec3_of (F32.lit 3 10) (F32.lit 3 10) (F32.lit 3 10) /\
    Forall (fun c => placementOf c = placementOf body /\
                     objectColor c = vec3_of (F32.lit 1 1) (F32.lit 1 1) (F32.lit 1 1))
      markings.
Proof.
  intros Hr Hne.
  destruct (renderRoadSegment_nonempty normalized atan2 vc road cmds Hr Hne)
    as (sj & ej & markings & Hs & He & _ & Hm & ->).
  exists sj, ej, (roadBody (roadFrame normalized atan2 vc road sj ej)), markings.
  split; [exact Hs | split; [exact He |]].
  cbv zeta. split; [reflexivity |]. split; [reflexivity |]. split; [reflexivity |].
  split; [reflexivity |].
  apply (laneMarkings_Forall _ _ _ (fun p => conj eq_refl eq_refl)
           (fun p k => conj eq_refl eq_refl) _ _ _ Hm).
Qed.



Lemma laneMarkings_out_of_range f bound :
  forall lanesFrom i,
    i < bound -> i + Z.of_nat (length lanesFrom) - 1 < bound ->
    laneMarkings f bound i lanesFrom = None.
Proof.
  induction lanesFrom as [| a rest IH]; intros i Hi Hlen.
  - cbn [laneMarkings]. rewrite (proj2 (Z.ltb_lt _ _) Hi). reflexivity.
  - destruct rest as [| b rest].
    + cbn [laneMarkings]. rewrite (proj2 (Z.ltb_lt _ _) Hi). reflexivity.
    + rewrite laneMarkings_step by exact Hi.
      rewrite (IH (i + 1)) by (cbn [length] in *; lia).
      destruct (laneBoundary f i a b); reflexivity.
Qed.

(** X10. The loop over the lane boundaries runs to the lane count the
    road reports, not to the number of lanes it holds: on a road that is
    drawn, a count above one and above the number of lanes (a negative
    count, converted to [size_t], among them) reads past the end of the
    lane vector, which has no defined behaviour. *)
Theorem lane_count_beyond_lanes (vc : ViewController) (road : RoadSegment.t)
  (startJunction endJunction : Junction.t) :
  RoadSegment.getStartJunction road = Some startJunction ->
  RoadSegment.getEndJunction road = Some endJunction ->
  F32.leb (adjustedLength (roadFrame normalized atan2 vc road startJunction endJunction))
    (F32.lit 1 1000) = false ->
  1 < to_size_t (RoadSegment.getLaneCount road) ->
  Z.of_nat (length (RoadSegment.getLanes road)) < to_size_t (RoadSegment.getLaneCount road) ->
  renderRoadSegment normalized atan2 vc road = None.
Proof.
  intros Hs He Hlen Hone Hcount. unfold renderRoadSegment. rewrite Hs, He. cbv zeta.
  rewrite Hlen, laneMarkings_out_of_range by lia. reflexivity.
Qed.

Lemma laneMarkings_app f bound extra :
  forall lanesFrom i,
    bound <= i \/ bound <= i + Z.of_nat (length lanesFrom) - 1 ->
    laneMarkings f bound i (lanesFrom ++ extra) = laneMarkings f bound i lanesFrom.
Proof.
  assert (forall l1 l2 i, bound <= i ->
            laneMarkings f bound i l1 = laneMarkings f bound i l2) as Hdone.
  { intros l1 l2 i Hi.
    destruct l1 as [| a1 [| b1 r1]], l2 as [| a2 [| b2 r2]]; cbn [laneMarkings];
      rewrite (proj2 (Z.ltb_ge _ _) Hi); reflexivity. }
  induction lanesFrom as [| a rest IH]; intros i Hlen.
  - apply Hdone. cbn [length] in Hlen. lia.
  - destruct (Z_le_gt_dec bound i) as [Hi | Hi]; [apply Hdone; exact Hi |].
    destruct rest as [| b rest]; [cbn [length] in Hlen; lia |].
    cbn [app]. rewrite !laneMarkings_step by lia.
    change (b :: rest ++ extra) with ((b :: rest) ++ extra).
    rewrite IH by (cbn [length] in *; lia). reflexivity.
Qed.

(** X21. Lanes beyond the reported lane count are never read: on a road
    whose count is at most the number of lanes it holds, any lanes put
    after these change nothing of what is drawn, failure included. *)
Theorem lanes_beyond_count_ignored (vc : ViewController) (road : RoadSegment.t)
  (extra : list Lane.t) :
  to_size_t (RoadSegment.getLaneCount road)
  <= Z.of_nat (length (RoadSegment.getLanes road)) ->
  renderRoadSegment normalized atan2 vc (withLanes (RoadSegment.getLanes road ++ extra) road)
  = renderRoadSegment normalized atan2 vc road.
Proof.
  intros Hcount. unfold renderRoadSegment, withLanes.
  cbn [RoadSegment.getStartJunction RoadSegment.getEndJunction RoadSegment.getLanes
       RoadSegment.getLaneCount RoadSegment.getVehicles].
  destruct (RoadSegment.getStartJunction road) as [sj |]; [| reflexivity].
  destruct (RoadSegment.getEndJunction road) as [ej |]; [| reflexivity].
  cbv zeta. unfold roadFrame. cbn [RoadSegment.getDimensions RoadSegment.getLaneCount].
  destruct (F32.leb _ _); [reflexivity |].
  rewrite laneMarkings_app by lia.
  destruct (laneMarkings _ _ _ _); [| reflexivity].
  do 3 f_equal. apply renderVehicles_ext; reflexivity.
Qed.

(** X11. A road of one lane, or of none, has no boundary: when it is
    drawn its commands are the body and then its vehicles, whatever its
    lane vector holds. *)
Theorem single_lane_no_markings (vc : ViewController) (road : RoadSegment.t)
  (startJunction endJunction : Junction.t) :
  RoadSegment.getStartJunction road = Some startJunction ->
  RoadSegment.getEndJunction road = Some endJunction ->
  F32.leb (adjustedLength (roadFrame normalized atan2 vc road startJunction endJunction))
    (F32.lit 1 1000) = false ->
  0 <= RoadSegment.getLaneCount road <= 1 ->
  renderRoadSegment normalized atan2 vc road
  = Some (roadBody (roadFrame normalized atan2 vc road startJunction endJunction)
            :: renderVehicles atan2 (RoadSegment.getVehicles road) road) /\
  length (renderVehicles atan2 (RoadSegment.getVehicles road) road)
  = length (presentVehicles (RoadSegment.getVehicles road)).
Proof.
  intros Hs He Hlen Hcount. split.
  - rewrite (renderRoadSegment_rendered normalized atan2 vc road startJunction endJunction []
               Hs He Hlen); [reflexivity |].
    assert (to_size_t (RoadSegment.getLaneCount road) <= 1) as Hb.
    { unfold to_size_t. rewrite Z.mod_small; [lia |].
      split; [lia |]. apply Z.le_lt_trans with 1; [lia | reflexivity]. }
    destruct (RoadSegment.getLanes road) as [| a [| b rest]]; cbn [laneMarkings];
      rewrite (proj2 (Z.ltb_ge _ _) Hb); reflexivity.
  - rewrite renderVehicles_present.
    induction (presentVehicles (RoadSegment.getVehicles road)) as [| v vs IH];
      cbn; [reflexivity | rewrite IH; reflexivity].
Qed.





End FrameFacts.

Lemma renderRoadSegment_skipped_iff_witness :
  renderRoadSegment normalized_guarded atan2_east viewDefault pointRoad = Some [].
Proof.
  apply (proj2 (renderRoadSegment_skipped_iff normalized_guarded atan2_east viewDefault pointRoad)).
  right. right. exists junctionEast, junctionEast.
  split; [reflexivity | split; [reflexivity | vm_compute; reflexivity]].
Defined.

Lemma skipped_road_leaves_frame_witness :
  renderRoadSegment normalized_guarded atan2_east viewDefault danglingRoad = Some [] /\
  render normalized_guarded atan2_east viewDefault
    (Some (withRoads ([sampleRoad] ++ danglingRoad :: [sampleRoad]) sampleScene))
  = render normalized_guarded atan2_east viewDefault
      (Some (withRoads ([sampleRoad] ++ [sampleRoad]) sampleScene)).
Proof.
  split; [reflexivity |].
  apply (skipped_road_leaves_frame normalized_guarded atan2_east viewDefault sampleScene
           [sampleRoad] [sampleRoad] danglingRoad).
  reflexivity.
Defined.


Lemma markings_in_road_frame_witness :
  exists cmds body markings,
    renderRoadSegment normalized_guarded atan2_east viewDefault sampleRoad = Some cmds /\
    cmds = body :: markings
             ++ renderVehicles atan2_east (RoadSegment.getVehicles sampleRoad) sampleRoad /\
    scaleOf body = Some (vec3_of (F32.of_Z 103) (F32.of_Z 1) (F32.of_Z 9)) /\
    length markings = 12%nat /\
    Forall (fun c => placementOf c = placementOf body) markings.
Proof.
  destruct (renderRoadSegment normalized_guarded atan2_east viewDefault sampleRoad)
    as [cmds |] eqn:Hr; [| vm_compute in Hr; discriminate Hr].
  assert (cmds <> []) as Hne.
  { intros ->. vm_compute in Hr. discriminate Hr. }
  assert (length cmds = 14%nat) as Hcount.
  { assert (option_map (@length _)
              (renderRoadSegment normalized_guarded atan2_east viewDefault sampleRoad)
            = Some 14%nat) as H by (vm_compute; reflexivity).
    rewrite Hr in H. injection H as H. exact H. }
  destruct (markings_in_road_frame normalized_guarded atan2_east viewDefault sampleRoad cmds
              Hr Hne)
    as (sj & ej & body & markings & Hs & He & Hcmds & _ & Hscale & _ & Hall).
  injection Hs as <-. injection He as <-.
  exists cmds, body, markings.
  split; [reflexivity | split; [exact Hcmds | split; [| split]]].
  - rewrite Hscale. vm_compute. reflexivity.
  - rewrite Hcmds in Hcount. cbn [length] in Hcount. rewrite length_app in Hcount.
    cbn in Hcount. lia.
  - apply Forall_impl with (2 := Hall). intros c [H _]. exact H.
Defined.


Lemma lane_count_beyond_lanes_witness :
  RoadSegment.getLaneCount shortLanesRoad = 4 /\
  length (RoadSegment.getLanes shortLanesRoad) = 2%nat /\
  renderRoadSegment normalized_guarded atan2_east viewDefault shortLanesRoad = None.
Proof.
  split; [reflexivity | split; [reflexivity |]].
  apply (lane_count_beyond_lanes normalized_guarded atan2_east viewDefault shortLanesRoad
           junctionWest junctionEast eq_refl eq_refl).
  - vm_compute. reflexivity.
  - vm_compute. reflexivity.
  - vm_compute. reflexivity.
Defined.

Lemma lanes_beyond_count_ignored_witness :
  RoadSegment.getLaneCount sampleRoad = 3 /\
  renderRoadSegment normalized_guarded atan2_east viewDefault
    (withLanes (RoadSegment.getLanes sampleRoad ++ [Lane.mk bike; Lane.mk car]) sampleRoad)
  = renderRoadSegment normalized_guarded atan2_east viewDefault sampleRoad.
Proof.
  split; [reflexivity |].
  apply (lanes_beyond_count_ignored normalized_guarded atan2_east viewDefault sampleRoad).
  vm_compute. discriminate.
Defined.

Lemma single_lane_no_markings_witness :
  RoadSegment.getLaneCount oneLaneRoad = 1 /\
  option_map (@length _)
    (renderRoadSegment normalized_guarded atan2_east viewDefault oneLaneRoad)
  = Some 2%nat.
Proof.
  split; [reflexivity |].
  assert (0 <= RoadSegment.getLaneCount oneLaneRoad <= 1) as Hc by (cbn; lia).
  assert (F32.leb
            (adjustedLength
               (roadFrame normalized_guarded atan2_east viewDefault oneLaneRoad junctionWest
                  junctionEast))
            (F32.lit 1 1000) = false) as Hlen by (vm_compute; reflexivity).
  rewrite (proj1 (single_lane_no_markings normalized_guarded atan2_east viewDefault oneLaneRoad
                    junctionWest junctionEast eq_refl eq_refl Hlen Hc)).
  reflexivity.
Defined.


(** ** Junctions and lights *)

Lemma renderTrafficLights_map junction :
  renderTrafficLights junction
  = map (fun road =>
           let entry := TrafficLightJunction.getEntryPoint junction road in
           mkDraw [glm.Translate (vec3_of (Vector3.x entry) (F32.lit 5 10) (Vector3.z entry));
                   glm.Scale (vec3_of (F32.lit 2 1) (F32.lit 2 1) (F32.lit 2 1))]
             (lightColorOf (TrafficLightJunction.getLightState junction road)))
      (TrafficLightJunction.getConnectedRoads junction).
Proof.
  unfold renderTrafficLights.
  induction (TrafficLightJunction.getConnectedRoads junction) as [| road rest IH];
    cbn [flat_map map]; [reflexivity |].
  rewrite IH. reflexivity.
Qed.

(** X12. A traffic light draws one marker for each connected road, in
    the order of the roads: a square of side 2 at height 0.5 over the
    road's entry point, green (0,1,0), yellow (1,1,0) or red (1,0,0) as
    the road's light is; the three colours differ, so a marker tells the
    state of its light. *)
Theorem traffic_light_markers (junction : TrafficLightJunction.t) :
  map (fun c => (translationOf c, scaleOf c, objectColor c)) (renderTrafficLights junction)
  = map (fun road =>
           let entry := TrafficLightJunction.getEntryPoint junction road in
           (Some (vec3_of (Vector3.x entry) (F32.lit 5 10) (Vector3.z entry)),
            Some (vec3_of (F32.lit 2 1) (F32.lit 2 1) (F32.lit 2 1)),
            lightColorOf (TrafficLightJunction.getLightState junction road)))
      (TrafficLightJunction.getConnectedRoads junction) /\
  lightColorOf GREEN = vec3_of (F32.of_Z 0) (F32.of_Z 1) (F32.of_Z 0) /\
  lightColorOf YELLOW = vec3_of (F32.of_Z 1) (F32.of_Z 1) (F32.of_Z 0) /\
  lightColorOf RED = vec3_of (F32.of_Z 1) (F32.of_Z 0) (F32.of_Z 0) /\
  forall s1 s2, lightColorOf s1 = lightColorOf s2 -> s1 = s2.
Proof.
  split; [| split; [reflexivity | split; [reflexivity | split; [reflexivity |]]]].
  - rewrite renderTrafficLights_map, map_map. reflexivity.
  - intros [] []; intros H; try reflexivity; vm_compute in H; discriminate H.
Qed.

(** X13. A junction draws its body first and then, when it has traffic
    lights, one marker for each connected road and nothing else: a plain
    junction is one command, in the grey (0.4, 0.4, 0.4); a traffic-light
    junction is one command more than it has connected roads, its body in
    (0.5, 0.5, 0.6).  The body is a rectangle of twice the radius a side
    at height 0.01 over the junction's position. *)
Theorem renderJunction_commands (junction : Junction.t) :
  exists body,
    renderJunction junction
    = body :: match Junction.asTrafficLight junction with
              | Some lights => renderTrafficLights lights
              | None => []
              end /\
    length (renderJunction junction)
    = S match Junction.asTrafficLight junction with
        | Some lights => length (TrafficLightJunction.getConnectedRoads lights)
        | None => 0
        end /\
    translationOf body
    = Some (vec3_of (Vector3.x (Junction.getPosition junction)) (F32.lit 1 100)
              (Vector3.z (Junction.getPosition junction))) /\
    scaleOf body
    = Some (vec3_of (F32.mul (Junction.getRadius junction) (F32.of_Z 2)) (F32.lit 5 10)
              (F32.mul (Junction.getRadius junction) (F32.of_Z 2))) /\
    objectColor body
    = match Junction.asTrafficLight junction with
      | Some _ => vec3_of (F32.lit 5 10) (F32.lit 5 10) (F32.lit 6 10)
      | None => vec3_of (F32.lit 4 10) (F32.lit 4 10) (F32.lit 4 10)
      end.
Proof.
  eexists. split; [reflexivity |]. split; [| repeat split].
  unfold renderJunction. cbn [drawRectangle app length]. f_equal.
  destruct (Junction.asTrafficLight junction) as [lights |]; [| reflexivity].
  rewrite renderTrafficLights_map, length_map. reflexivity.
Qed.

(** ** Vehicle colours *)

Lemma channels_In c : 0 <= c <= 255 -> In c channels.
Proof.
  intros H. unfold channels. apply in_map_iff. exists (Z.to_nat c).
  split; [lia | apply in_seq; lia].
Qed.

Lemma channelsOrdered_true : channelsOrdered = true.
Proof. vm_compute. reflexivity. Qed.

Lemma channelTable_In c : 0 <= c <= 255 -> In (c, channelOf c) channelTable.
Proof.
  intros H. unfold channelTable. apply in_map_iff. exists c.
  split; [reflexivity | apply channels_In; exact H].
Qed.

Section VehicleColour.
Variable atan2 : float -> float -> float.

(** X14. A vehicle is drawn in its own colour scaled to the unit cube:
    each channel from 0 to 255 becomes a float from 0 to 1, 0 giving 0
    and 255 giving 1, and a larger channel gives a larger float, so no
    two of the 256 values collapse. *)
Theorem vehicle_colour_range (vehicle : Vehicle.t) (road : RoadSegment.t) :
  exists cmd,
    renderVehicle atan2 vehicle road = [cmd] /\
    objectColor cmd
    = vec3_of (channelOf (Color.r (Vehicle.getColor vehicle)))
        (channelOf (Color.g (Vehicle.getColor vehicle)))
        (channelOf (Color.b (Vehicle.getColor vehicle))) /\
    channelOf 0 = F32.of_Z 0 /\ channelOf 255 = F32.of_Z 1 /\
    (forall c, 0 <= c <= 255 ->
       F32.leb (F32.of_Z 0) (channelOf c) = true /\
       F32.leb (channelOf c) (F32.of_Z 1) = true) /\
    (forall c c', 0 <= c -> c < c' -> c' <= 255 ->
       F32.ltb (channelOf c) (channelOf c') = true).
Proof.
  eexists. split; [reflexivity |]. split; [reflexivity |].
  split; [vm_compute; reflexivity |]. split; [vm_compute; reflexivity |].
  pose proof channelsOrdered_true as Hall. unfold channelsOrdered in Hall.
  rewrite forallb_forall in Hall.
  split.
  - intros c Hc. specialize (Hall _ (channelTable_In c Hc)). cbn [fst snd] in Hall.
    apply andb_prop in Hall. destruct Hall as [Hall _].
    apply andb_prop in Hall. exact Hall.
  - intros c c' H0 Hlt H255.
    specialize (Hall _ (channelTable_In c ltac:(lia))). cbn [fst snd] in Hall.
    apply andb_prop in Hall. destruct Hall as [_ Hall].
    rewrite forallb_forall in Hall.
    specialize (Hall _ (channelTable_In c' ltac:(lia))). cbn [fst snd] in Hall.
    rewrite (proj2 (Z.ltb_lt _ _) Hlt) in Hall. exact Hall.
Qed.

End VehicleColour.

(** ** Exact rounding and upper bounds *)

Lemma shr_1_even m :
  0 <= m -> shr_1 (Build_shr_record (2 * m) false false) = Build_shr_record m false false.
Proof. destruct m as [| p | p]; intros H; try lia; reflexivity. Qed.

Lemma shr_nat_exact n : forall m,
  0 <= m ->
  Nat.iter n shr_1 (Build_shr_record (m * 2 ^ Z.of_nat n) false false)
  = Build_shr_record m false false.
Proof.
  induction n as [| n IH]; intros m Hm.
  - cbn [Nat.iter Z.of_nat]. rewrite Z.pow_0_r, Z.mul_1_r. reflexivity.
  - rewrite Nat.iter_succ_r, Nat2Z.inj_succ, Z.pow_succ_r by lia.
    replace (m * (2 * 2 ^ Z.of_nat n)) with (2 * (m * 2 ^ Z.of_nat n)) by lia.
    rewrite shr_1_even by (apply Z.mul_nonneg_nonneg; [lia | apply Z.pow_nonneg; lia]).
    apply IH. exact Hm.
Qed.

Lemma shr_exact m e n :
  0 <= m -> 0 <= n ->
  shr (Build_shr_record (m * 2 ^ n) false false) e n = (Build_shr_record m false false, e + n).
Proof.
  intros Hm Hn. destruct n as [| p | p]; [| | lia].
  - cbn [shr]. rewrite Z.pow_0_r, Z.mul_1_r, Z.add_0_r. reflexivity.
  - cbn [shr]. rewrite iter_pos_nat. rewrite <- (positive_nat_Z p) at 1.
    rewrite shr_nat_exact by exact Hm. reflexivity.
Qed.

Section Exact.
Variables prec emax : Z.
Hypothesis prec_pos : 0 < prec.

(** Rounding a number of the format gives the number. *)
Lemma binary_round_aux_exact s (mc : positive) ec n :
  0 <= n ->
  canonical_mantissa prec emax mc ec = true ->
  ec <= emax - prec ->
  binary_round_aux prec emax s (Zpos mc * 2 ^ n) (ec - n) loc_Exact = S754_finite s mc ec.
Proof.
  intros Hn Hc Hfit. unfold canonical_mantissa in Hc. apply Z.eqb_eq in Hc.
  assert (shr_fexp prec emax (Zpos mc * 2 ^ n) (ec - n) loc_Exact
          = (Build_shr_record (Zpos mc) false false, ec)) as H1.
  { unfold shr_fexp. rewrite Zdigits2_shift by lia. cbn [Zdigits2 shr_record_of_loc].
    replace (Zpos (digits2_pos mc) + n + (ec - n)) with (Zpos (digits2_pos mc) + ec) by lia.
    rewrite Hc. replace (ec - (ec - n)) with n by lia.
    rewrite shr_exact by lia. f_equal. lia. }
  assert (shr_fexp prec emax (Zpos mc) ec loc_Exact
          = (Build_shr_record (Zpos mc) false false, ec)) as H2.
  { unfold shr_fexp. cbn [Zdigits2 shr_record_of_loc]. rewrite Hc, Z.sub_diag. reflexivity. }
  unfold binary_round_aux. rewrite H1.
  cbn [shr_m loc_of_shr_record round_nearest_even]. rewrite H2. cbn [shr_m].
  rewrite (proj2 (Z.leb_le _ _) Hfit). reflexivity.
Qed.

Lemma val_le_digits_le (mx : positive) ex (mc : positive) ec :
  val_le (Zpos mx) ex (Zpos mc) ec ->
  Zpos (digits2_pos mx) + ex <= Zpos (digits2_pos mc) + ec.
Proof.
  intros H. apply (val_le_digits mx ex (Zpos mc) ec); [lia | exact H].
Qed.

(** Rounding an exact value that is at most a number of the format gives
    at most that number. *)
Lemma binary_round_aux_upper_exact s (mx : positive) ex (mc : positive) ec :
  0 <= fexp prec emax (Zdigits2 (Zpos mx) + ex) - ex ->
  canonical_mantissa prec emax mc ec = true ->
  ec <= emax - prec ->
  val_le (Zpos mx) ex (Zpos mc) ec ->
  binary_round_aux prec emax s (Zpos mx) ex loc_Exact = S754_zero s \/
  exists m e, binary_round_aux prec emax s (Zpos mx) ex loc_Exact = S754_finite s m e /\
    canonical_mantissa prec emax m e = true /\ ge_mant m e mc ec.
Proof.
  intros HA Hc Hfit Hle.
  pose proof (val_le_digits_le mx ex mc ec Hle) as Hdig.
  pose proof (fexp_mono prec emax _ _ Hdig) as HE.
  pose proof Hc as Hc'. unfold canonical_mantissa in Hc'. apply Z.eqb_eq in Hc'.
  rewrite Hc' in HE. cbn [Zdigits2] in HA.
  assert (ex <= ec) as Hex by lia.
  destruct Hle as (k & Hk1 & Hk2 & Hle).
  assert (Zpos mx <= Zpos mc * 2 ^ (ec - ex)) as Hv.
  { replace (ec - k) with (ec - ex + (ex - k)) in Hle by lia.
    rewrite Z.pow_add_r, Z.mul_assoc in Hle by lia.
    apply Z.mul_le_mono_pos_r in Hle; [exact Hle | apply pow2_pos; lia]. }
  destruct (Z.eq_dec (Zpos mx) (Zpos mc * 2 ^ (ec - ex))) as [Heq | Hne].
  - right. exists mc, ec. split; [| split; [exact Hc | apply ge_mant_refl]].
    rewrite Heq. replace ex with (ec - (ec - ex)) at 2 by lia.
    apply binary_round_aux_exact; [lia | exact Hc | exact Hfit].
  - apply (binary_round_aux_upper prec emax prec_pos);
      [lia | cbn [Zdigits2]; exact HA | exact Hc | exact Hfit |].
    exists ex. split; [lia | split; [lia |]].
    rewrite Z.sub_diag, Z.pow_0_r, Z.mul_1_r. lia.
Qed.

Lemma binary_round_upper_exact s m e (mc : positive) ec :
  canonical_mantissa prec emax mc ec = true ->
  ec <= emax - prec ->
  val_le (Zpos m) e (Zpos mc) ec ->
  binary_round prec emax s m e = S754_zero s \/
  exists m' e', binary_round prec emax s m e = S754_finite s m' e' /\
    canonical_mantissa prec emax m' e' = true /\ ge_mant m' e' mc ec.
Proof.
  intros Hc Hfit (k & Hk1 & Hk2 & Hle). unfold binary_round.
  pose proof (shl_align_spec m e (fexp prec emax (Zpos (digits2_pos m) + e))) as [Hez Hmz].
  destruct (shl_align m e (fexp prec emax (Zpos (digits2_pos m) + e))) as [mz ez].
  cbn [fst snd] in Hez, Hmz.
  assert (Zdigits2 (Zpos mz) + ez = Zpos (digits2_pos m) + e) as Hdig.
  { rewrite Hmz, Zdigits2_shift by lia. cbn [Zdigits2]. lia. }
  apply binary_round_aux_upper_exact.
  - rewrite Hdig. lia.
  - exact Hc.
  - exact Hfit.
  - exists (Z.min k ez). split; [lia | split; [lia |]].
    rewrite Hmz, <- Z.mul_assoc, <- Z.pow_add_r by lia.
    replace (e - Z.min e (fexp prec emax (Zpos (digits2_pos m) + e)) + (ez - Z.min k ez))
      with (e - Z.min k ez) by lia.
    apply scaled_le_weaken with (k := k); lia.
Qed.

Lemma binary_round_sign s m e :
  match binary_round prec emax s m e with
  | S754_zero s' | S754_infinity s' | S754_finite s' _ _ => s' = s
  | S754_nan => False
  end.
Proof.
  unfold binary_round.
  destruct (shl_align m e (fexp prec emax (Zpos (digits2_pos m) + e))) as [mz ez].
  apply binary_round_aux_sign. lia.
Qed.

Lemma binary_round_aux_opp s m e l :
  SFopp (binary_round_aux prec emax s m e l) = binary_round_aux prec emax (negb s) m e l.
Proof.
  unfold binary_round_aux.
  destruct (shr_fexp prec emax m e l) as [mrs1 e1].
  destruct (shr_fexp prec emax _ e1 loc_Exact) as [mrs3 e3].
  destruct (shr_m mrs3); try reflexivity.
  destruct (e3 <=? emax - prec); reflexivity.
Qed.

Lemma SFmul_opp x y :
  SFmul prec emax (SFopp x) y = SFopp (SFmul prec emax x y).
Proof.
  destruct x as [sx | sx | | sx mx ex], y as [sy | sy | | sy my ey];
    cbn [SFmul SFopp]; try reflexivity; try (rewrite negb_xorb_l; reflexivity).
  rewrite binary_round_aux_opp, negb_xorb_l. reflexivity.
Qed.

(** One is a neutral factor. *)
Lemma SFmul_one x :
  1 < prec ->
  valid_binary prec emax x = true ->
  SFmul prec emax x (S754_finite false (one_mantissa prec) (1 - prec)) = x.
Proof.
  intros Hprec Hv. destruct x as [sx | sx | | sx mx ex]; cbn [SFmul].
  - rewrite xorb_false_r. reflexivity.
  - rewrite xorb_false_r. reflexivity.
  - reflexivity.
  - cbn [valid_binary] in Hv. unfold bounded in Hv. apply andb_prop in Hv.
    destruct Hv as [Hc Hb]. apply Z.leb_le in Hb.
    rewrite xorb_false_r, Pos2Z.inj_mul.
    assert (Zpos (one_mantissa prec) = 2 ^ (prec - 1)) as ->.
    { unfold one_mantissa. rewrite iter_xO, Z2Pos.id by lia. lia. }
    replace (ex + (1 - prec)) with (ex - (prec - 1)) by lia.
    apply binary_round_aux_exact; [lia | exact Hc | exact Hb].
Qed.

(** Multiplying by a positive factor of at most one does not take a number
    away from zero. *)
Lemma SFmul_at_most_one sx mx ex mz ez :
  1 < prec ->
  canonical_mantissa prec emax mx ex = true ->
  ex <= emax - prec ->
  canonical_mantissa prec emax (one_mantissa prec) (1 - prec) = true ->
  canonical_mantissa prec emax mz ez = true ->
  ge_mant mz ez (one_mantissa prec) (1 - prec) ->
  SFmul prec emax (S754_finite sx mx ex) (S754_finite false mz ez) = S754_zero sx \/
  exists m e,
    SFmul prec emax (S754_finite sx mx ex) (S754_finite false mz ez) = S754_finite sx m e /\
    canonical_mantissa prec emax m e = true /\ ge_mant m e mx ex.
Proof.
  intros Hprec Hc Hb Hone Hcz Hge. cbn [SFmul]. rewrite xorb_false_r.
  pose proof (ge_mant_val_le prec emax prec_pos _ _ _ _ Hcz Hone Hge) as (k & Hk1 & Hk2 & Hle).
  assert (Zpos (one_mantissa prec) = 2 ^ (prec - 1)) as Hval.
  { unfold one_mantissa. rewrite iter_xO, Z2Pos.id by lia. lia. }
  rewrite Hval, <- Z.pow_add_r in Hle by lia.
  replace (prec - 1 + (1 - prec - k)) with (- k) in Hle by lia.
  assert (ez <= 1 - prec) as Hez by (destruct Hge as [H | [H _]]; lia).
  apply binary_round_aux_upper_exact.
  - pose proof (Zdigits2_mul_lower mx mz) as Hd. cbn [Zdigits2].
    unfold canonical_mantissa in Hc, Hcz. apply Z.eqb_eq in Hc. apply Z.eqb_eq in Hcz.
    pose proof (Pos2Z.is_pos (digits2_pos mz)).
    unfold fexp in *. lia.
  - exact Hc.
  - exact Hb.
  - exists (ex + k). split; [lia | split; [lia |]].
    replace (ex - (ex + k)) with (- k) by lia.
    replace (ex + ez - (ex + k)) with (ez - k) by lia.
    rewrite Pos2Z.inj_mul, <- Z.mul_assoc.
    apply Z.mul_le_mono_nonneg_l; [lia | exact Hle].
Qed.

(** Multiplying by a factor of at least one does not bring a number,
    normal or not, closer to zero. *)
Lemma SFmul_at_least_one_any sx mx ex y :
  1 < prec -> 2 < emax ->
  canonical_mantissa prec emax mx ex = true ->
  canonical_mantissa prec emax (one_mantissa prec) (1 - prec) = true ->
  at_least prec emax (one_mantissa prec) (1 - prec) y ->
  SFmul prec emax (S754_finite sx mx ex) y = S754_infinity sx \/
  exists m e, SFmul prec emax (S754_finite sx mx ex) y = S754_finite sx m e /\
    canonical_mantissa prec emax m e = true /\ ge_mant mx ex m e.
Proof.
  intros Hprec Hemax Hc Hone [Hinf | (my & ey & Hy & Hcy & Hge)]; subst y.
  - left. cbn. rewrite xorb_false_r. reflexivity.
  - cbn [SFmul]. rewrite xorb_false_r.
    pose proof (ge_mant_val_le prec emax prec_pos _ _ _ _ Hone Hcy Hge) as (k & Hk1 & Hk2 & Hle).
    assert (Zpos (one_mantissa prec) = 2 ^ (prec - 1)) as Hval.
    { unfold one_mantissa. rewrite iter_xO, Z2Pos.id by lia. lia. }
    rewrite Hval, <- Z.pow_add_r in Hle by lia.
    replace (prec - 1 + (1 - prec - k)) with (- k) in Hle by lia.
    assert (1 - prec <= ey) as Hey by (destruct Hge as [H | [H _]]; lia).
    apply binary_round_aux_lower.
    + exact prec_pos.
    + lia.
    + pose proof (Zdigits2_mul_lower mx my) as Hd. cbn [Zdigits2].
      unfold canonical_mantissa in Hcy. apply Z.eqb_eq in Hcy.
      pose proof (Pos2Z.is_pos (digits2_pos mx)).
      unfold fexp, emin in *. lia.
    + exact Hc.
    + exists (ex + k). split; [lia | split; [lia |]].
      replace (ex - (ex + k)) with (- k) by lia.
      replace (ex + ey - (ex + k)) with (ey - k) by lia.
      rewrite Pos2Z.inj_mul, <- Z.mul_assoc.
      apply Z.mul_le_mono_nonneg_l; [lia | exact Hle].
Qed.

Lemma SFdiv_nonpos x m e :
  nonpos x -> nonpos (SFdiv prec emax x (S754_finite false m e)).
Proof.
  destruct x as [s | [] | | [] mx ex]; simpl; intros H; try contradiction; try exact I.
  pose proof (SFdiv_core_binary_nonneg prec emax mx ex m e) as Hq.
  destruct (SFdiv_core_binary prec emax (Zpos mx) ex (Zpos m) e) as [[mz ez] lz].
  cbn [fst] in Hq.
  apply nonpos_of_sign. apply binary_round_aux_sign. exact Hq.
Qed.

(** Adding a number that is not positive to a positive constant does not
    go above the constant. *)
Lemma SFadd_at_most mc ec y :
  canonical_mantissa prec emax mc ec = true ->
  ec <= emax - prec ->
  nonpos y ->
  at_most prec emax mc ec (SFadd prec emax (S754_finite false mc ec) y).
Proof.
  intros Hc Hb Hy. destruct y as [s | [] | | [] my ey]; simpl in Hy; try contradiction.
  - right. exists mc, ec. cbn. repeat split; [exact Hc | apply ge_mant_refl].
  - left. exact I.
  - cbn [SFadd cond_Zopp].
    pose proof (shl_align_spec mc ec (Z.min ec ey)) as [_ Ha].
    set (a := fst (shl_align mc ec (Z.min ec ey))) in *.
    set (b := fst (shl_align my ey (Z.min ec ey))).
    replace (Z.min ec (Z.min ec ey)) with (Z.min ec ey) in Ha by lia.
    destruct (Zpos a + - Zpos b) as [| p | p] eqn:Hd; cbn [binary_normalize].
    + left. exact I.
    + destruct (binary_round_upper_exact false p (Z.min ec ey) mc ec Hc Hb)
        as [Hz | (m & e & Heq & Hcan & Hge)].
      * exists (Z.min ec ey). split; [lia | split; [lia |]].
        rewrite Z.sub_diag, Z.pow_0_r, Z.mul_1_r. lia.
      * left. rewrite Hz. exact I.
      * right. exists m, e. repeat split; assumption.
    + left. apply nonpos_of_sign. apply binary_round_sign.
Qed.

End Exact.

(** Rounding into another format keeps an upper bound that the target
    format holds. *)
Lemma round_to_at_most p1 x1 p2 x2 mc1 ec1 mc2 ec2 x :
  0 < p1 -> 0 < p2 ->
  canonical_mantissa p1 x1 mc1 ec1 = true ->
  canonical_mantissa p2 x2 mc2 ec2 = true ->
  ec2 <= x2 - p2 ->
  val_le (Zpos mc1) ec1 (Zpos mc2) ec2 ->
  at_most p1 x1 mc1 ec1 x ->
  at_most p2 x2 mc2 ec2 (round_to p2 x2 x).
Proof.
  intros Hp1 Hp2 Hc1 Hc2 Hb Hle [Hneg | (m & e & Hx & Hcx & Hge)].
  - left. destruct x as [s | [] | | [] m e]; cbn in Hneg; try contradiction; try exact I.
    cbn [round_to]. apply nonpos_of_sign. apply binary_round_sign.
  - subst x. cbn [round_to].
    pose proof (ge_mant_val_le p1 x1 Hp1 _ _ _ _ Hcx Hc1 Hge) as Hv.
    destruct (binary_round_upper_exact p2 x2 Hp2 false m e mc2 ec2 Hc2 Hb
                (val_le_trans _ _ _ _ _ _ Hv Hle))
      as [Hz | (m' & e' & Heq & Hcan & Hge')].
    + left. rewrite Hz. exact I.
    + right. exists m', e'. repeat split; assumption.
Qed.

(** ** Opposites and order *)

Lemma SFopp_involutive x : SFopp (SFopp x) = x.
Proof. destruct x as [s | s | | s m e]; cbn; rewrite ?negb_involutive; reflexivity. Qed.

Lemma SFopp_nonpos y : nonneg y -> nonpos (SFopp y).
Proof. destruct y as [s | [] | | [] m e]; cbn; intros H; try exact I; contradiction. Qed.

Lemma valid_binary_opp x :
  valid_binary F32.prec F32.emax (SFopp x) = valid_binary F32.prec F32.emax x.
Proof. destruct x as [s | s | | s m e]; reflexivity. Qed.

Lemma SFcompare_opp a b : SFcompare (SFopp a) (SFopp b) = SFcompare b a.
Proof.
  destruct a as [sa | sa | | sa ma ea], b as [sb | sb | | sb mb eb];
    try destruct sa; try destruct sb; cbn; try reflexivity;
    change (Pos.compare_cont Eq mb ma) with (Pos.compare mb ma);
    change (Pos.compare_cont Eq ma mb) with (Pos.compare ma mb);
    rewrite (Z.compare_antisym ea eb), (Pos.compare_antisym ma mb);
    destruct (ea ?= eb); destruct (Pos.compare ma mb); reflexivity.
Qed.

Lemma leb_opp a b : F32.leb (SFopp a) (SFopp b) = F32.leb b a.
Proof. unfold F32.leb, SFleb. rewrite SFcompare_opp. reflexivity. Qed.

Lemma max_opp a c : F32.max (SFopp a) (SFopp c) = SFopp (F32.min a c).
Proof.
  unfold F32.max, F32.min, F32.ltb, SFltb. rewrite SFcompare_opp.
  destruct (SFcompare c a) as [[] |]; reflexivity.
Qed.

Lemma mul_opp x y : F32.mul (SFopp x) y = SFopp (F32.mul x y).
Proof. apply SFmul_opp. Qed.

Lemma leb_of_ge_mant m e mx ex :
  ge_mant m e mx ex -> F32.leb (S754_finite false m e) (S754_finite false mx ex) = true.
Proof.
  unfold F32.leb, SFleb. cbn [SFcompare].
  change (Pos.compare_cont Eq m mx) with (Pos.compare m mx).
  intros [Hlt | [Heq Hle]].
  - rewrite (proj2 (Z.compare_lt_iff e ex) Hlt). reflexivity.
  - subst ex. rewrite Z.compare_refl.
    destruct (Pos.compare_spec m mx) as [H | H | H]; [reflexivity | reflexivity | lia].
Qed.

Lemma ltb_finite_pos m e mc ec :
  F32.ltb (S754_finite false m e) (S754_finite false mc ec) = true ->
  e < ec \/ (e = ec /\ (m < mc)%positive).
Proof.
  unfold F32.ltb, SFltb. cbn [SFcompare].
  change (Pos.compare_cont Eq m mc) with (Pos.compare m mc).
  destruct (Z.compare_spec e ec) as [Heq | Hlt | Hgt]; intros H.
  - right. split; [exact Heq |].
    destruct (Pos.compare_spec m mc) as [Hm | Hm | Hm];
      [discriminate H | exact Hm | discriminate H].
  - left. exact Hlt.
  - discriminate H.
Qed.

Lemma ge_mant_below mc ec m e mx ex :
  ec < e \/ (ec = e /\ (mc < m)%positive) -> ge_mant m e mx ex -> ge_mant mc ec mx ex.
Proof. unfold ge_mant. lia. Qed.

(** ** Zooming in and out *)

(** A zoom-in delta gives a zoom factor of at most one. *)
Lemma zoomFactorOf_zoom_in y :
  zoomIn y ->
  at_most F32.prec F32.emax (one_mantissa F32.prec) (1 - F32.prec) (zoomFactorOf y).
Proof.
  unfold zoomIn. intros Hy. apply zero_leb_nonneg in Hy. apply SFopp_nonpos in Hy.
  unfold zoomFactorOf, F64.to_float, F64.add, F64.div, F64.mul, F64.opp.
  change (F64.of_float (F32.lit 10 1)) with (S754_finite false 5629499534213120 (-49)).
  change (F64.of_float (F32.lit 100 1)) with (S754_finite false 7036874417766400 (-46)).
  change (F64.of_float (F32.lit 1 1)) with (S754_finite false 4503599627370496 (-52)).
  apply round_to_at_most
    with (p1 := F64.prec) (x1 := F64.emax) (mc1 := 4503599627370496%positive) (ec1 := -52).
  - reflexivity.
  - reflexivity.
  - reflexivity.
  - reflexivity.
  - vm_compute. discriminate.
  - exists (-52). vm_compute. repeat split; discriminate.
  - apply SFadd_at_most; [reflexivity | reflexivity | vm_compute; discriminate |].
    apply SFdiv_nonpos. apply SFmul_nonpos. exact Hy.
Qed.

Lemma zoomFactorOf_zoom_in_shape y :
  zoomIn y -> properZoom y ->
  exists mz ez, zoomFactorOf y = S754_finite false mz ez /\
    canonical_mantissa F32.prec F32.emax mz ez = true /\
    ge_mant mz ez (one_mantissa F32.prec) (1 - F32.prec).
Proof.
  intros Hin Hproper.
  destruct (properZoom_shape y Hproper) as (m & e & Hzf).
  destruct (zoomFactorOf_zoom_in y Hin) as [Hneg | (mz & ez & Heq & Hc & Hge)].
  - rewrite Hzf in Hneg. contradiction.
  - exists mz, ez. repeat split; assumption.
Qed.

(** The right or top bound after a zoom-in step is at most what it was. *)
Lemma scaled_min_le x mz ez mc ec :
  nonneg x -> valid_binary F32.prec F32.emax x = true ->
  canonical_mantissa F32.prec F32.emax mz ez = true ->
  ge_mant mz ez (one_mantissa F32.prec) (1 - F32.prec) ->
  F32.leb (F32.min (F32.mul x (S754_finite false mz ez)) (S754_finite false mc ec)) x = true.
Proof.
  intros Hx Hv Hcz Hge.
  destruct x as [s | [] | | [] mx ex]; cbn [nonneg] in Hx; try contradiction.
  - destruct s; reflexivity.
  - reflexivity.
  - cbn [valid_binary] in Hv. unfold bounded in Hv. apply andb_prop in Hv.
    destruct Hv as [Hc Hb]. apply Z.leb_le in Hb.
    unfold F32.mul.
    destruct (SFmul_at_most_one F32.prec F32.emax eq_refl false mx ex mz ez eq_refl Hc Hb
                eq_refl Hcz Hge) as [Hz | (m & e & Heq & _ & Hle)].
    + rewrite Hz. reflexivity.
    + rewrite Heq. unfold F32.min.
      destruct (F32.ltb (S754_finite false mc ec) (S754_finite false m e)) eqn:Hlt.
      * apply leb_of_ge_mant. apply ltb_finite_pos in Hlt.
        exact (ge_mant_below _ _ _ _ _ _ Hlt Hle).
      * apply leb_of_ge_mant. exact Hle.
Qed.

(** The left or bottom bound, through its opposite. *)
Lemma scaled_max_ge x mz ez mc ec :
  nonpos x -> valid_binary F32.prec F32.emax x = true ->
  canonical_mantissa F32.prec F32.emax mz ez = true ->
  ge_mant mz ez (one_mantissa F32.prec) (1 - F32.prec) ->
  F32.leb x (F32.max (F32.mul x (S754_finite false mz ez)) (S754_finite true mc ec)) = true.
Proof.
  intros Hx Hv Hcz Hge.
  rewrite <- (SFopp_involutive x).
  change (S754_finite true mc ec) with (SFopp (S754_finite false mc ec)).
  rewrite mul_opp, max_opp, leb_opp.
  apply scaled_min_le; [apply SFopp_nonneg; exact Hx | rewrite valid_binary_opp; exact Hv
                        | exact Hcz | exact Hge].
Qed.

(** *** Order among the bounds *)

Lemma leb_refl_nonneg x : nonneg x -> F32.leb x x = true.
Proof.
  destruct x as [s | [] | | [] m e]; cbn [nonneg]; intros H; try contradiction;
    try reflexivity.
  apply leb_of_ge_mant. apply ge_mant_refl.
Qed.

Lemma leb_trans_nonneg a b c :
  nonneg a -> nonneg b -> nonneg c ->
  F32.leb a b = true -> F32.leb b c = true -> F32.leb a c = true.
Proof.
  destruct a as [sa | [] | | [] ma ea]; cbn [nonneg]; intros Ha; try contradiction;
    destruct b as [sb | [] | | [] mb eb]; cbn [nonneg]; intros Hb; try contradiction;
    destruct c as [sc | [] | | [] mc ec]; cbn [nonneg]; intros Hc; try contradiction;
    intros Hab Hbc; try reflexivity; try discriminate Hab; try discriminate Hbc.
  apply leb_finite_pos in Hab. apply leb_finite_pos in Hbc.
  apply leb_of_ge_mant. unfold ge_mant. lia.
Qed.

Lemma leb_refl_nonpos x : nonpos x -> F32.leb x x = true.
Proof.
  intros H. rewrite <- (SFopp_involutive x), leb_opp.
  apply leb_refl_nonneg. apply SFopp_nonneg. exact H.
Qed.

Lemma leb_trans_nonpos a b c :
  nonpos a -> nonpos b -> nonpos c ->
  F32.leb a b = true -> F32.leb b c = true -> F32.leb a c = true.
Proof.
  intros Ha Hb Hc.
  rewrite <- (leb_opp b a), <- (leb_opp c b), <- (leb_opp c a). intros Hab Hbc.
  apply (leb_trans_nonneg _ (SFopp b)); try (apply SFopp_nonneg; assumption); assumption.
Qed.

Lemma encloses_refl vc : straddles vc -> encloses vc vc.
Proof.
  intros (Hl & Hr & Hb & Ht).
  apply leb_zero_nonpos in Hl, Hb. apply zero_leb_nonneg in Hr, Ht.
  repeat split; first [apply leb_refl_nonpos; assumption | apply leb_refl_nonneg; assumption].
Qed.

Lemma encloses_trans a b c :
  straddles a -> straddles b -> straddles c ->
  encloses a b -> encloses b c -> encloses a c.
Proof.
  intros (Hal & Har & Hab & Hat) (Hbl & Hbr & Hbb & Hbt) (Hcl & Hcr & Hcb & Hct)
    (H1 & H2 & H3 & H4) (H5 & H6 & H7 & H8).
  apply leb_zero_nonpos in Hal, Hab, Hbl, Hbb, Hcl, Hcb.
  apply zero_leb_nonneg in Har, Hat, Hbr, Hbt, Hcr, Hct.
  repeat split.
  - apply (leb_trans_nonpos _ (orthographicLeft b)); assumption.
  - apply (leb_trans_nonneg _ (orthographicRight b)); assumption.
  - apply (leb_trans_nonpos _ (orthographicBottom b)); assumption.
  - apply (leb_trans_nonneg _ (orthographicTop b)); assumption.
Qed.

(** *** Zooming in *)

Lemma ge_mant_exponent m e mx ex : ge_mant m e mx ex -> e <= ex.
Proof. unfold ge_mant. lia. Qed.

Lemma valid_finite s m e :
  canonical_mantissa F32.prec F32.emax m e = true -> e <= F32.emax - F32.prec ->
  valid_binary F32.prec F32.emax (S754_finite s m e) = true.
Proof.
  intros Hc Hb. cbn [valid_binary]. unfold bounded.
  rewrite Hc, (proj2 (Z.leb_le _ _) Hb). reflexivity.
Qed.

Lemma min_valid x c :
  valid_binary F32.prec F32.emax x = true -> valid_binary F32.prec F32.emax c = true ->
  valid_binary F32.prec F32.emax (F32.min x c) = true.
Proof. unfold F32.min. destruct (F32.ltb c x); intros; assumption. Qed.

(** The right or top bound after a zoom-in step is a number of the
    format again. *)
Lemma scaled_min_valid x mz ez mc ec :
  nonneg x -> valid_binary F32.prec F32.emax x = true ->
  canonical_mantissa F32.prec F32.emax mz ez = true ->
  ge_mant mz ez (one_mantissa F32.prec) (1 - F32.prec) ->
  valid_binary F32.prec F32.emax (S754_finite false mc ec) = true ->
  valid_binary F32.prec F32.emax
    (F32.min (F32.mul x (S754_finite false mz ez)) (S754_finite false mc ec)) = true.
Proof.
  intros Hx Hv Hcz Hge Hvc. apply min_valid; [| exact Hvc].
  destruct x as [s | [] | | [] mx ex]; cbn [nonneg] in Hx; try contradiction.
  - reflexivity.
  - reflexivity.
  - pose proof Hv as Hv'. cbn [valid_binary] in Hv'. unfold bounded in Hv'.
    apply andb_prop in Hv'. destruct Hv' as [Hc Hb]. apply Z.leb_le in Hb.
    unfold F32.mul.
    destruct (SFmul_at_most_one F32.prec F32.emax eq_refl false mx ex mz ez eq_refl Hc Hb
                eq_refl Hcz Hge) as [Hz | (m & e & Heq & Hcm & Hle)].
    + rewrite Hz. reflexivity.
    + rewrite Heq. apply valid_finite; [exact Hcm |].
      apply ge_mant_exponent in Hle. lia.
Qed.

Lemma scaled_max_valid x mz ez mc ec :
  nonpos x -> valid_binary F32.prec F32.emax x = true ->
  canonical_mantissa F32.prec F32.emax mz ez = true ->
  ge_mant mz ez (one_mantissa F32.prec) (1 - F32.prec) ->
  valid_binary F32.prec F32.emax (S754_finite false mc ec) = true ->
  valid_binary F32.prec F32.emax
    (F32.max (F32.mul x (S754_finite false mz ez)) (S754_finite true mc ec)) = true.
Proof.
  intros Hx Hv Hcz Hge Hvc.
  rewrite <- (SFopp_involutive x).
  change (S754_finite true mc ec) with (SFopp (S754_finite false mc ec)).
  rewrite mul_opp, max_opp, valid_binary_opp.
  apply scaled_min_valid; [apply SFopp_nonneg; exact Hx | rewrite valid_binary_opp; exact Hv
                           | exact Hcz | exact Hge | exact Hvc].
Qed.

Lemma zoom_in_step y vc :
  zoomIn y -> properZoom y -> validView vc -> straddles vc ->
  encloses vc (processScroll y vc) /\ validView (processScroll y vc).
Proof.
  intros Hin Hproper (Hvl & Hvr & Hvb & Hvt) (Hl & Hr & Hb & Ht).
  destruct (zoomFactorOf_zoom_in_shape y Hin Hproper) as (mz & ez & Hzf & Hcz & Hge).
  apply leb_zero_nonpos in Hl, Hb. apply zero_leb_nonneg in Hr, Ht.
  unfold encloses, validView, processScroll. rewrite Hzf.
  cbn [orthographicLeft orthographicRight orthographicBottom orthographicTop].
  change (F32.opp (F32.lit 3200 1)) with (S754_finite true 13107200 (-12)).
  change (F32.lit 3200 1) with (S754_finite false 13107200 (-12)).
  change (F32.opp (F32.lit 1800 1)) with (S754_finite true 14745600 (-13)).
  change (F32.lit 1800 1) with (S754_finite false 14745600 (-13)).
  split; repeat split;
    first [ apply scaled_max_ge; assumption
          | apply scaled_min_le; assumption
          | apply scaled_max_valid; assumption || reflexivity
          | apply scaled_min_valid; assumption || reflexivity ].
Qed.

(** X15. Zooming in never widens the view: after any run of scroll
    events with deltas of zero or more whose zoom factors are positive
    finite numbers, each bound of a view box that held the origin is
    where it was or nearer to the origin, so the new box lies inside the
    old one. *)
Theorem zoom_in_never_widens (deltas : list double) (vc : ViewController) :
  Forall zoomIn deltas -> Forall properZoom deltas -> validView vc -> straddles vc ->
  encloses vc (processScrolls deltas vc).
Proof.
  intros Hin Hproper. revert vc Hproper. unfold processScrolls.
  induction Hin as [| y deltas Hy _ IH]; intros vc Hproper Hvalid Hvc; cbn [fold_left].
  - apply encloses_refl. exact Hvc.
  - inversion Hproper as [| y' ds' Hpy Hpds]; subst.
    destruct (zoom_in_step y vc Hy Hpy Hvalid Hvc) as [Hstep Hvalid'].
    destruct (processScroll_straddles y vc Hvc Hpy) as [Hvc' _].
    apply (encloses_trans _ (processScroll y vc)).
    + exact Hvc.
    + exact Hvc'.
    + apply (processScrolls_straddles deltas); assumption.
    + exact Hstep.
    + apply IH; assumption.
Qed.

(** *** Zooming out *)

Lemma positive_within m e x :
  F32.ltb (F32.of_Z 0) x = true -> F32.leb x (S754_finite false m e) = true ->
  exists mx ex, x = S754_finite false mx ex.
Proof.
  destruct x as [s | [] | | [] mx ex]; cbn; intros H1 H2; try discriminate.
  exists mx, ex. reflexivity.
Qed.

Lemma negative_within m e x :
  F32.ltb x (F32.of_Z 0) = true -> F32.leb (S754_finite true m e) x = true ->
  exists mx ex, x = S754_finite true mx ex.
Proof.
  destruct x as [s | [] | | [] mx ex]; cbn; intros H1 H2; try discriminate.
  exists mx, ex. reflexivity.
Qed.

Lemma valid_canonical s m e :
  valid_binary F32.prec F32.emax (S754_finite s m e) = true ->
  canonical_mantissa F32.prec F32.emax m e = true.
Proof.
  cbn [valid_binary]. unfold bounded. intros H. apply andb_prop in H. exact (proj1 H).
Qed.

Lemma not_ltb_finite_pos m e mc ec :
  F32.ltb (S754_finite false mc ec) (S754_finite false m e) = false -> e <= ec.
Proof.
  unfold F32.ltb, SFltb. cbn [SFcompare].
  destruct (Z.compare_spec ec e) as [Heq | Hlt | Hgt]; intros H; [lia | discriminate H | lia].
Qed.

(** The right or top bound after a zoom-out step: a positive number of
    the format between what it was and its limit. *)
Lemma scaled_min_out mx ex zf mc ec :
  valid_binary F32.prec F32.emax (S754_finite false mx ex) = true ->
  valid_binary F32.prec F32.emax (S754_finite false mc ec) = true ->
  at_least F32.prec F32.emax (one_mantissa F32.prec) (1 - F32.prec) zf ->
  F32.leb (S754_finite false mx ex) (S754_finite false mc ec) = true ->
  exists m e,
    F32.min (F32.mul (S754_finite false mx ex) zf) (S754_finite false mc ec)
    = S754_finite false m e /\
    valid_binary F32.prec F32.emax (S754_finite false m e) = true /\
    F32.leb (S754_finite false mx ex) (S754_finite false m e) = true /\
    F32.leb (S754_finite false m e) (S754_finite false mc ec) = true.
Proof.
  intros Hv Hvc Hzf Hlim. pose proof (valid_canonical _ _ _ Hv) as Hc.
  assert (F32.leb (S754_finite false mc ec) (S754_finite false mc ec) = true) as Hcc
    by (apply leb_of_ge_mant; apply ge_mant_refl).
  unfold F32.mul.
  destruct (SFmul_at_least_one_any F32.prec F32.emax eq_refl false mx ex zf eq_refl eq_refl
              Hc eq_refl Hzf) as [Hinf | (m & e & Heq & Hcm & Hge)].
  - rewrite Hinf. exists mc, ec. repeat split; assumption.
  - rewrite Heq. unfold F32.min.
    destruct (F32.ltb (S754_finite false mc ec) (S754_finite false m e)) eqn:Hlt.
    + exists mc, ec. repeat split; assumption.
    + exists m, e. split; [reflexivity | split; [| split]].
      * apply valid_finite; [exact Hcm |].
        apply not_ltb_finite_pos in Hlt.
        cbn [valid_binary] in Hvc. unfold bounded in Hvc. apply andb_prop in Hvc.
        destruct Hvc as [_ Hbc]. apply Z.leb_le in Hbc. lia.
      * apply leb_of_ge_mant. exact Hge.
      * apply not_ltb_leb; [discriminate | exact Hlt].
Qed.

Lemma scaled_max_out mx ex zf mc ec :
  valid_binary F32.prec F32.emax (S754_finite true mx ex) = true ->
  valid_binary F32.prec F32.emax (S754_finite false mc ec) = true ->
  at_least F32.prec F32.emax (one_mantissa F32.prec) (1 - F32.prec) zf ->
  F32.leb (S754_finite true mc ec) (S754_finite true mx ex) = true ->
  exists m e,
    F32.max (F32.mul (S754_finite true mx ex) zf) (S754_finite true mc ec)
    = S754_finite true m e /\
    valid_binary F32.prec F32.emax (S754_finite true m e) = true /\
    F32.leb (S754_finite true m e) (S754_finite true mx ex) = true /\
    F32.leb (S754_finite true mc ec) (S754_finite true m e) = true.
Proof.
  intros Hv Hvc Hzf Hlim.
  change (S754_finite true mx ex) with (SFopp (S754_finite false mx ex)) in *.
  change (S754_finite true mc ec) with (SFopp (S754_finite false mc ec)) in *.
  rewrite valid_binary_opp in Hv. rewrite leb_opp in Hlim.
  destruct (scaled_min_out mx ex zf mc ec Hv Hvc Hzf Hlim) as (m & e & Heq & Hvm & H1 & H2).
  exists m, e. rewrite mul_opp, max_opp, Heq.
  change (S754_finite true m e) with (SFopp (S754_finite false m e)).
  rewrite valid_binary_opp, !leb_opp. repeat split; assumption.
Qed.

Lemma zoom_out_step y vc :
  zoomOut y -> validView vc -> strictlyStraddles vc -> withinLimits vc ->
  encloses (processScroll y vc) vc /\
  validView (processScroll y vc) /\ strictlyStraddles (processScroll y vc) /\
  withinLimits (processScroll y vc).
Proof.
  intros Hout (Hvl & Hvr & Hvb & Hvt) (Hl & Hr & Hb & Ht) (Hwl & Hwr & Hwb & Hwt).
  pose proof (zoomFactorOf_zoom_out y Hout) as Hzf.
  unfold encloses, validView, strictlyStraddles, withinLimits, processScroll.
  cbn [orthographicLeft orthographicRight orthographicBottom orthographicTop].
  change (F32.opp (F32.lit 3200 1)) with (S754_finite true 13107200 (-12)) in *.
  change (F32.lit 3200 1) with (S754_finite false 13107200 (-12)) in *.
  change (F32.opp (F32.lit 1800 1)) with (S754_finite true 14745600 (-13)) in *.
  change (F32.lit 1800 1) with (S754_finite false 14745600 (-13)) in *.
  destruct (negative_within _ _ _ Hl Hwl) as (ml & el & Hleft).
  destruct (positive_within _ _ _ Hr Hwr) as (mr & er & Hright).
  destruct (negative_within _ _ _ Hb Hwb) as (mb & eb & Hbottom).
  destruct (positive_within _ _ _ Ht Hwt) as (mt & et & Htop).
  rewrite Hleft, Hright, Hbottom, Htop in *.
  destruct (scaled_max_out ml el _ 13107200 (-12) Hvl eq_refl Hzf Hwl)
    as (ml' & el' & -> & Hl1 & Hl2 & Hl3).
  destruct (scaled_min_out mr er _ 13107200 (-12) Hvr eq_refl Hzf Hwr)
    as (mr' & er' & -> & Hr1 & Hr2 & Hr3).
  destruct (scaled_max_out mb eb _ 14745600 (-13) Hvb eq_refl Hzf Hwb)
    as (mb' & eb' & -> & Hb1 & Hb2 & Hb3).
  destruct (scaled_min_out mt et _ 14745600 (-13) Hvt eq_refl Hzf Hwt)
    as (mt' & et' & -> & Ht1 & Ht2 & Ht3).
  repeat split; assumption.
Qed.

Lemma strictlyStraddles_straddles vc : strictlyStraddles vc -> straddles vc.
Proof.
  intros (Hl & Hr & Hb & Ht). unfold straddles.
  destruct vc as [l r b t].
  cbn [orthographicLeft orthographicRight orthographicBottom orthographicTop] in *.
  repeat split.
  - destruct l as [s | [] | | [] m e]; cbn in *; try discriminate Hl; reflexivity.
  - destruct r as [s | [] | | [] m e]; cbn in *; try discriminate Hr; reflexivity.
  - destruct b as [s | [] | | [] m e]; cbn in *; try discriminate Hb; reflexivity.
  - destruct t as [s | [] | | [] m e]; cbn in *; try discriminate Ht; reflexivity.
Qed.

Lemma zoom_out_run deltas : forall vc,
  Forall zoomOut deltas -> validView vc -> strictlyStraddles vc -> withinLimits vc ->
  encloses (processScrolls deltas vc) vc /\
  validView (processScrolls deltas vc) /\ strictlyStraddles (processScrolls deltas vc) /\
  withinLimits (processScrolls deltas vc).
Proof.
  unfold processScrolls.
  induction deltas as [| y deltas IH]; intros vc Hout Hvalid Hvc Hlim; cbn [fold_left].
  - split; [apply encloses_refl; apply strictlyStraddles_straddles; exact Hvc |].
    split; [exact Hvalid | split; [exact Hvc | exact Hlim]].
  - inversion Hout as [| y' ds' Hy Hds]; subst.
    destruct (zoom_out_step y vc Hy Hvalid Hvc Hlim) as (Hstep & Hvalid' & Hvc' & Hlim').
    destruct (IH (processScroll y vc) Hds Hvalid' Hvc' Hlim') as (Hrun & Hv'' & Hs'' & Hl'').
    split; [| split; [exact Hv'' | split; [exact Hs'' | exact Hl'']]].
    apply (encloses_trans _ (processScroll y vc));
      try (apply strictlyStraddles_straddles; assumption); assumption.
Qed.

(** X16. Zooming out never narrows the view, and never takes it out of
    its limits: after any run of scroll events with deltas of zero or
    less, each bound of a view box that had the origin inside and was
    within the limits is where it was or farther from the origin, at most
    at its limit, so the new box holds the old one. *)
Theorem zoom_out_never_narrows (deltas : list double) (vc : ViewController) :
  Forall zoomOut deltas -> validView vc -> strictlyStraddles vc -> withinLimits vc ->
  encloses (processScrolls deltas vc) vc /\
  strictlyStraddles (processScrolls deltas vc) /\ withinLimits (processScrolls deltas vc).
Proof.
  intros Hout Hvalid Hvc Hlim.
  destruct (zoom_out_run deltas vc Hout Hvalid Hvc Hlim) as (H1 & _ & H2 & H3).
  split; [exact H1 | split; [exact H2 | exact H3]].
Qed.
Lemma zoomFactorOf_zero y :
  is_zero y = true -> zoomFactorOf y = S754_finite false (one_mantissa F32.prec) (1 - F32.prec).
Proof. destruct y as [[] | | |]; intros H; try discriminate H; vm_compute; reflexivity. Qed.

Lemma max_kept x c : F32.ltb x c = false -> F32.max x c = x.
Proof. unfold F32.max. intros ->. reflexivity. Qed.

Lemma min_kept x c : F32.ltb c x = false -> F32.min x c = x.
Proof. unfold F32.min. intros ->. reflexivity. Qed.

(** X17. A scroll event with a delta of zero (of either sign) changes
    nothing: the zoom factor is exactly one, and bounds that are not
    beyond their limits come back as they were, NaN and infinities
    included. *)
Theorem zero_scroll_is_identity (yOffset : double) (vc : ViewController) :
  is_zero yOffset = true -> validView vc -> notBeyondLimits vc ->
  zoomFactorOf yOffset = F32.lit 1 1 /\ processScroll yOffset vc = vc.
Proof.
  intros Hy (Hvl & Hvr & Hvb & Hvt) (Hl & Hr & Hb & Ht).
  pose proof (zoomFactorOf_zero yOffset Hy) as Hzf.
  split; [rewrite Hzf; reflexivity |].
  unfold processScroll. rewrite Hzf. unfold F32.mul.
  rewrite !(SFmul_one F32.prec F32.emax eq_refl) by (reflexivity || assumption).
  rewrite !max_kept, !min_kept by assumption.
  destruct vc; reflexivity.
Qed.

Lemma processScroll_centred y vc : centred vc -> centred (processScroll y vc).
Proof.
  intros [Hl Hb]. unfold centred, processScroll.
  cbn [orthographicLeft orthographicRight orthographicBottom orthographicTop].
  rewrite Hl, Hb. unfold F32.opp.
  rewrite !mul_opp, !max_opp. split; reflexivity.
Qed.

(** X18. A view box centred on the origin stays centred: when left is
    the opposite of right and bottom the opposite of top, they are so
    again after any run of scroll events, whatever the deltas. *)
Theorem scrolls_keep_centred (deltas : list double) (vc : ViewController) :
  centred vc -> centred (processScrolls deltas vc).
Proof.
  unfold processScrolls. revert vc.
  induction deltas as [| y deltas IH]; intros vc Hvc; cbn [fold_left].
  - exact Hvc.
  - apply IH. apply processScroll_centred. exact Hvc.
Qed.

Lemma processScroll_viewNaN y : processScroll y viewNaN = viewNaN.
Proof. reflexivity. Qed.

Lemma mul_nan x : F32.mul x S754_nan = S754_nan.
Proof. destruct x as [s | s | | s m e]; reflexivity. Qed.

(** X22. A scroll event whose delta is a NaN makes all four bounds NaN,
    whatever they were, and no later scroll event brings a number back:
    the bounds stay NaN after any further run, and the zoom level read
    from them is NaN. *)
Theorem nan_scroll_poisons (vc : ViewController) (deltas : list double) :
  processScrolls (S754_nan :: deltas) vc = viewNaN /\
  getCurrentZoomLevel (processScrolls (S754_nan :: deltas) vc) = S754_nan.
Proof.
  assert (processScrolls (S754_nan :: deltas) vc = viewNaN) as H.
  { unfold processScrolls. cbn [fold_left].
    assert (processScroll S754_nan vc = viewNaN) as ->.
    { unfold processScroll.
      change (zoomFactorOf S754_nan) with S754_nan. rewrite !mul_nan. reflexivity. }
    induction deltas as [| y deltas IH]; cbn [fold_left]; [reflexivity |].
    rewrite processScroll_viewNaN. exact IH. }
  split; [exact H | rewrite H; reflexivity].
Qed.

(** ** The sign of the zoom level *)

Lemma SFsub_nonneg x y : nonneg x -> nonpos y -> nonneg (SFsub F32.prec F32.emax x y).
Proof.
  destruct x as [sx | [] | | [] mx ex], y as [sy | [] | | [] my ey];
    cbn [nonneg nonpos]; intros Hx Hy; try contradiction; try exact I.
  - cbn [SFsub]. destruct sx, sy; exact I.
  - cbn [SFsub cond_Zopp negb].
    apply nonneg_of_sign.
    set (a := fst (shl_align mx ex (Z.min ex ey))).
    set (b := fst (shl_align my ey (Z.min ex ey))).
    change (Zpos a - Zneg b) with (Zpos (a + b)). cbn [binary_normalize].
    apply binary_round_sign.
Qed.

Lemma getCurrentZoomLevel_nonneg vc : straddles vc -> nonneg (getCurrentZoomLevel vc).
Proof.
  intros (Hl & Hr & _ & _).
  apply leb_zero_nonpos in Hl. apply zero_leb_nonneg in Hr.
  unfold getCurrentZoomLevel, F32.div, F32.sub.
  change (F32.lit 200 1) with (S754_finite false 13107200 (-16)).
  apply SFdiv_nonneg. apply SFsub_nonneg; assumption.
Qed.

(** ** The direction of the keys *)

Lemma leb_negative_nonneg m e x : nonneg x -> F32.leb (S754_finite true m e) x = true.
Proof. destruct x as [s | [] | | [] mx ex]; cbn; intros H; try contradiction; reflexivity. Qed.

Lemma leb_nonpos_positive m e x : nonpos x -> F32.leb x (S754_finite false m e) = true.
Proof. destruct x as [s | [] | | [] mx ex]; cbn; intros H; try contradiction; reflexivity. Qed.

Lemma leb_refl_finite s m e : F32.leb (S754_finite s m e) (S754_finite s m e) = true.
Proof.
  destruct s; [apply leb_refl_nonpos | apply leb_refl_nonneg]; exact I.
Qed.

Lemma leb_negatives m e mz ez :
  ge_mant m e mz ez -> F32.leb (S754_finite true mz ez) (S754_finite true m e) = true.
Proof.
  intros H.
  change (S754_finite true mz ez) with (SFopp (S754_finite false mz ez)).
  change (S754_finite true m e) with (SFopp (S754_finite false m e)).
  rewrite leb_opp. apply leb_of_ge_mant. exact H.
Qed.

(** The two aligned mantissas of a sum or a difference. *)
Lemma aligned_value mz ez es :
  Zpos (fst (shl_align mz ez (Z.min ez es))) = Zpos mz * 2 ^ (ez - Z.min ez es).
Proof.
  pose proof (shl_align_spec mz ez (Z.min ez es)) as [_ H].
  replace (Z.min ez (Z.min ez es)) with (Z.min ez es) in H by lia. exact H.
Qed.

Lemma val_le_aligned_sum (a b : positive) mz ez e0 :
  e0 <= ez -> Zpos a = Zpos mz * 2 ^ (ez - e0) ->
  val_le (Zpos mz) ez (Zpos (a + b)) e0.
Proof.
  intros He Ha. exists e0. split; [lia | split; [lia |]].
  rewrite Z.sub_diag, Z.pow_0_r, Z.mul_1_r, Pos2Z.inj_add. lia.
Qed.

Lemma val_le_aligned_diff (a p : positive) mz ez e0 :
  e0 <= ez -> Zpos a = Zpos mz * 2 ^ (ez - e0) -> Zpos p <= Zpos a ->
  val_le (Zpos p) e0 (Zpos mz) ez.
Proof.
  intros He Ha Hp. exists e0. split; [lia | split; [lia |]].
  rewrite Z.sub_diag, Z.pow_0_r, Z.mul_1_r. lia.
Qed.

(** Adding a number that is not negative does not decrease a finite
    number. *)
Lemma add_nonneg_ge z s :
  valid_binary F32.prec F32.emax z = true -> is_finite z = true -> nonneg s ->
  F32.leb z (F32.add z s) = true.
Proof.
  intros Hv Hf Hs. unfold F32.add.
  destruct z as [sz | sz | | sz mz ez]; cbn [is_finite] in Hf; try discriminate Hf.
  - destruct s as [ss | [] | | [] ms es]; cbn [nonneg] in Hs; try contradiction.
    + destruct sz, ss; reflexivity.
    + reflexivity.
    + reflexivity.
  - pose proof (valid_canonical _ _ _ Hv) as Hc.
    pose proof Hv as Hb. cbn [valid_binary] in Hb. unfold bounded in Hb.
    apply andb_prop in Hb. destruct Hb as [_ Hb]. apply Z.leb_le in Hb.
    destruct s as [ss | [] | | [] ms es]; cbn [nonneg] in Hs; try contradiction.
    + apply leb_refl_finite.
    + destruct sz; reflexivity.
    + cbn [SFadd].
      pose proof (aligned_value mz ez es) as Ha.
      set (a := fst (shl_align mz ez (Z.min ez es))) in *.
      set (b := fst (shl_align ms es (Z.min ez es))).
      destruct sz; cbn [cond_Zopp].
      * match goal with
        | |- context [binary_normalize _ _ ?t _ _] => remember t as d eqn:Hd
        end. destruct d as [| p | p]; cbn [binary_normalize].
        -- reflexivity.
        -- apply leb_negative_nonneg. apply nonneg_of_sign.
           apply (binary_round_sign F32.prec F32.emax).
        -- destruct (binary_round_upper_exact F32.prec F32.emax eq_refl true p (Z.min ez es)
                       mz ez Hc Hb) as [Hz | (m & e & Heq & _ & Hge)].
           ++ apply (val_le_aligned_diff a); [lia | exact Ha | lia].
           ++ rewrite Hz. reflexivity.
           ++ rewrite Heq. apply leb_negatives. exact Hge.
      * match goal with
        | |- context [binary_normalize _ _ ?t _ _] => remember t as d eqn:Hd
        end. assert (d = Zpos (a + b)) as -> by lia. clear Hd.
        cbn [binary_normalize].
        destruct (binary_round_lower F32.prec F32.emax eq_refl false (a + b) (Z.min ez es)
                    mz ez Hc) as [Hinf | (m & e & Heq & _ & Hge)].
        -- apply (val_le_aligned_sum a); [lia | exact Ha].
        -- rewrite Hinf. reflexivity.
        -- rewrite Heq. apply leb_of_ge_mant. exact Hge.
Qed.

(** Taking away a number that is not negative does not increase a finite
    number. *)
Lemma sub_nonneg_le z s :
  valid_binary F32.prec F32.emax z = true -> is_finite z = true -> nonneg s ->
  F32.leb (F32.sub z s) z = true.
Proof.
  intros Hv Hf Hs. unfold F32.sub.
  destruct z as [sz | sz | | sz mz ez]; cbn [is_finite] in Hf; try discriminate Hf.
  - destruct s as [ss | [] | | [] ms es]; cbn [nonneg] in Hs; try contradiction.
    + destruct sz, ss; reflexivity.
    + reflexivity.
    + reflexivity.
  - pose proof (valid_canonical _ _ _ Hv) as Hc.
    pose proof Hv as Hb. cbn [valid_binary] in Hb. unfold bounded in Hb.
    apply andb_prop in Hb. destruct Hb as [_ Hb]. apply Z.leb_le in Hb.
    destruct s as [ss | [] | | [] ms es]; cbn [nonneg] in Hs; try contradiction.
    + apply leb_refl_finite.
    + destruct sz; reflexivity.
    + cbn [SFsub].
      pose proof (aligned_value mz ez es) as Ha.
      set (a := fst (shl_align mz ez (Z.min ez es))) in *.
      set (b := fst (shl_align ms es (Z.min ez es))).
      destruct sz; cbn [cond_Zopp].
      * match goal with
        | |- context [binary_normalize _ _ ?t _ _] => remember t as d eqn:Hd
        end. assert (d = Z.neg (a + b)) as -> by lia. clear Hd.
        cbn [binary_normalize].
        destruct (binary_round_lower F32.prec F32.emax eq_refl true (a + b) (Z.min ez es)
                    mz ez Hc) as [Hinf | (m & e & Heq & _ & Hge)].
        -- apply (val_le_aligned_sum a); [lia | exact Ha].
        -- rewrite Hinf. reflexivity.
        -- rewrite Heq. apply leb_negatives. exact Hge.
      * match goal with
        | |- context [binary_normalize _ _ ?t _ _] => remember t as d eqn:Hd
        end. destruct d as [| p | p]; cbn [binary_normalize].
        -- reflexivity.
        -- destruct (binary_round_upper_exact F32.prec F32.emax eq_refl false p (Z.min ez es)
                       mz ez Hc Hb) as [Hz | (m & e & Heq & _ & Hge)].
           ++ apply (val_le_aligned_diff a); [lia | exact Ha | lia].
           ++ rewrite Hz. reflexivity.
           ++ rewrite Heq. apply leb_of_ge_mant. exact Hge.
        -- apply leb_nonpos_positive. apply nonpos_of_sign.
           apply (binary_round_sign F32.prec F32.emax).
Qed.

Lemma cameraSpeed_nonneg vc :
  straddles vc -> nonneg (F32.mul (F32.lit 1 1) (getCurrentZoomLevel vc)).
Proof.
  intros H. pose proof (getCurrentZoomLevel_nonneg vc H) as Hz.
  change (F32.lit 1 1) with (S754_finite false 8388608 (-23)).
  destruct (getCurrentZoomLevel vc) as [s | [] | | [] m e]; cbn [nonneg] in Hz;
    try contradiction; try exact I.
  unfold F32.mul. cbn [SFmul xorb]. apply nonneg_of_sign.
  apply binary_round_aux_sign. lia.
Qed.

Lemma steady_leb_refl a : steady a -> F32.leb a a = true.
Proof.
  intros [_ Hf]. destruct a as [s | s | | s m e]; cbn [is_finite] in Hf; try discriminate Hf.
  - destruct s; reflexivity.
  - apply leb_refl_finite.
Qed.

Lemma processEvents_position keys v :
  keyEscape keys = false ->
  let s := F32.mul (F32.lit 1 1) (getCurrentZoomLevel (ortho v)) in
  let x := glm.x (cameraPos v) in
  let z := glm.z (cameraPos v) in
  glm.x (cameraPos (snd (processEvents [] keys v)))
  = (let x1 := if keyA keys then F32.sub x s else x in
     if keyD keys then F32.add x1 s else x1) /\
  glm.z (cameraPos (snd (processEvents [] keys v)))
  = (let z1 := if keyW keys then F32.sub z s else z in
     if keyS keys then F32.add z1 s else z1).
Proof.
  intros Hesc. unfold processEvents. cbv zeta. cbn [glfwPollEvents fold_left]. rewrite Hesc.
  destruct (keyW keys), (keyA keys), (keyS keys), (keyD keys); split; reflexivity.
Qed.

(** X23. The keys move the camera one way each: on a call of
    [processEvents] without Escape, z does not increase unless S is held
    (W can only lower it) and does not decrease unless W is held (S can
    only raise it); the same for x with A and D; with neither key of a
    pair held the coordinate stays.  The step is the zoom level that is
    read after the poll, so of the bounds as the waiting scroll events
    leave them: it is not negative when the view box then holds the
    origin, as it does when it held it before and every waiting delta
    has a positive finite zoom factor ([processScrolls_straddles]).  The
    camera is at finite coordinates. *)
Theorem keys_move_one_way (pending : list (double * double)) (keys : Keys) (v : Viewer) :
  keyEscape keys = false ->
  straddles (processScrolls (map snd pending) (ortho v)) ->
  steady (glm.x (cameraPos v)) -> steady (glm.z (cameraPos v)) ->
  let x := glm.x (cameraPos v) in
  let z := glm.z (cameraPos v) in
  let x' := glm.x (cameraPos (snd (processEvents pending keys v))) in
  let z' := glm.z (cameraPos (snd (processEvents pending keys v))) in
  (keyS keys = false -> F32.leb z' z = true) /\
  (keyW keys = false -> F32.leb z z' = true) /\
  (keyD keys = false -> F32.leb x' x = true) /\
  (keyA keys = false -> F32.leb x x' = true) /\
  (keyW keys = false -> keyS keys = false -> z' = z) /\
  (keyA keys = false -> keyD keys = false -> x' = x).
Proof.
  intros Hesc Hvc Hx Hz x z x' z'.
  destruct (glfwPollEvents_fields pending v) as (Ho & Hp & _).
  destruct (processEvents_position keys (glfwPollEvents pending v) Hesc) as [Hx' Hz'].
  cbv zeta in Hx', Hz'. rewrite <- processEvents_polled, Ho, Hp in Hx', Hz'.
  subst x' z'. rewrite Hx', Hz'. fold x z.
  pose proof (cameraSpeed_nonneg _ Hvc) as Hs.
  set (s := F32.mul (F32.lit 1 1)
              (getCurrentZoomLevel (processScrolls (map snd pending) (ortho v)))) in *.
  destruct Hx as [Hxv Hxf]. destruct Hz as [Hzv Hzf]. fold x in Hxv, Hxf. fold z in Hzv, Hzf.
  assert (F32.leb x x = true) as Hxx by (apply steady_leb_refl; split; assumption).
  assert (F32.leb z z = true) as Hzz by (apply steady_leb_refl; split; assumption).
  repeat split.
  - intros ->. destruct (keyW keys); [apply sub_nonneg_le; assumption | exact Hzz].
  - intros ->. destruct (keyS keys); [apply add_nonneg_ge; assumption | exact Hzz].
  - intros ->. destruct (keyA keys); [apply sub_nonneg_le; assumption | exact Hxx].
  - intros ->. destruct (keyD keys); [apply add_nonneg_ge; assumption | exact Hxx].
  - intros -> ->. reflexivity.
  - intros -> ->. reflexivity.
Qed.

Lemma keys_move_one_way_witness :
  keyEscape keysWA = false /\
  straddles (processScrolls (map snd zoomOutQueue) (ortho (setUpCamera viewDefault))) /\
  F32.leb (glm.z (cameraPos (snd (processEvents zoomOutQueue keysWA (setUpCamera viewDefault)))))
    (glm.z (cameraPos (setUpCamera viewDefault))) = true /\
  F32.leb (glm.x (cameraPos (snd (processEvents zoomOutQueue keysWA (setUpCamera viewDefault)))))
    (glm.x (cameraPos (setUpCamera viewDefault))) = true.
Proof.
  assert (straddles (processScrolls (map snd zoomOutQueue) (ortho (setUpCamera viewDefault))))
    as Hvc by (vm_compute; repeat split).
  assert (steady (glm.x (cameraPos (setUpCamera viewDefault)))) as Hx by (split; reflexivity).
  assert (steady (glm.z (cameraPos (setUpCamera viewDefault)))) as Hz by (split; reflexivity).
  destruct (keys_move_one_way zoomOutQueue keysWA (setUpCamera viewDefault)
              eq_refl Hvc Hx Hz) as (HS & _ & HD & _).
  split; [reflexivity | split; [exact Hvc | split; [exact (HS eq_refl) | exact (HD eq_refl)]]].
Defined.

(** The step is read after the poll: with a scroll event of delta 20
    waiting (zoom factor -1), a view box that held the origin before the
    call is turned over by the time the keys are read, and W raises z. *)
Example keys_after_poll :
  straddles (ortho (setUpCamera viewDefault)) /\
  F32.ltb (glm.z (cameraPos (setUpCamera viewDefault)))
    (glm.z (cameraPos (snd (processEvents sampleQueue keysW (setUpCamera viewDefault)))))
  = true.
Proof. split; [repeat split | vm_compute; reflexivity]. Qed.

Lemma add_opp_sub x s : F32.add x (SFopp s) = F32.sub x s.
Proof.
  destruct x as [sx | sx | | sx mx ex], s as [ss | ss | | ss ms es];
    try destruct sx; try destruct ss; reflexivity.
Qed.

Lemma add_nonpos_le z s :
  valid_binary F32.prec F32.emax z = true -> is_finite z = true -> nonpos s ->
  F32.leb (F32.add z s) z = true.
Proof.
  intros Hv Hf Hs. rewrite <- (SFopp_involutive s), add_opp_sub.
  apply sub_nonneg_le; [exact Hv | exact Hf | apply SFopp_nonneg; exact Hs].
Qed.

Lemma mul_finite_sign d zl :
  is_finite d = true -> is_finite zl = true -> nonneg zl ->
  (nonneg d -> nonneg (F32.mul d zl)) /\ (nonpos d -> nonpos (F32.mul d zl)).
Proof.
  intros Hd Hzl Hz.
  destruct zl as [sz | sz | | [] mz ez]; cbn [is_finite nonneg] in Hzl, Hz;
    try discriminate Hzl; try contradiction.
  - destruct d as [sd | sd | | sd md ed]; cbn [is_finite] in Hd; try discriminate Hd;
      split; intros H; cbn in *; destruct sd, sz; cbn in *; try contradiction; exact I.
  - split; intros H; [apply SFmul_nonneg | apply SFmul_nonpos]; exact H.
Qed.

(** X24. A pan moves the camera the way of its deltas: with a finite
    zoom level that is not negative and the camera at finite coordinates,
    a delta of zero or more never decreases the coordinate it acts on
    (deltaX on x, deltaY on z) and a delta of zero or less never
    increases it. *)
Theorem pan_moves_one_way (deltaX deltaY : float) (v : Viewer) :
  straddles (ortho v) -> is_finite (getCurrentZoomLevel (ortho v)) = true ->
  steady (glm.x (cameraPos v)) -> steady (glm.z (cameraPos v)) ->
  is_finite deltaX = true -> is_finite deltaY = true ->
  let x := glm.x (cameraPos v) in
  let z := glm.z (cameraPos v) in
  let x' := glm.x (cameraPos (moveCamera deltaX deltaY v)) in
  let z' := glm.z (cameraPos (moveCamera deltaX deltaY v)) in
  (nonneg deltaX -> F32.leb x x' = true) /\
  (nonpos deltaX -> F32.leb x' x = true) /\
  (nonneg deltaY -> F32.leb z z' = true) /\
  (nonpos deltaY -> F32.leb z' z = true).
Proof.
  intros Hvc Hfin [Hxv Hxf] [Hzv Hzf] HdX HdY x z x' z'.
  pose proof (getCurrentZoomLevel_nonneg (ortho v) Hvc) as Hzl.
  destruct (mul_finite_sign deltaX _ HdX Hfin Hzl) as [HXp HXn].
  destruct (mul_finite_sign deltaY _ HdY Hfin Hzl) as [HYp HYn].
  subst x' z'. unfold moveCamera. cbn [cameraPos set_x set_z glm.x glm.z]. fold x z.
  repeat split; intros H.
  - apply add_nonneg_ge; [assumption | assumption | apply HXp; exact H].
  - apply add_nonpos_le; [assumption | assumption | apply HXn; exact H].
  - apply add_nonneg_ge; [assumption | assumption | apply HYp; exact H].
  - apply add_nonpos_le; [assumption | assumption | apply HYn; exact H].
Qed.

Lemma pan_moves_one_way_witness :
  nonneg (F32.of_Z 2) /\ nonpos (F32.of_Z (-1)) /\
  F32.leb (glm.x (cameraPos (setUpCamera viewDefault)))
    (glm.x (cameraPos (moveCamera (F32.of_Z 2) (F32.of_Z (-1)) (setUpCamera viewDefault))))
  = true /\
  F32.leb (glm.z (cameraPos (moveCamera (F32.of_Z 2) (F32.of_Z (-1)) (setUpCamera viewDefault))))
    (glm.z (cameraPos (setUpCamera viewDefault)))
  = true.
Proof.
  assert (straddles (ortho (setUpCamera viewDefault))) as Hvc by (repeat split).
  assert (steady (glm.x (cameraPos (setUpCamera viewDefault)))) as Hx by (split; reflexivity).
  assert (steady (glm.z (cameraPos (setUpCamera viewDefault)))) as Hz by (split; reflexivity).
  destruct (pan_moves_one_way (F32.of_Z 2) (F32.of_Z (-1)) (setUpCamera viewDefault)
              Hvc eq_refl Hx Hz eq_refl eq_refl) as (HX & _ & _ & HY).
  split; [exact I | split; [exact I | split; [exact (HX I) | exact (HY I)]]].
Defined.

(** ** The zoom level *)

(** Zero, or a positive number of the format that is at most [(mc, ec)]:
    the shape of a bound that is within its limit. *)
Lemma within_shape x mc ec :
  nonneg x -> valid_binary F32.prec F32.emax x = true ->
  F32.leb x (S754_finite false mc ec) = true ->
  x = S754_zero false \/ x = S754_zero true \/
  exists m e, x = S754_finite false m e /\
    canonical_mantissa F32.prec F32.emax m e = true /\ ge_mant m e mc ec.
Proof.
  intros Hx Hv Hle.
  destruct x as [[] | [] | | [] m e]; cbn [nonneg] in Hx; try contradiction.
  - right. left. reflexivity.
  - left. reflexivity.
  - discriminate Hle.
  - right. right. exists m, e. split; [reflexivity | split].
    + exact (valid_canonical _ _ _ Hv).
    + exact (leb_finite_pos _ _ _ _ Hle).
Qed.

Lemma val_le_sum (a b : positive) ea eb (c : positive) ec :
  val_le (Zpos a) ea (Zpos c) ec -> val_le (Zpos b) eb (Zpos c) ec ->
  val_le (Zpos a * 2 ^ (ea - Z.min ea eb) + Zpos b * 2 ^ (eb - Z.min ea eb)) (Z.min ea eb)
    (Zpos c) (ec + 1).
Proof.
  intros (k1 & Ha1 & Hc1 & H1) (k2 & Hb2 & Hc2 & H2).
  set (k := Z.min k1 k2).
  assert (Zpos a * 2 ^ (ea - k) <= Zpos c * 2 ^ (ec - k)) as Ha
    by (apply scaled_le_weaken with (k := k1); subst k; lia).
  assert (Zpos b * 2 ^ (eb - k) <= Zpos c * 2 ^ (ec - k)) as Hb
    by (apply scaled_le_weaken with (k := k2); subst k; lia).
  exists k. split; [subst k; lia | split; [subst k; lia |]].
  rewrite Z.mul_add_distr_r, <- !Z.mul_assoc, <- !Z.pow_add_r by (subst k; lia).
  replace (ea - Z.min ea eb + (Z.min ea eb - k)) with (ea - k) by lia.
  replace (eb - Z.min ea eb + (Z.min ea eb - k)) with (eb - k) by lia.
  replace (ec + 1 - k) with (1 + (ec - k)) by lia.
  rewrite Z.pow_add_r by (subst k; lia). change (2 ^ 1) with 2. lia.
Qed.

Lemma ge_mant_next m e mc ec : ge_mant m e mc ec -> ge_mant m e mc (ec + 1).
Proof. unfold ge_mant. lia. Qed.

(** The width of a view box within the limits is at most 6400. *)
Lemma width_bounded r l :
  nonneg r -> valid_binary F32.prec F32.emax r = true ->
  F32.leb r (S754_finite false 13107200 (-12)) = true ->
  nonpos l -> valid_binary F32.prec F32.emax l = true ->
  F32.leb (S754_finite true 13107200 (-12)) l = true ->
  is_zero (F32.sub r l) = true \/
  exists m e, F32.sub r l = S754_finite false m e /\
    canonical_mantissa F32.prec F32.emax m e = true /\ ge_mant m e 13107200 (-11).
Proof.
  intros Hr Hvr Hler Hl Hvl Hlel.
  rewrite <- (SFopp_involutive l) in Hlel.
  change (S754_finite true 13107200 (-12)) with (SFopp (S754_finite false 13107200 (-12)))
    in Hlel.
  rewrite leb_opp in Hlel. rewrite <- valid_binary_opp in Hvl.
  apply SFopp_nonneg in Hl.
  destruct (within_shape _ _ _ Hr Hvr Hler) as [-> | [-> | (mr & er & -> & Hcr & Hgr)]];
    destruct (within_shape _ _ _ Hl Hvl Hlel) as [Hl0 | [Hl0 | (ml & el & Hl0 & Hcl & Hgl)]];
    apply (f_equal SFopp) in Hl0; rewrite SFopp_involutive in Hl0; subst l;
    try (left; reflexivity).
  - right. exists ml, el. split; [reflexivity | split; [exact Hcl |]].
    apply (ge_mant_next _ _ _ (-12)). exact Hgl.
  - right. exists ml, el. split; [reflexivity | split; [exact Hcl |]].
    apply (ge_mant_next _ _ _ (-12)). exact Hgl.
  - right. exists mr, er. split; [reflexivity | split; [exact Hcr |]].
    apply (ge_mant_next _ _ _ (-12)). exact Hgr.
  - right. exists mr, er. split; [reflexivity | split; [exact Hcr |]].
    apply (ge_mant_next _ _ _ (-12)). exact Hgr.
  - unfold F32.sub. cbn [SFopp SFsub cond_Zopp negb].
    pose proof (aligned_value mr er el) as Ha.
    pose proof (aligned_value ml el er) as Hb. rewrite (Z.min_comm el er) in Hb.
    set (a := fst (shl_align mr er (Z.min er el))) in *.
    set (b := fst (shl_align ml el (Z.min er el))) in *.
    match goal with
    | |- context [binary_normalize _ _ ?t _ _] => remember t as d eqn:Hd
    end.
    assert (d = Zpos (a + b)) as -> by lia. clear Hd. cbn [binary_normalize].
    pose proof (ge_mant_val_le F32.prec F32.emax eq_refl mr er 13107200 (-12) Hcr eq_refl Hgr)
      as Hvr'.
    pose proof (ge_mant_val_le F32.prec F32.emax eq_refl ml el 13107200 (-12) Hcl eq_refl Hgl)
      as Hvl'.
    pose proof (val_le_sum mr ml er el 13107200 (-12) Hvr' Hvl') as Hsum.
    rewrite <- Ha, <- Hb in Hsum. change (-12 + 1) with (-11) in Hsum.
    destruct (binary_round_upper_exact F32.prec F32.emax eq_refl false (a + b) (Z.min er el)
                13107200 (-11) eq_refl) as [Hz | (m & e & Heq & Hcm & Hge)].
    + discriminate.
    + rewrite Pos2Z.inj_add. exact Hsum.
    + left. rewrite Hz. reflexivity.
    + right. exists m, e. repeat split; assumption.
Qed.

(** A two-hundredth of a width below 6400 is at most 32. *)
Lemma div200_below mx ex :
  canonical_mantissa F32.prec F32.emax mx ex = true ->
  ex < -11 \/ (ex = -11 /\ Zpos mx < 13107200) ->
  F32.div (S754_finite false mx ex) (S754_finite false 13107200 (-16)) = S754_zero false \/
  exists m e,
    F32.div (S754_finite false mx ex) (S754_finite false 13107200 (-16))
    = S754_finite false m e /\
    canonical_mantissa F32.prec F32.emax m e = true /\ ge_mant m e 8388608 (-18).
Proof.
  intros Hc Hlt. unfold F32.div. cbn [SFdiv xorb].
  pose proof (SFdiv_core_binary_spec F32.prec F32.emax eq_refl mx ex 13107200 (-16))
    as (He1 & He2 & [Hq1 Hq2] & HA).
  destruct (SFdiv_core_binary F32.prec F32.emax (Zpos mx) ex (Zpos 13107200) (-16))
    as [[q e'] l].
  cbn [fst snd] in He1, He2, Hq1, Hq2, HA.
  assert (0 <= q) as Hq by nia.
  pose proof (canonical_digits mx ex Hc) as Hmx.
  destruct (Zdigits2_pos_bounds mx) as [Hdlo _].
  assert (Zpos (digits2_pos mx) <= 24) as Hd.
  { unfold canonical_mantissa in Hc. apply Z.eqb_eq in Hc.
    unfold fexp, F32.prec in Hc. lia. }
  assert (e' <= -19) as He19.
  { change (Zpos (digits2_pos 13107200)) with 24 in He2.
    unfold fexp, emin, F32.prec, F32.emax in He2. lia. }
  apply binary_round_aux_upper;
    [reflexivity | exact Hq | exact HA | reflexivity | vm_compute; discriminate |].
  exists e'. split; [lia | split; [lia |]].
  rewrite Z.sub_diag, Z.pow_0_r, Z.mul_1_r.
  change (Zpos 8388608) with (2 ^ 23). rewrite <- Z.pow_add_r by lia.
  replace (23 + (-18 - e')) with (5 - e') by lia.
  replace (ex - -16 - e') with (ex + 16 - e') in Hq1 by lia.
  (* q * 200 * 2^16 <= mx * 2^(ex + 16 - e') < 200 * 2^16 * 2^(5 - e') *)
  assert (Zpos mx * 2 ^ (ex + 16 - e') < 13107200 * 2 ^ (5 - e')) as Hub.
  { destruct Hlt as [Hlt | [Heq Hlt]].
    - apply Z.le_lt_trans with (Zpos mx * 2 ^ (4 - e')).
      + apply Z.mul_le_mono_nonneg_l; [lia | apply Z.pow_le_mono_r; lia].
      + replace (5 - e') with (1 + (4 - e')) by lia.
        rewrite Z.pow_add_r by lia. change (2 ^ 1) with 2.
        pose proof (pow2_pos (4 - e')). change (2 ^ 24) with 16777216 in Hmx. nia.
    - subst ex. replace (-11 + 16 - e') with (5 - e') by lia.
      apply Z.mul_lt_mono_pos_r; [apply pow2_pos; lia | lia]. }
  pose proof (pow2_pos (5 - e')) as HP.
  assert (q < 2 ^ (5 - e')); [| lia].
  assert (q * 13107200 < 2 ^ (5 - e') * 13107200) by lia.
  apply Z.mul_lt_mono_pos_r with 13107200; lia.
Qed.

(** A two-hundredth of a width of at most 6400 is at most 32. *)
Lemma div200_bounded mx ex :
  canonical_mantissa F32.prec F32.emax mx ex = true ->
  ge_mant mx ex 13107200 (-11) ->
  F32.div (S754_finite false mx ex) (F32.lit 200 1) = S754_zero false \/
  exists m e, F32.div (S754_finite false mx ex) (F32.lit 200 1) = S754_finite false m e /\
    canonical_mantissa F32.prec F32.emax m e = true /\ ge_mant m e 8388608 (-18).
Proof.
  intros Hc Hge.
  change (F32.lit 200 1) with (S754_finite false 13107200 (-16)).
  destruct Hge as [Hlt | [Heq Hle]].
  - apply (div200_below mx ex Hc). left. exact Hlt.
  - apply Pos.lt_eq_cases in Hle. destruct Hle as [Hlt | Hmx].
    + apply (div200_below mx ex Hc). right. split; [exact Heq |].
      apply Pos2Z.pos_lt_pos. exact Hlt.
    + subst. right. exists 8388608%positive, (-18).
      split; [vm_compute; reflexivity | split; [reflexivity | apply ge_mant_refl]].
Qed.

(** X19. The zoom level, which is the step of the keys and the scale of
    a pan, is never negative and never a NaN while the view box holds
    the origin, and it stays so after any run of scroll events whose
    zoom factors are positive finite numbers; for valid bounds within
    the limits it is a finite number of at most 32, the value it has
    when all four bounds sit at the limits. *)
Theorem zoom_level_range (vc : ViewController) (deltas : list double) :
  straddles vc ->
  nonneg (getCurrentZoomLevel vc) /\
  (Forall properZoom deltas -> nonneg (getCurrentZoomLevel (processScrolls deltas vc))) /\
  (validView vc -> withinLimits vc ->
   is_finite (getCurrentZoomLevel vc) = true /\
   F32.leb (getCurrentZoomLevel vc) (F32.of_Z 32) = true) /\
  getCurrentZoomLevel viewPinned = F32.of_Z 32.
Proof.
  intros Hvc. split; [apply getCurrentZoomLevel_nonneg; exact Hvc | split; [| split]].
  - intros Hall. apply getCurrentZoomLevel_nonneg.
    apply processScrolls_straddles; assumption.
  - intros (Hvl & Hvr & _ & _) (Hwl & Hwr & _ & _).
    destruct Hvc as (Hl & Hr & _ & _).
    apply leb_zero_nonpos in Hl. apply zero_leb_nonneg in Hr.
    change (F32.opp (F32.lit 3200 1)) with (S754_finite true 13107200 (-12)) in Hwl.
    change (F32.lit 3200 1) with (S754_finite false 13107200 (-12)) in Hwr.
    unfold getCurrentZoomLevel.
    change (F32.of_Z 32) with (S754_finite false 8388608 (-18)).
    destruct (width_bounded _ _ Hr Hvr Hwr Hl Hvl Hwl) as [Hz | (m & e & -> & Hc & Hge)].
    + destruct (F32.sub (orthographicRight vc) (orthographicLeft vc)) as [s | s | | s m e];
        cbn [is_zero] in Hz; try discriminate Hz.
      destruct s; split; reflexivity.
    + destruct (div200_bounded m e Hc Hge) as [-> | (m' & e' & -> & _ & Hle)].
      * split; reflexivity.
      * split; [reflexivity | apply leb_of_ge_mant; exact Hle].
  - vm_compute. reflexivity.
Qed.

(** ** The camera handlers on the default view *)

Lemma zoom_in_never_widens_witness :
  Forall zoomIn [F64.of_Z 1; F64.of_Z 6] /\ Forall properZoom [F64.of_Z 1; F64.of_Z 6] /\
  validView viewDefault /\ straddles viewDefault /\
  encloses viewDefault (processScrolls [F64.of_Z 1; F64.of_Z 6] viewDefault).
Proof.
  assert (Forall zoomIn [F64.of_Z 1; F64.of_Z 6]) as Hin by (repeat constructor).
  assert (Forall properZoom [F64.of_Z 1; F64.of_Z 6]) as Hproper by (repeat constructor).
  assert (validView viewDefault) as Hvalid by (repeat split).
  assert (straddles viewDefault) as Hvc by (repeat split).
  split; [exact Hin | split; [exact Hproper | split; [exact Hvalid | split; [exact Hvc |]]]].
  exact (zoom_in_never_widens _ viewDefault Hin Hproper Hvalid Hvc).
Defined.

Lemma zoom_out_never_narrows_witness :
  Forall zoomOut [F64.of_Z (-1); F64.of_Z (-400)] /\ validView viewDefault /\
  strictlyStraddles viewDefault /\ withinLimits viewDefault /\
  encloses (processScrolls [F64.of_Z (-1); F64.of_Z (-400)] viewDefault) viewDefault.
Proof.
  assert (Forall zoomOut [F64.of_Z (-1); F64.of_Z (-400)]) as Hout by (repeat constructor).
  assert (validView viewDefault) as Hvalid by (repeat split).
  assert (strictlyStraddles viewDefault) as Hvc by (repeat split).
  assert (withinLimits viewDefault) as Hlim by (repeat split).
  split; [exact Hout | split; [exact Hvalid | split; [exact Hvc | split; [exact Hlim |]]]].
  exact (proj1 (zoom_out_never_narrows _ viewDefault Hout Hvalid Hvc Hlim)).
Defined.

Lemma zero_scroll_is_identity_witness :
  is_zero (S754_zero true) = true /\ validView viewDefault /\ notBeyondLimits viewDefault /\
  processScroll (S754_zero true) viewDefault = viewDefault.
Proof.
  assert (validView viewDefault) as Hvalid by (repeat split).
  assert (notBeyondLimits viewDefault) as Hlim by (repeat split).
  split; [reflexivity | split; [exact Hvalid | split; [exact Hlim |]]].
  exact (proj2 (zero_scroll_is_identity (S754_zero true) viewDefault eq_refl Hvalid Hlim)).
Defined.

Lemma scrolls_keep_centred_witness :
  centred viewDefault /\ centred (processScrolls sampleDeltas viewDefault).
Proof.
  assert (centred viewDefault) as H by (split; reflexivity).
  split; [exact H | exact (scrolls_keep_centred sampleDeltas viewDefault H)].
Defined.

Lemma zoom_level_range_witness :
  straddles viewDefault /\ Forall properZoom sampleDeltas /\ validView viewDefault /\
  withinLimits viewDefault /\
  nonneg (getCurrentZoomLevel (processScrolls sampleDeltas viewDefault)) /\
  F32.leb (getCurrentZoomLevel viewDefault) (F32.of_Z 32) = true.
Proof.
  assert (straddles viewDefault) as Hvc by (repeat split).
  assert (Forall properZoom sampleDeltas) as Hall by (repeat constructor).
  assert (validView viewDefault) as Hvalid by (repeat split).
  assert (withinLimits viewDefault) as Hlim by (repeat split).
  destruct (zoom_level_range viewDefault sampleDeltas Hvc) as (_ & Hrun & Hbound & _).
  split; [exact Hvc | split; [exact Hall | split; [exact Hvalid | split; [exact Hlim |]]]].
  split; [exact (Hrun Hall) | exact (proj2 (Hbound Hvalid Hlim))].
Defined.
